(** * stylish.js: a CSS-JavaScript processor

    A shallow embedding of the engine of [stylish.js] (version 0.1.1, the
    ES-module draft that exports [Stylish]) together with the places of
    the earlier drafts that the properties below refer to: the [on]
    trigger of the IIFE draft with its [_prevHandler]/[_currHandler]
    bookkeeping, its extractor, and [removeHandler] of version 0.1.0.

    Conventions of the embedding:
    - a JavaScript string is the list of its UTF-16 code units;
    - the two regular expressions of the source are kept as data and run
      by a small backtracking matcher;
    - the host (DOM, CSSOM, selector engine, JSON decoder) is a record of
      functions, the mutable part of the page (data attributes, event
      listeners) lives in the state that every method threads;
    - an array that is read while functions of the page run is read in
      the current state, element by element, as [forEach] does it;
    - a [throw] is the left summand of the result, the state at the
      moment of the throw stays observable;
    - the functions that the page registers (custom triggers, handlers)
      belong to the host: each is a computation on the same state, which
      may throw and may call the methods of the engine; every call is
      recorded, with its arguments, in a ghost trace. A function of the
      page that changes the array [nodes] or the value [args] it is
      handed, the style sheets or the tree of the document is outside
      the embedding. *)

From Stdlib Require Import String Ascii NArith ZArith Lia.
From stdpp Require Import base option list gmap.

Set Warnings "-register-all".
Local Open Scope nat_scope.

(** ** JavaScript strings *)

Abbreviation codeunit := N (only parsing).
Abbreviation jsstring := (list N) (only parsing).

(** [js s] is the JavaScript string with the characters of the literal [s]. *)
Fixpoint js (s : string) : jsstring :=
  match s with
  | EmptyString => []
  | String a s' => N_of_ascii a :: js s'
  end.

Definition BACKSLASH : codeunit := 92%N.
Definition DQUOTE : codeunit := 34%N.
Definition SQUOTE : codeunit := 39%N.
Definition LPAREN : codeunit := 40%N.
Definition RPAREN : codeunit := 41%N.

(** LineTerminator of ECMAScript: LF, CR, LS, PS. *)
Definition is_line_terminator (c : codeunit) : bool :=
  (c =? 10)%N || (c =? 13)%N || (c =? 8232)%N || (c =? 8233)%N.

(** WhiteSpace and LineTerminator of ECMAScript, the characters that
    [String.prototype.trim] strips. *)
Definition is_white_space (c : codeunit) : bool :=
  ((9 <=? c)%N && (c <=? 13)%N) || (c =? 32)%N || (c =? 160)%N
  || (c =? 5760)%N || ((8192 <=? c)%N && (c <=? 8202)%N)
  || (c =? 8232)%N || (c =? 8233)%N || (c =? 8239)%N || (c =? 8287)%N
  || (c =? 12288)%N || (c =? 65279)%N.

Fixpoint trim_start (s : jsstring) : jsstring :=
  match s with
  | c :: s' => if is_white_space c then trim_start s' else s
  | [] => []
  end.

Definition trim (s : jsstring) : jsstring :=
  rev (trim_start (rev (trim_start s))).

(** [s] without its prefix [pre], when it starts with it. *)
Fixpoint strip_prefix (pre s : jsstring) : option jsstring :=
  match pre, s with
  | [], _ => Some s
  | p :: pre', c :: s' => if (p =? c)%N then strip_prefix pre' s' else None
  | _ :: _, [] => None
  end.

(** ** Regular expressions

    The fragment of the RegExp syntax that the source uses: single
    characters, character classes and [.], each of them once, optional
    ([?]) or repeated ([*], greedy), one capturing group and the two
    anchors. *)
Module RegExp.

Inductive atom :=
| Chr (c : codeunit)
| Class (cs : list codeunit)
| Dot.

Inductive item :=
| One (a : atom)
| Opt (a : atom)
| Star (a : atom)
| GroupOpen
| GroupClose
| Bol
| Eol.

Definition t := list item.

Definition atom_matches (a : atom) (c : codeunit) : bool :=
  match a with
  | Chr d => (d =? c)%N
  | Class cs => existsb (N.eqb c) cs
  | Dot => negb (is_line_terminator c)
  end.

(** A character consumed inside the group is part of the capture. *)
Definition consumed (in_group : bool) (c : codeunit)
    (r : jsstring * jsstring) : jsstring * jsstring :=
  if in_group then (c :: r.1, r.2) else r.

(** [run p at_start in_group s] matches [p] at the head of [s] with
    backtracking, greedy quantifiers first. On success it gives the text
    captured by group 1 and the input left after the match. *)
Fixpoint run (p : t) (at_start in_group : bool) (s : jsstring)
    : option (jsstring * jsstring) :=
  match p with
  | [] => Some ([], s)
  | One a :: p' =>
      match s with
      | c :: s' =>
          if atom_matches a c
          then consumed in_group c <$> run p' false in_group s'
          else None
      | [] => None
      end
  | Opt a :: p' =>
      match s with
      | c :: s' =>
          if atom_matches a c
          then match run p' false in_group s' with
               | Some r => Some (consumed in_group c r)
               | None => run p' at_start in_group s
               end
          else run p' at_start in_group s
      | [] => run p' at_start in_group s
      end
  | Star a :: p' =>
      (fix star (at_start : bool) (s : jsstring) {struct s} :=
         match s with
         | c :: s' =>
             if atom_matches a c
             then match star false s' with
                  | Some r => Some (consumed in_group c r)
                  | None => run p' at_start in_group s
                  end
             else run p' at_start in_group s
         | [] => run p' at_start in_group s
         end) at_start s
  | GroupOpen :: p' => run p' at_start true s
  | GroupClose :: p' => run p' at_start false s
  | Bol :: p' => if at_start then run p' at_start in_group s else None
  | Eol :: p' =>
      match s with
      | [] => run p' at_start in_group s
      | _ :: _ => None
      end
  end.

(** The first match, searched from every start index in turn: the text
    before the match, the capture and the text after the match. *)
Fixpoint exec_from (p : t) (at_start : bool) (s : jsstring)
    : option (jsstring * jsstring * jsstring) :=
  match run p at_start false s with
  | Some (cap, rest) => Some ([], cap, rest)
  | None =>
      match s with
      | [] => None
      | c :: s' =>
          '(before, cap, rest) ← exec_from p false s';
          Some (c :: before, cap, rest)
      end
  end.

Definition exec (p : t) (s : jsstring) := exec_from p true s.

(** [p.test(s)] *)
Definition test (p : t) (s : jsstring) : bool :=
  if exec p s is Some _ then true else false.

(** [s.replace(p, $1)] for a pattern without the [g] flag. *)
Definition replace_by_group1 (p : t) (s : jsstring) : jsstring :=
  match exec p s with
  | Some (before, cap, rest) => before ++ cap ++ rest
  | None => s
  end.

(** [s.replace(p, repl)] for a pattern with the [g] flag and a
    replacement text without [$]. The fuel is the number of start
    positions still to visit. *)
Fixpoint replace_global_from (fuel : nat) (p : t) (repl : jsstring)
    (at_start : bool) (s : jsstring) : jsstring :=
  match fuel with
  | 0 => s
  | S fuel' =>
      match run p at_start false s with
      | Some (_, rest) =>
          if length rest <? length s
          then repl ++ replace_global_from fuel' p repl false rest
          else match s with
               | [] => repl
               | c :: s' =>
                   repl ++ c :: replace_global_from fuel' p repl false s'
               end
      | None =>
          match s with
          | [] => []
          | c :: s' => c :: replace_global_from fuel' p repl false s'
          end
      end
  end.

Definition replace_global (p : t) (repl s : jsstring) : jsstring :=
  replace_global_from (S (length s)) p repl true s.

End RegExp.

(** ** Constants of [Stylish] *)

Definition ATTRIBUTE_NAME : jsstring := js "stylish".

Definition QUOTES : list codeunit := [SQUOTE; DQUOTE].

(** The expression to match: start of input, an optional quote (single or
    double), the attribute name, an opening parenthesis, group 1 with any
    run of characters that are no line terminators, a closing parenthesis,
    an optional quote, end of input. *)
Definition REGEXP_EXPRESSION : RegExp.t :=
  [RegExp.Bol; RegExp.Opt (RegExp.Class QUOTES)]
  ++ map (fun c => RegExp.One (RegExp.Chr c)) ATTRIBUTE_NAME
  ++ [RegExp.One (RegExp.Chr LPAREN);
      RegExp.GroupOpen; RegExp.Star RegExp.Dot; RegExp.GroupClose;
      RegExp.One (RegExp.Chr RPAREN);
      RegExp.Opt (RegExp.Class QUOTES); RegExp.Eol].

(** Find escaped quotes (flag g): a backslash, then a single or a double
    quote. *)
Definition REGEXP_ESCAPED_QUOTES : RegExp.t :=
  [RegExp.One (RegExp.Chr BACKSLASH); RegExp.One (RegExp.Class QUOTES)].

Definition QUERY_SELECTOR : jsstring := js "*[" ++ ATTRIBUTE_NAME ++ js "]".

(** ** The expression extractor *)

(** The unescape step: every match of [REGEXP_ESCAPED_QUOTES] becomes one
    double quote. *)
Definition unescape_quotes (s : jsstring) : jsstring :=
  RegExp.replace_global REGEXP_ESCAPED_QUOTES [DQUOTE] s.

Definition _extractArgumentString (content : jsstring) : jsstring :=
  if (length ATTRIBUTE_NAME <? length content)
     && RegExp.test REGEXP_EXPRESSION content
  then trim (unescape_quotes
               (RegExp.replace_by_group1 REGEXP_EXPRESSION content))
  else [].

(** ** Values decoded from JSON

    What [JSON.parse] returns. A number keeps its lexeme; the properties
    of an object are listed in property enumeration order. [undefined]
    is [None] at type [option json]. *)

Inductive json :=
| JNull
| JBool (b : bool)
| JNum (lexeme : jsstring)
| JStr (s : jsstring)
| JArr (items : list json)
| JObj (props : list (jsstring * json)).

Inductive js_type := TyUndefined | TyObject | TyBoolean | TyNumber | TyString.

Definition typeof (v : option json) : js_type :=
  match v with
  | None => TyUndefined
  | Some (JBool _) => TyBoolean
  | Some (JNum _) => TyNumber
  | Some (JStr _) => TyString
  | Some JNull | Some (JArr _) | Some (JObj _) => TyObject
  end.

Definition typeof_object (v : option json) : bool :=
  if typeof v is TyObject then true else false.

Definition isArray (v : option json) : option (list json) :=
  if v is Some (JArr items) then Some items else None.

Fixpoint digits_of (fuel : nat) (n : N) (acc : jsstring) : jsstring :=
  match fuel with
  | 0 => acc
  | S fuel' =>
      let acc' := (48 + n mod 10)%N :: acc in
      if (n <? 10)%N then acc' else digits_of fuel' (n / 10)%N acc'
  end.

(** The property name of the array index [i]: its decimal numeral. *)
Definition index_key (i : nat) : jsstring :=
  digits_of (S i) (N.of_nat i) [].

(** The own enumerable properties of a value, in enumeration order. *)
Definition entries (v : json) : list (jsstring * json) :=
  match v with
  | JObj props => props
  | JArr items => imap (fun i x => (index_key i, x)) items
  | _ => []
  end.

Definition own_keys (v : json) : list jsstring := (entries v).*1.

Fixpoint assoc (k : jsstring) (l : list (jsstring * json)) : option json :=
  match l with
  | [] => None
  | (k', v) :: l' => if bool_decide (k' = k) then Some v else assoc k l'
  end.

(** [v[k]] for a value that is neither [null] nor [undefined], and a key
    that no prototype defines. *)
Definition own_prop (v : json) (k : jsstring) : option json :=
  assoc k (entries v).

Fixpoint json_eqb (a b : json) {struct a} : bool :=
  match a, b with
  | JNull, JNull => true
  | JBool x, JBool y => bool_decide (x = y)
  | JNum x, JNum y => bool_decide (x = y)
  | JStr x, JStr y => bool_decide (x = y)
  | JArr xs, JArr ys =>
      (fix all2 (xs ys : list json) {struct xs} : bool :=
         match xs, ys with
         | [], [] => true
         | x :: xs', y :: ys' => json_eqb x y && all2 xs' ys'
         | _, _ => false
         end) xs ys
  | JObj xs, JObj ys =>
      (fix all2 (xs ys : list (jsstring * json)) {struct xs} : bool :=
         match xs, ys with
         | [], [] => true
         | (k, x) :: xs', (l, y) :: ys' =>
             bool_decide (k = l) && json_eqb x y && all2 xs' ys'
         | _, _ => false
         end) xs ys
  | _, _ => false
  end.

Definition option_json_eqb (a b : option json) : bool :=
  match a, b with
  | None, None => true
  | Some x, Some y => json_eqb x y
  | _, _ => false
  end.

(** ** The page *)

Abbreviation node := nat (only parsing).

(** A stylesheet or a rule of the CSSOM. [style] is the [content] of the
    declaration block, for the objects that have one; [cssRules] the
    nested rules, for the objects that have some. *)
Inductive cssObject := CssObject {
  isCSSStyleRule : bool;
  selectorText : jsstring;
  style : option jsstring;
  cssRules : option (list cssObject)
}.

(** What the engine handles as style provider and as affected node. *)
Inductive object :=
| Element (n : node)
| Rule (r : cssObject).

Record event := Event {
  ev_type : jsstring;
  ev_target : object
}.

(** The identity of a trigger function. *)
Inductive trigger :=
| TriggerOn
| TriggerData
| TriggerOnTracked
| TriggerCustom (id : nat).

#[global] Instance trigger_eq_dec : EqDecision trigger.
Proof. solve_decision. Defined.

(** A registration [{ trigger, fn }]; [fn] is the identity of the
    callback. *)
Record handler := Handler {
  h_trigger : trigger;
  h_fn : nat
}.

Inductive payload :=
| PayloadEvent (e : event)
| PayloadData (data : json).

(** The closure [EVENT_HANDLER] that one call of the [on] trigger creates:
    its identity, the two variables it captures and the trigger it reports
    to the handlers. *)
Record listener_fn := ListenerFn {
  fn_id : nat;
  fn_mode : jsstring;
  fn_nodes : list object;
  fn_trigger : trigger
}.

(** An entry of the event listener list of a node. The event type and the
    capture argument are kept as the values the trigger passes. *)
Record listener := Listener {
  l_type : json;
  l_fn : listener_fn;
  l_capture : option json
}.

Definition same_listener (a b : listener) : bool :=
  json_eqb (l_type a) (l_type b)
  && bool_decide (fn_id (l_fn a) = fn_id (l_fn b))
  && option_json_eqb (l_capture a) (l_capture b).

(** The calls of registered functions, in the order they happen. *)
Inductive call :=
| CallTrigger (t : trigger) (nodes : list object) (args : json) (sp : object)
| CallHandler (fn : nat) (nodes : list object) (p : payload).

Inductive site := InProcessStyleProvider | InProcessTrigger.

(** The two DOMExceptions of the [dataset] setter. *)
Inductive dom_error := DomSyntaxError | InvalidCharacterError.

(** What is thrown: the errors of the language and of the host, the
    [Error] that the engine builds around a cause, and what a function of
    the page throws, which is [null] or [undefined] ([Nullish]) or
    another value ([Thrown]). *)
Inductive exn :=
| TypeError
| SyntaxError
| DOMException (name : dom_error)
| Nullish
| Thrown (id : nat)
| Error (s : site) (label : option jsstring) (cause : exn).

(** What a [catch] block of the engine throws: it builds the message of
    a new [Error] from [e.message] and [e.code], which is a TypeError
    when [e] is [null] or [undefined]. *)
Definition caught (s : site) (label : option jsstring) (e : exn) : exn :=
  if e is Nullish then TypeError else Error s label e.

(** The engine instance and the mutable part of the page. [_triggers]
    and [_handlers] are the contents of the arrays that the two fields of
    the instance hold. The engine never assigns [_triggers]; it assigns
    [_handlers] a new array in [removeTrigger], and [retired] keeps the
    arrays that the field held before, oldest first, as a loop that
    started on one of them still reads it: the identity of the array in
    the field is the number of retired ones. [datasets] has the data
    attributes as the strings that the host stores. [trace] and
    [processed] are ghost: the calls of registered functions and the
    providers handed to [_processStyleProvider], in order. *)
Record state := State {
  _triggers : list trigger;
  _handlers : list handler;
  datasets : gmap nat (gmap (list N) (list N));
  listeners : gmap nat (list listener);
  next_fn : nat;
  _currHandler : option listener_fn;
  _prevHandler : option listener_fn;
  trace : list call;
  processed : list object;
  retired : list (list handler)
}.

Definition set_triggers (f : list trigger -> list trigger) (st : state) :=
  State (f (_triggers st)) (_handlers st) (datasets st) (listeners st)
    (next_fn st) (_currHandler st) (_prevHandler st) (trace st) (processed st)
    (retired st).

Definition set_handlers (f : list handler -> list handler) (st : state) :=
  State (_triggers st) (f (_handlers st)) (datasets st) (listeners st)
    (next_fn st) (_currHandler st) (_prevHandler st) (trace st) (processed st)
    (retired st).

Definition set_datasets
    (f : gmap nat (gmap (list N) (list N))
         -> gmap nat (gmap (list N) (list N))) (st : state) :=
  State (_triggers st) (_handlers st) (f (datasets st)) (listeners st)
    (next_fn st) (_currHandler st) (_prevHandler st) (trace st) (processed st)
    (retired st).

Definition set_listeners
    (f : gmap nat (list listener) -> gmap nat (list listener)) (st : state) :=
  State (_triggers st) (_handlers st) (datasets st) (f (listeners st))
    (next_fn st) (_currHandler st) (_prevHandler st) (trace st) (processed st)
    (retired st).

Definition set_next_fn (n : nat) (st : state) :=
  State (_triggers st) (_handlers st) (datasets st) (listeners st)
    n (_currHandler st) (_prevHandler st) (trace st) (processed st)
    (retired st).

Definition set_tracked (curr prev : option listener_fn) (st : state) :=
  State (_triggers st) (_handlers st) (datasets st) (listeners st)
    (next_fn st) curr prev (trace st) (processed st)
    (retired st).

Definition set_trace (f : list call -> list call) (st : state) :=
  State (_triggers st) (_handlers st) (datasets st) (listeners st)
    (next_fn st) (_currHandler st) (_prevHandler st) (f (trace st))
    (processed st) (retired st).

Definition set_processed (f : list object -> list object) (st : state) :=
  State (_triggers st) (_handlers st) (datasets st) (listeners st)
    (next_fn st) (_currHandler st) (_prevHandler st) (trace st)
    (f (processed st)) (retired st).

(** [this._handlers = f(this._handlers)], where [f] makes a new array:
    the array that the field held is retired. *)
Definition assign_handlers (f : list handler -> list handler) (st : state) :=
  State (_triggers st) (f (_handlers st)) (datasets st) (listeners st)
    (next_fn st) (_currHandler st) (_prevHandler st) (trace st)
    (processed st) (retired st ++ [_handlers st]).

(** The identity of the array that [this._handlers] holds, and the
    contents of the array with the identity [array]. *)
Definition handlers_array (st : state) : nat := length (retired st).

Definition handlers_of (array : nat) (st : state) : list handler :=
  if bool_decide (array = handlers_array st) then _handlers st
  else default [] (retired st !! array).

(** [new Stylish()] on a fresh page. *)
Definition Stylish : state := State [] [] ∅ ∅ 0 None None [] [] [].

(** ** Computations: state and exceptions *)

Definition M (A : Type) : Type := state -> (exn + A) * state.

Definition ret {A} (a : A) : M A := fun st => (inr a, st).
Definition throw {A} (e : exn) : M A := fun st => (inl e, st).

Definition bind {A B} (k : A -> M B) (m : M A) : M B :=
  fun st =>
    match m st with
    | (inr a, st') => k a st'
    | (inl e, st') => (inl e, st')
    end.

#[global] Instance M_ret : MRet M := @ret.
#[global] Instance M_bind : MBind M := @bind.

Definition gets {A} (f : state -> A) : M A := fun st => (inr (f st), st).
Definition modify (f : state -> state) : M unit := fun st => (inr tt, f st).

(** [try { m } catch (e) { h e }] *)
Definition try_catch {A} (m : M A) (h : exn -> M A) : M A :=
  fun st =>
    match m st with
    | (inr a, st') => (inr a, st')
    | (inl e, st') => h e st'
    end.

(** [l.forEach(f)], and the [for] loops that visit a list in order. *)
Fixpoint forEach {A} (l : list A) (f : A -> M unit) : M unit :=
  match l with
  | [] => ret tt
  | x :: l' => f x ;; forEach l' f
  end.

(** [array.forEach(f)] on an array that [f] may change, as
    [Array.prototype.forEach] does it: the length is read once, the
    element at an index when the index is reached, and an index past the
    end of the array is skipped. [array] reads the contents of the array
    in the current state. *)
Fixpoint forEach_from {A} (array : state -> list A) (f : A -> M unit)
    (index count : nat) : M unit :=
  match count with
  | 0 => ret tt
  | S count' =>
      l ← gets array;
      (if l !! index is Some x then f x else ret tt) ;;
      forEach_from array f (S index) count'
  end.

Definition forEach_array {A} (array : state -> list A) (f : A -> M unit)
    : M unit :=
  l ← gets array;
  forEach_from array f 0 (length l).

Definition log (c : call) : M unit :=
  modify (set_trace (fun t => t ++ [c])).

(** ** The host

    The JSON decoder ([None] for a SyntaxError), the selector engine (it
    sees the data attributes written so far), the fixed part of the
    elements, the two decisions of the [dataset] setter that depend on
    the host (whether a text is a valid attribute name, and the string
    that a value is converted to), and the functions that the page
    registers: [handler_fn fn] is the body of the callback with the
    identity [fn], [trigger_fn id] the body of the trigger
    [TriggerCustom id]. *)
Record host := Host {
  JSON_parse : jsstring -> option json;
  querySelectorAll :
    gmap nat (gmap (list N) (list N)) -> jsstring -> list node;
  localName : node -> jsstring;
  style_content : node -> jsstring;
  sheet : node -> option cssObject;
  valid_attribute_name : jsstring -> bool;
  DOMString_of : option json -> jsstring;
  handler_fn : nat -> list object -> payload -> M unit;
  trigger_fn : nat -> list object -> json -> object -> M unit
}.

(** ** The engine *)

Section Engine.

Variable h : host.

(** *** Host operations on the affected nodes *)

(** The listener lists after [n.addEventListener(...)] with the entry
    [l]: the entry is appended unless the same one is there. *)
Definition add_listener (n : node) (l : listener)
    (ls : gmap nat (list listener)) : gmap nat (list listener) :=
  let old := default [] (ls !! n) in
  if existsb (same_listener l) old then ls else <[n := old ++ [l]]> ls.

(** The listener lists after [n.removeEventListener(...)] of the entry
    [l]. *)
Definition remove_listener (n : node) (l : listener)
    (ls : gmap nat (list listener)) : gmap nat (list listener) :=
  match ls !! n with
  | Some old =>
      <[n := List.filter (fun x => negb (same_listener l x)) old]> ls
  | None => ls
  end.

(** [node.addEventListener(type, fn, capture)]; a rule object has no such
    method. *)
Definition addEventListener (target : object) (type : json)
    (fn : listener_fn) (capture : option json) : M unit :=
  match target with
  | Element n =>
      modify (set_listeners (add_listener n (Listener type fn capture)))
  | Rule _ => throw TypeError
  end.

(** [node.removeEventListener(type, fn)] *)
Definition removeEventListener (target : object) (type : json)
    (fn : listener_fn) : M unit :=
  match target with
  | Element n =>
      modify (set_listeners (remove_listener n (Listener type fn None)))
  | Rule _ => throw TypeError
  end.

(** The datasets after the attribute behind [n.dataset[name]] is set to
    the string [value]. *)
Definition write_dataset (n : node) (name : jsstring) (value : jsstring)
    (ds : gmap nat (gmap (list N) (list N)))
    : gmap nat (gmap (list N) (list N)) :=
  <[n := <[name := value]> (default ∅ (ds !! n))]> ds.

Definition is_upper_alpha (c : codeunit) : bool := (65 <=? c)%N && (c <=? 90)%N.
Definition is_lower_alpha (c : codeunit) : bool := (97 <=? c)%N && (c <=? 122)%N.

(** [name] has a hyphen that an ASCII lower-case letter follows. *)
Fixpoint hyphen_before_lower (name : jsstring) : bool :=
  match name with
  | [] => false
  | c :: rest =>
      ((c =? 45)%N && (if rest is d :: _ then is_lower_alpha d else false))
      || hyphen_before_lower rest
  end.

(** A hyphen before every ASCII upper-case letter, and the letter in lower
    case. *)
Fixpoint hyphenate (name : jsstring) : jsstring :=
  match name with
  | [] => []
  | c :: rest =>
      if is_upper_alpha c then 45%N :: (c + 32)%N :: hyphenate rest
      else c :: hyphenate rest
  end.

(** The name of the attribute behind [dataset[name]]. *)
Definition attribute_of (name : jsstring) : jsstring :=
  js "data-" ++ hyphenate name.

(** The name is one that the [dataset] setter takes. *)
Definition dataset_name (name : jsstring) : bool :=
  negb (hyphen_before_lower name)
  && valid_attribute_name h (attribute_of name).

(** [node.dataset[name] = value]. A rule object has no dataset. On an
    element the setter of the host converts the value to a string, throws
    a SyntaxError DOMException for a name with a hyphen before a lower-case
    letter and an InvalidCharacterError DOMException when the attribute
    name is not valid, and else sets the attribute. *)
Definition dataset_set (target : object) (name : jsstring)
    (value : option json) : M unit :=
  match target with
  | Element n =>
      if hyphen_before_lower name then throw (DOMException DomSyntaxError)
      else if negb (valid_attribute_name h (attribute_of name))
      then throw (DOMException InvalidCharacterError)
      else modify (set_datasets (write_dataset n name (DOMString_of h value)))
  | Rule _ => throw TypeError
  end.

(** [value.key] and the destructuring [{ key }] of [value]: a TypeError
    on [null]. *)
Definition member (value : json) (key : jsstring) : M (option json) :=
  match value with
  | JNull => throw TypeError
  | _ => ret (own_prop value key)
  end.

(** [styleProvider.selectorText || styleProvider.localName] *)
Definition label (sp : object) : option jsstring :=
  match sp with
  | Element n => Some (localName h n)
  | Rule r => if selectorText r is [] then None else Some (selectorText r)
  end.

(** *** Handlers *)

(** [handler.fn(nodes, payload)]: the call is recorded, then the body of
    the callback runs. *)
Definition call_handler (fn : nat) (nodes : list object) (p : payload)
    : M unit :=
  log (CallHandler fn nodes p) ;;
  handler_fn h fn nodes p.

(** [this._handlers.forEach(...)] runs on the array that the field holds
    when the dispatch starts. *)
Definition _processHandler (nodes : list object) (p : payload)
    (t : trigger) : M unit :=
  array ← gets handlers_array;
  forEach_array (handlers_of array) (fun handler =>
    if bool_decide (t = h_trigger handler)
    then call_handler (h_fn handler) nodes p
    else ret tt).

(** *** The built-in triggers *)

Definition MODES : list jsstring := [js "local"; js "global"].

(** [(MODES.indexOf(on.mode) > -1) ? on.mode : 'local'] *)
Definition mode_of (mode : option json) : jsstring :=
  match mode with
  | Some (JStr m) => if bool_decide (m ∈ MODES) then m else js "local"
  | _ => js "local"
  end.

(** The body of the closure [EVENT_HANDLER]. *)
Definition EVENT_HANDLER (fn : listener_fn) (e : event) : M unit :=
  _processHandler
    (if bool_decide (fn_mode fn = js "local")
     then [ev_target e] else fn_nodes fn)
    (PayloadEvent e)
    (fn_trigger fn).

Definition new_listener_fn (mode : jsstring) (nodes : list object)
    (t : trigger) : M listener_fn :=
  id ← gets next_fn;
  modify (set_next_fn (S id)) ;;
  ret (ListenerFn id mode nodes t).

Definition triggerOn (nodes : list object) (args : json) (sp : object)
    : M unit :=
  on ← member args (js "on");
  if negb (0 <? length nodes) then ret tt else
  if negb (typeof_object on) then ret tt else
  events ← member (default JNull on) (js "events");
  match isArray events with
  | None => ret tt
  | Some events =>
      let on := default JNull on in
      let MODE := mode_of (own_prop on (js "mode")) in
      fn ← new_listener_fn MODE nodes TriggerOn;
      forEach events (fun event =>
        forEach nodes (fun node =>
          addEventListener node event fn (own_prop on (js "capture"))))
  end.

(** [data.hasOwnProperty(name)]: the method is the inherited one unless
    [data] has an own property of that name, which no JSON value can
    make callable. *)
Definition hasOwnProperty (data : json) (name : jsstring) : M bool :=
  match own_prop data (js "hasOwnProperty") with
  | Some _ => throw TypeError
  | None => ret (bool_decide (name ∈ own_keys data))
  end.

Definition triggerData (nodes : list object) (args : json) (sp : object)
    : M unit :=
  data ← member args (js "data");
  if negb (0 <? length nodes) then ret tt else
  if negb (typeof_object data) then ret tt else
  let data := default JNull data in
  forEach (own_keys data) (fun name =>
    own ← hasOwnProperty data name;
    if own : bool then
      forEach nodes (fun node =>
        dataset_set node name (own_prop data name)) ;;
      _processHandler nodes (PayloadData data) TriggerData
    else ret tt).

(** The [on] trigger of the IIFE draft of version 0.1.1, which keeps the
    last two closures in [_currHandler] and [_prevHandler]. *)
Definition triggerOn_tracked (nodes : list object) (args : json)
    (sp : object) : M unit :=
  if length nodes =? 0 then ret tt else
  on ← member args (js "on");
  if negb (typeof_object on) then ret tt else
  events ← member (default JNull on) (js "events");
  match isArray events with
  | None => ret tt
  | Some events =>
      let on := default JNull on in
      let mode := mode_of (own_prop on (js "mode")) in
      curr ← gets _currHandler;
      fn ← new_listener_fn mode nodes TriggerOnTracked;
      modify (set_tracked (Some fn) curr) ;;
      forEach events (fun event =>
        forEach nodes (fun node =>
          (if curr is Some prev
           then removeEventListener node event prev
           else ret tt) ;;
          addEventListener node event fn None))
  end.

(** [trigger.call(this, nodes, args, styleProvider)]: the call is
    recorded, then the trigger runs. *)
Definition call_trigger (t : trigger) (nodes : list object) (args : json)
    (sp : object) : M unit :=
  log (CallTrigger t nodes args sp) ;;
  match t with
  | TriggerOn => triggerOn nodes args sp
  | TriggerData => triggerData nodes args sp
  | TriggerOnTracked => triggerOn_tracked nodes args sp
  | TriggerCustom id => trigger_fn h id nodes args sp
  end.

(** *** Processing *)

Definition _processTrigger (nodes : list object) (args : json)
    (sp : object) : M unit :=
  forEach_array _triggers (fun t =>
    try_catch (call_trigger t nodes args sp)
      (fun e => throw (caught InProcessTrigger (label sp) e))).

(** [styleProvider.style.content] *)
Definition style_content_of (sp : object) : M jsstring :=
  match sp with
  | Element n => ret (style_content h n)
  | Rule r => if style r is Some c then ret c else throw TypeError
  end.

(** The affected nodes: the elements that match the selector when
    [styleProvider instanceof CSSStyleRule], else the provider itself. *)
Definition affected_nodes (sp : object) : M (list object) :=
  match sp with
  | Rule r =>
      if isCSSStyleRule r
      then gets (fun st =>
             Element <$> querySelectorAll h (datasets st) (selectorText r))
      else ret [sp]
  | Element _ => ret [sp]
  end.

Definition _processStyleProvider (sp : object) : M unit :=
  modify (set_processed (fun ps => ps ++ [sp])) ;;
  content ← style_content_of sp;
  let arg := _extractArgumentString content in
  if 0 <? length arg then
    args ← match JSON_parse h arg with
            | Some v => ret v
            | None =>
                throw (Error InProcessStyleProvider (label sp) SyntaxError)
            end;
    nodes ← affected_nodes sp;
    _processTrigger nodes args sp
  else ret tt.

(** The [for] loop of [_processStyleObject] over the rules of an object;
    [walk] is the function itself. *)
Definition for_rules (walk : cssObject -> M unit)
    : list cssObject -> M unit :=
  fix loop (rules : list cssObject) : M unit :=
    match rules with
    | [] => ret tt
    | rule :: rest =>
        walk rule ;;
        _processStyleProvider (Rule rule) ;;
        loop rest
    end.

Fixpoint _processStyleObject (styleObject : cssObject) : M unit :=
  match styleObject with
  | CssObject _ _ _ (Some rules) => for_rules _processStyleObject rules
  | CssObject _ _ _ None => ret tt
  end.

Definition process_node (n : node) : M unit :=
  if bool_decide (localName h n ∈ [js "link"; js "style"]) then
    match sheet h n with
    | Some s => _processStyleObject s
    | None => throw TypeError
    end
  else _processStyleProvider (Element n).

Definition process : M unit :=
  nodes ← gets (fun st => querySelectorAll h (datasets st) QUERY_SELECTOR);
  forEach nodes process_node.

(** *** Registration *)

Definition addTrigger (t : trigger) : M unit :=
  modify (set_triggers (fun ts => ts ++ [t])).

(** [array.indexOf(x)] *)
Fixpoint indexOf {A} `{EqDecision A} (x : A) (l : list A) : option nat :=
  match l with
  | [] => None
  | y :: l' => if bool_decide (y = x) then Some 0 else S <$> indexOf x l'
  end.

Definition removeTrigger (t : trigger) : M unit :=
  triggers ← gets _triggers;
  match indexOf t triggers with
  | Some index =>
      modify (set_triggers (delete index)) ;;
      modify (assign_handlers (filter (fun handler => h_trigger handler = t)))
  | None => ret tt
  end.

Definition addHandler (t : trigger) (fn : nat) : M unit :=
  modify (set_handlers (fun hs => hs ++ [Handler t fn])).

(** The loop of [removeHandler] from [index] on; [fuel] bounds the
    number of iterations. *)
Fixpoint removeHandler_from (fuel index : nat) (t : trigger) (fn : nat)
    (handlers : list handler) : list handler :=
  match fuel with
  | 0 => handlers
  | S fuel' =>
      if index <? length handlers then
        match handlers !! index with
        | Some handler =>
            if bool_decide (h_trigger handler = t)
               && bool_decide (h_fn handler = fn)
            then removeHandler_from fuel' (S index) t fn
                   (delete index handlers)
            else removeHandler_from fuel' (S index) t fn handlers
        | None => handlers
        end
      else handlers
  end.

Definition removeHandler (t : trigger) (fn : nat) : M unit :=
  modify (set_handlers (fun hs =>
    removeHandler_from (length hs) 0 t fn hs)).

(** *** The host delivers an event

    The listeners of the target for the event type run in the order
    they were added: the host goes through a copy of the list made when
    the delivery starts and leaves out an entry that has been removed in
    the meantime. The listeners of other nodes on the propagation path
    are not part of the model. *)
Definition listens_to (type : jsstring) (l : listener) : bool :=
  if l_type l is JStr t then bool_decide (t = type) else false.

Definition dispatchEvent (target : node) (type : jsstring) : M unit :=
  ls ← gets (fun st => default [] (listeners st !! target));
  forEach (List.filter (listens_to type) ls) (fun l =>
    now ← gets (fun st => default [] (listeners st !! target));
    if existsb (same_listener l) now
    then EVENT_HANDLER (l_fn l) (Event type (Element target))
    else ret tt).

End Engine.

(** ** A JSON decoder

    It stands for the [JSON.parse] of the host where a closed example
    needs one: the JSON grammar, numbers kept as lexemes, object
    properties defined in the order of ECMAScript (array indices first,
    ascending; a repeated name keeps its place and takes the last value). *)
Module JSON.

Definition is_ws (c : codeunit) : bool :=
  (c =? 9)%N || (c =? 10)%N || (c =? 13)%N || (c =? 32)%N.

Definition is_digit (c : codeunit) : bool := (48 <=? c)%N && (c <=? 57)%N.

Fixpoint skip_ws (s : jsstring) : jsstring :=
  match s with
  | c :: s' => if is_ws c then skip_ws s' else s
  | [] => []
  end.

Fixpoint digits (s : jsstring) : jsstring * jsstring :=
  match s with
  | c :: s' =>
      if is_digit c then let '(d, r) := digits s' in (c :: d, r)
      else ([], s)
  | [] => ([], [])
  end.

Definition hex_value (c : codeunit) : option N :=
  if is_digit c then Some (c - 48)%N
  else if (97 <=? c)%N && (c <=? 102)%N then Some (c - 87)%N
  else if (65 <=? c)%N && (c <=? 70)%N then Some (c - 55)%N
  else None.

Definition simple_escape (c : codeunit) : option codeunit :=
  if (c =? 34)%N then Some 34%N
  else if (c =? 92)%N then Some 92%N
  else if (c =? 47)%N then Some 47%N
  else if (c =? 98)%N then Some 8%N
  else if (c =? 102)%N then Some 12%N
  else if (c =? 110)%N then Some 10%N
  else if (c =? 114)%N then Some 13%N
  else if (c =? 116)%N then Some 9%N
  else None.

(** The characters of a string literal after its opening quote. *)
Fixpoint string_body (s : jsstring) : option (jsstring * jsstring) :=
  match s with
  | [] => None
  | c :: s1 =>
      if (c =? 34)%N then Some ([], s1)
      else if (c =? 92)%N then
        match s1 with
        | 117%N :: a :: b :: c' :: d :: s5 =>
            x1 ← hex_value a; x2 ← hex_value b;
            x3 ← hex_value c'; x4 ← hex_value d;
            '(str, rest) ← string_body s5;
            Some ((((x1 * 16 + x2) * 16 + x3) * 16 + x4)%N :: str, rest)
        | e :: s2 =>
            u ← simple_escape e;
            '(str, rest) ← string_body s2;
            Some (u :: str, rest)
        | [] => None
        end
      else if (c <? 32)%N then None
      else '(str, rest) ← string_body s1; Some (c :: str, rest)
  end.

(** A number: its lexeme and the text after it. *)
Definition number (s : jsstring) : option (jsstring * jsstring) :=
  let '(sign, s1) :=
    match s with 45%N :: s' => ([45%N], s') | _ => ([], s) end in
  let '(int, s2) := digits s1 in
  match int with
  | [] => None
  | 48%N :: _ :: _ => None
  | _ =>
      '(frac, s3) ←
        match s2 with
        | 46%N :: s' =>
            let '(d, r) := digits s' in
            if d is [] then None else Some (46%N :: d, r)
        | _ => Some ([], s2)
        end;
      '(exp, s4) ←
        match s3 with
        | e :: s' =>
            if (e =? 101)%N || (e =? 69)%N then
              let '(sg, s'') :=
                match s' with
                | g :: t =>
                    if (g =? 43)%N || (g =? 45)%N then ([g], t) else ([], s')
                | [] => ([], s')
                end in
              let '(d, r) := digits s'' in
              if d is [] then None else Some (e :: sg ++ d, r)
            else Some ([], s3)
        | [] => Some ([], s3)
        end;
      Some (sign ++ int ++ frac ++ exp, s4)
  end.

(** The array index that a property name denotes, if any. *)
Definition array_index (k : jsstring) : option N :=
  match k with
  | [] => None
  | [48%N] => Some 0%N
  | c :: _ =>
      if (49 <=? c)%N && forallb is_digit k && (length k <=? 10) then
        let n := fold_left (fun acc d => (acc * 10 + (d - 48))%N) k 0%N in
        if (n <? 4294967295)%N then Some n else None
      else None
  end.

Fixpoint insert_new (k : jsstring) (v : json)
    (props : list (jsstring * json)) : list (jsstring * json) :=
  match props with
  | [] => [(k, v)]
  | (k', v') :: rest =>
      match array_index k, array_index k' with
      | Some i, Some i' =>
          if (i <? i')%N then (k, v) :: props
          else (k', v') :: insert_new k v rest
      | Some _, None => (k, v) :: props
      | None, _ => (k', v') :: insert_new k v rest
      end
  end.

Fixpoint replace_value (k : jsstring) (v : json)
    (props : list (jsstring * json)) : list (jsstring * json) :=
  match props with
  | [] => []
  | (k', v') :: rest =>
      if bool_decide (k' = k) then (k, v) :: rest
      else (k', v') :: replace_value k v rest
  end.

Definition define_prop (k : jsstring) (v : json)
    (props : list (jsstring * json)) : list (jsstring * json) :=
  if assoc k props is Some _ then replace_value k v props
  else insert_new k v props.

Fixpoint value (fuel : nat) (s : jsstring) : option (json * jsstring) :=
  match fuel with
  | 0 => None
  | S fuel' =>
      match skip_ws s with
      | [] => None
      | c :: s1 =>
          if (c =? 123)%N then
            match skip_ws s1 with
            | 125%N :: s2 => Some (JObj [], s2)
            | _ => members fuel' [] s1
            end
          else if (c =? 91)%N then
            match skip_ws s1 with
            | 93%N :: s2 => Some (JArr [], s2)
            | _ => elements fuel' [] s1
            end
          else if (c =? 34)%N then
            '(str, rest) ← string_body s1; Some (JStr str, rest)
          else if (c =? 116)%N then
            rest ← strip_prefix (js "rue") s1; Some (JBool true, rest)
          else if (c =? 102)%N then
            rest ← strip_prefix (js "alse") s1; Some (JBool false, rest)
          else if (c =? 110)%N then
            rest ← strip_prefix (js "ull") s1; Some (JNull, rest)
          else
            '(lexeme, rest) ← number (c :: s1); Some (JNum lexeme, rest)
      end
  end
with elements (fuel : nat) (acc : list json) (s : jsstring)
    : option (json * jsstring) :=
  match fuel with
  | 0 => None
  | S fuel' =>
      '(v, s1) ← value fuel' s;
      match skip_ws s1 with
      | 44%N :: s2 => elements fuel' (acc ++ [v]) s2
      | 93%N :: s2 => Some (JArr (acc ++ [v]), s2)
      | _ => None
      end
  end
with members (fuel : nat) (acc : list (jsstring * json)) (s : jsstring)
    : option (json * jsstring) :=
  match fuel with
  | 0 => None
  | S fuel' =>
      match skip_ws s with
      | 34%N :: s1 =>
          '(k, s2) ← string_body s1;
          match skip_ws s2 with
          | 58%N :: s3 =>
              '(v, s4) ← value fuel' s3;
              match skip_ws s4 with
              | 44%N :: s5 => members fuel' (define_prop k v acc) s5
              | 125%N :: s5 => Some (JObj (define_prop k v acc), s5)
              | _ => None
              end
          | _ => None
          end
      | _ => None
      end
  end.

Definition parse (text : jsstring) : option json :=
  '(v, rest) ← value (2 * length text + 2) text;
  if skip_ws rest is [] then Some v else None.

End JSON.

(** ** The string of a number

    [Number.prototype.toString] on the value of a JSON number, for the
    closed examples: the lexeme is read as an exact fraction, rounded to
    the nearest double (ties to even), and the double is written with the
    least number of digits that read back as the same double. *)
Module Number.

Local Open Scope Z_scope.

Definition decimal (ds : jsstring) : Z :=
  fold_left (fun acc d => acc * 10 + (Z.of_N d - 48)) ds 0.

Fixpoint strip_zeros (ds : jsstring) : jsstring :=
  match ds with
  | 48%N :: ds' => strip_zeros ds'
  | _ => ds
  end.

(** The parts of a lexeme: the sign, the digits before and after the
    point, the exponent. *)
Definition parts (lexeme : jsstring) : bool * jsstring * jsstring * Z :=
  let '(neg, s1) :=
    match lexeme with 45%N :: s' => (true, s') | _ => (false, lexeme) end in
  let '(int, s2) := JSON.digits s1 in
  let '(frac, s3) :=
    match s2 with 46%N :: s' => JSON.digits s' | _ => ([], s2) end in
  let exp :=
    match s3 with
    | _ :: 45%N :: ds => - decimal ds
    | _ :: 43%N :: ds => decimal ds
    | _ :: ds => decimal ds
    | [] => 0
    end in
  (neg, int, frac, exp).

(** The fraction [num / den] times a power of two or of ten. *)
Definition times_pow (base : Z) (num den k : Z) : Z * Z :=
  if 0 <=? k then (num * base ^ k, den) else (num, den * base ^ (- k)).

Definition round_half_even (num den : Z) : Z :=
  let q := num / den in
  let r := num mod den in
  if 2 * r <? den then q
  else if den <? 2 * r then q + 1
  else if Z.even q then q else q + 1.

(** The double nearest to the positive fraction [num / den], as a
    significand below [2 ^ 53] and an exponent of two from [-1074] on;
    [None] when the fraction rounds to infinity. *)
Definition to_double (num den : Z) : option (Z * Z) :=
  let e0 := Z.log2 num - Z.log2 den - 52 in
  let '(n0, d0) := times_pow 2 num den (- e0) in
  let e1 := if n0 <? d0 * 2 ^ 52 then e0 - 1 else e0 in
  let e := Z.max e1 (-1074) in
  let '(n, d) := times_pow 2 num den (- e) in
  let q := round_half_even n d in
  let '(q, e) := if q =? 2 ^ 53 then (2 ^ 52, e + 1) else (q, e) in
  if 971 <? e then None else Some (q, e).

(** The least [n] from [c] on with [num / den < 10 ^ n]. *)
Fixpoint magnitude (fuel : nat) (num den c : Z) : Z :=
  match fuel with
  | O => c
  | S fuel' =>
      let '(a, b) := times_pow 10 num den (- c) in
      if a <? b then c else magnitude fuel' num den (c + 1)
  end.

(** The integer [s] of [k] digits and the [n] with [s * 10 ^ (n - k)]
    nearest to the double among those that round to it, if there is
    one. *)
Definition candidate (q e n k : Z) : option (Z * Z) :=
  let '(num, den) := times_pow 2 q 1 e in
  let '(a, b) := times_pow 10 num den (k - n) in
  let lo := a / b in
  let hi := lo + 1 in
  let reads s :=
    let '(x, y) := times_pow 10 s 1 (n - k) in
    if to_double x y is Some (q', e') then (q' =? q) && (e' =? e) else false in
  let lower_first :=
    let r := a mod b in
    if 2 * r <? b then true
    else if b <? 2 * r then false
    else Z.even lo in
  let pick s := if s =? 10 ^ k then (10 ^ (k - 1), n + 1) else (s, n) in
  match reads lo, reads hi with
  | true, true => Some (pick (if lower_first then lo else hi))
  | true, false => Some (pick lo)
  | false, true => Some (pick hi)
  | false, false => None
  end.

Fixpoint shortest (fuel : nat) (q e n k : Z) : Z * Z :=
  match fuel with
  | O => (q, 0)
  | S fuel' =>
      match candidate q e n k with
      | Some r => r
      | None => shortest fuel' q e n (k + 1)
      end
  end.

Definition digits_of (s : Z) : jsstring :=
  digits_of (S (Z.to_nat (Z.log2 s))) (Z.to_N s) [].

(** The text of the number with the digits [ds] and the value
    [0.ds * 10 ^ n]. *)
Definition format (ds : jsstring) (n : Z) : jsstring :=
  let k := Z.of_nat (length ds) in
  if (k <=? n) && (n <=? 21) then ds ++ repeat 48%N (Z.to_nat (n - k))
  else if (0 <? n) && (n <=? 21)
  then take (Z.to_nat n) ds ++ 46%N :: drop (Z.to_nat n) ds
  else if (-6 <? n) && (n <=? 0)
  then 48%N :: 46%N :: repeat 48%N (Z.to_nat (- n)) ++ ds
  else
    let e := n - 1 in
    let exponent :=
      101%N :: (if 0 <=? e then 43%N else 45%N) :: digits_of (Z.abs e) in
    match ds with
    | [] => []
    | [d] => d :: exponent
    | d :: rest => d :: 46%N :: rest ++ exponent
    end.

Definition toString (lexeme : jsstring) : jsstring :=
  let '(neg, int, frac, exp) := parts lexeme in
  let sign := if neg : bool then [45%N] else [] in
  let ds := strip_zeros (int ++ frac) in
  let scale := exp - Z.of_nat (length frac) in
  let size := Z.of_nat (length ds) + scale in
  if ds is [] then js "0"
  else if 310 <? size then sign ++ js "Infinity"
  else if size <? -330 then js "0"
  else
    let '(num, den) := times_pow 10 (decimal ds) 1 scale in
    match to_double num den with
    | None => sign ++ js "Infinity"
    | Some (q, e) =>
        if q =? 0 then js "0"
        else
          let '(x, y) := times_pow 2 q 1 e in
          let start := (Z.log2 x - Z.log2 y) * 30103 / 100000 - 1 in
          let n := magnitude 6 x y start in
          let '(s, n') := shortest 17 q e n 1 in
          sign ++ format (digits_of s) n'
    end.

End Number.

(** [ToString] of a decoded value, as the conversion to a DOMString
    applies it; [None] is [undefined]. *)
Fixpoint ToString_value (v : json) : jsstring :=
  match v with
  | JNull => js "null"
  | JBool true => js "true"
  | JBool false => js "false"
  | JNum lexeme => Number.toString lexeme
  | JStr s => s
  | JArr items =>
      (fix join (items : list json) : jsstring :=
         match items with
         | [] => []
         | [x] => if x is JNull then [] else ToString_value x
         | x :: rest =>
             (if x is JNull then [] else ToString_value x)
             ++ 44%N :: join rest
         end) items
  | JObj _ => js "[object Object]"
  end.

Definition ToString (v : option json) : jsstring :=
  if v is Some x then ToString_value x else js "undefined".

(** ** Attribute names

    The production Name of XML, on UTF-16 code units: the names that
    the [dataset] setter accepts in the closed examples. *)
Module XML.

Definition between (lo hi c : codeunit) : bool := (lo <=? c)%N && (c <=? hi)%N.

Definition is_name_start (c : codeunit) : bool :=
  (c =? 58)%N || between 65 90 c || (c =? 95)%N || between 97 122 c
  || between 192 214 c || between 216 246 c || between 248 767 c
  || between 880 893 c || between 895 8191 c || between 8204 8205 c
  || between 8304 8591 c || between 11264 12271 c || between 12289 55295 c
  || between 63744 64975 c || between 65008 65533 c.

Definition is_name_char (c : codeunit) : bool :=
  is_name_start c || (c =? 45)%N || (c =? 46)%N || between 48 57 c
  || (c =? 183)%N || between 768 879 c || between 8255 8256 c.

(** A pair of surrogates for a code point from U+10000 to U+EFFFF. *)
Definition is_name_pair (high low : codeunit) : bool :=
  between 55296 56191 high && between 56320 57343 low.

Fixpoint is_name_rest (s : jsstring) : bool :=
  match s with
  | [] => true
  | c :: s' =>
      if is_name_char c then is_name_rest s'
      else match s' with
           | d :: s'' => is_name_pair c d && is_name_rest s''
           | [] => false
           end
  end.

Definition is_name (s : jsstring) : bool :=
  match s with
  | [] => false
  | c :: s' =>
      if is_name_start c then is_name_rest s'
      else match s' with
           | d :: s'' => is_name_pair c d && is_name_rest s''
           | [] => false
           end
  end.

End XML.

(** ** Closed pages

    A page for the examples: every element of [elements] carries the
    [stylish] attribute, [select] lists the elements that match the
    selector of a rule. *)
Record element := ElementOf {
  e_localName : jsstring;
  e_content : jsstring;
  e_sheet : option cssObject
}.

(** The functions that the page registers do nothing unless an example
    gives them a body with [with_functions]. *)
Definition page (elements : list element) (select : jsstring -> list node)
    : host :=
  {| JSON_parse := JSON.parse;
     querySelectorAll := fun _ selector =>
       if bool_decide (selector = QUERY_SELECTOR)
       then seq 0 (length elements)
       else select selector;
     localName := fun n => default [] (e_localName <$> elements !! n);
     style_content := fun n => default [] (e_content <$> elements !! n);
     sheet := fun n => elements !! n ≫= e_sheet;
     valid_attribute_name := XML.is_name;
     DOMString_of := ToString;
     handler_fn := fun _ _ _ => ret tt;
     trigger_fn := fun _ _ _ _ => ret tt |}.

(** The host [h] with other functions of the page. *)
Definition with_functions (h : host)
    (handlers : nat -> list object -> payload -> M unit)
    (triggers : nat -> list object -> json -> object -> M unit) : host :=
  {| JSON_parse := JSON_parse h;
     querySelectorAll := querySelectorAll h;
     localName := localName h;
     style_content := style_content h;
     sheet := sheet h;
     valid_attribute_name := valid_attribute_name h;
     DOMString_of := DOMString_of h;
     handler_fn := handlers;
     trigger_fn := triggers |}.

Definition div (content : string) : element :=
  ElementOf (js "div") (js content) None.

(** An engine with the given registrations on a fresh page. *)
Definition engine (ts : list trigger) (hs : list handler) : state :=
  State ts hs ∅ ∅ 0 None None [] [] [].

(** ** Other drafts

    The places of the earlier drafts of the engine that differ from the
    functions above. *)

(** [_extractArgument] of the IIFE draft of version 0.1.1: the extractor
    with the length test against zero. *)
Definition _extractArgument (content : jsstring) : jsstring :=
  if (0 <? length content) && RegExp.test REGEXP_EXPRESSION content
  then trim (unescape_quotes
               (RegExp.replace_by_group1 REGEXP_EXPRESSION content))
  else [].

Module Draft010.

(** [array[index]] for an index that the loop computes. *)
Definition at_index {A} (l : list A) (index : Z) : option A :=
  if (index <? 0)%Z then None else l !! Z.to_nat index.

(** The loop of [removeHandler] in the draft of version 0.1.0: the length
    is read once, and a removal is followed by [index--]. Reading the
    fields of an entry that is not there is a TypeError. *)
Fixpoint removeHandler_from (fuel : nat) (index length : Z) (t : trigger)
    (fn : nat) : M unit :=
  match fuel with
  | 0 => ret tt
  | S fuel' =>
      if (index <? length)%Z then
        handlers ← gets _handlers;
        match at_index handlers index with
        | None => throw TypeError
        | Some data =>
            if bool_decide (h_trigger data = t)
               && bool_decide (h_fn data = fn)
            then
              modify (set_handlers (delete (Z.to_nat index))) ;;
              removeHandler_from fuel' (index - 1 + 1)%Z length t fn
            else removeHandler_from fuel' (index + 1)%Z length t fn
        end
      else ret tt
  end.

Definition removeHandler (t : trigger) (fn : nat) : M unit :=
  handlers ← gets _handlers;
  removeHandler_from (S (length handlers)) 0 (Z.of_nat (length handlers)) t fn.

End Draft010.

(** * Vocabulary of the properties *)

Definition is_quote (c : codeunit) : bool :=
  (c =? SQUOTE)%N || (c =? DQUOTE)%N.

(** Nothing, a single quote or a double quote. *)
Definition optional_quote (q : jsstring) : Prop :=
  q = [] \/ q = [SQUOTE] \/ q = [DQUOTE].

(** [Expression content inner]: [content] is the text of an expression with
    the argument text [inner], that is an optional quote, the marker name
    and an opening parenthesis, the argument text (free of line
    terminators), a closing parenthesis, an optional quote. *)
Inductive Expression : jsstring -> jsstring -> Prop :=
| expression q1 inner q2 :
    optional_quote q1 -> optional_quote q2 ->
    Forall (fun c => is_line_terminator c = false) inner ->
    Expression (q1 ++ ATTRIBUTE_NAME ++ [LPAREN] ++ inner ++ [RPAREN] ++ q2)
      inner.

(** The text neither starts nor ends with white space. *)
Definition no_space_at_ends (t : jsstring) : Prop :=
  (forall c t', t = c :: t' -> is_white_space c = false)
  /\ (forall c t', t = t' ++ [c] -> is_white_space c = false).

(** [r] is [s] with leading and trailing white space trimmed: [s] is
    [r] between two runs of white space, and [r] neither starts nor ends
    with white space. *)
Definition trimmed (s r : jsstring) : Prop :=
  exists before after,
    s = before ++ r ++ after
    /\ Forall (fun c => is_white_space c = true) before
    /\ Forall (fun c => is_white_space c = true) after
    /\ no_space_at_ends r.

(** The unescape step in the words of the specification: reading from the
    left, every backslash that stands before a quote is replaced, with
    that quote, by one double quote. *)
Fixpoint replace_escaped_quotes (s : jsstring) : jsstring :=
  match s with
  | [] => []
  | c :: s' =>
      match s' with
      | d :: s'' =>
          if (c =? BACKSLASH)%N && is_quote d
          then DQUOTE :: replace_escaped_quotes s''
          else c :: replace_escaped_quotes s'
      | [] => [c]
      end
  end.

(** The text has a backslash before an escaped quote: backslash,
    backslash, quote. *)
Fixpoint escaped_backslash_quote (s : jsstring) : bool :=
  match s with
  | a :: s' =>
      match s' with
      | b :: c :: _ =>
          ((a =? BACKSLASH)%N && (b =? BACKSLASH)%N && is_quote c)
          || escaped_backslash_quote s'
      | _ => false
      end
  | [] => false
  end.

(** The text has an escaped quote: backslash, quote. *)
Fixpoint escaped_quote (s : jsstring) : bool :=
  match s with
  | a :: s' =>
      match s' with
      | b :: _ => ((a =? BACKSLASH)%N && is_quote b) || escaped_quote s'
      | [] => false
      end
  | [] => false
  end.

(** [styleProvider.style.content], where the provider has a declaration
    block. *)
Definition content_of (h : host) (sp : object) : option jsstring :=
  match sp with
  | Element n => Some (style_content h n)
  | Rule r => style r
  end.

(** The rules nested in an object at any depth, each with its path (the
    indices to follow from the object), every rule after the rules nested
    in it. *)
Definition nested_from (nested : cssObject -> list (list nat * cssObject))
    : nat -> list cssObject -> list (list nat * cssObject) :=
  fix go (i : nat) (rules : list cssObject) :=
    match rules with
    | [] => []
    | rule :: rest =>
        (prod_map (cons i) id <$> nested rule) ++ ([i], rule) :: go (S i) rest
    end.

Fixpoint nested_rules (o : cssObject) : list (list nat * cssObject) :=
  match o with
  | CssObject _ _ _ (Some rules) => nested_from nested_rules 0 rules
  | CssObject _ _ _ None => []
  end.

(** The object that a path leads to. *)
Fixpoint at_path (o : cssObject) (path : list nat) : option cssObject :=
  match path with
  | [] => Some o
  | i :: path' =>
      rules ← cssRules o; rule ← rules !! i; at_path rule path'
  end.

(** The providers that [process] hands to the processor for one marked
    element, in order; none when a [link] or [style] element has no
    sheet. *)
Definition providers_of_node (h : host) (n : node) : option (list object) :=
  if bool_decide (localName h n ∈ [js "link"; js "style"])
  then s ← sheet h n; Some (Rule <$> (nested_rules s).*2)
  else Some [Element n].

(** Some trigger was called for the provider. *)
Definition dispatched (sp : object) (st : state) : Prop :=
  exists t nodes args, CallTrigger t nodes args sp ∈ trace st.

(** The listener lists after a sequence of [addEventListener] calls. *)
Definition install (adds : list (nat * listener))
    (ls : gmap nat (list listener)) : gmap nat (list listener) :=
  foldl (fun ls a => add_listener a.1 a.2 ls) ls adds.

(** The calls [node.addEventListener(event, fn, capture)] of one run of
    the [on] trigger, in order. *)
Definition on_registrations (events : list json) (ns : list nat)
    (fn : listener_fn) (capture : option json) : list (nat * listener) :=
  event ← events; (fun n => (n, Listener event fn capture)) <$> ns.

(** [mode] is the string [global]. *)
Definition is_global (mode : option json) : bool :=
  match mode with
  | Some (JStr m) => bool_decide (m = js "global")
  | _ => false
  end.

(** The datasets after one name has been written on every node. *)
Definition write_all (ns : list nat) (name : jsstring) (value : jsstring)
    (ds : gmap nat (gmap (list N) (list N)))
    : gmap nat (gmap (list N) (list N)) :=
  foldl (fun ds n => write_dataset n name value ds) ds ns.

(** The calls that one dispatch makes: one per registration under [t], in
    registration order. *)
Definition handler_calls (handlers : list handler) (nodes : list object)
    (p : payload) (t : trigger) : list call :=
  (fun handler => CallHandler (h_fn handler) nodes p)
    <$> filter (fun handler => h_trigger handler = t) handlers.

(** A function of the page that, when it returns, has left the array of
    handlers, or the array of triggers, as it was. *)
Definition keeps_handlers (m : M unit) : Prop :=
  forall st st',
    m st = (inr tt, st') ->
    _handlers st' = _handlers st /\ retired st' = retired st.

Definition keeps_triggers (m : M unit) : Prop :=
  forall st st', m st = (inr tt, st') -> _triggers st' = _triggers st.

(** The handler dispatch in the words of the specification: the callbacks
    [fns] are invoked in order, each with the nodes and the payload, each
    in the state that the one before has left; a callback that throws
    ends the dispatch. An invocation is the record of the call and the
    body of the callback. *)
Fixpoint invoke (h : host) (fns : list nat) (nodes : list object)
    (p : payload) (st : state) : (exn + unit) * state :=
  match fns with
  | [] => (inr tt, st)
  | fn :: rest =>
      match
        handler_fn h fn nodes p
          (set_trace (fun tr => tr ++ [CallHandler fn nodes p]) st)
      with
      | (inr _, st') => invoke h rest nodes p st'
      | (inl e, st') => (inl e, st')
      end
  end.

(** The callbacks registered under [t], in registration order. *)
Definition registered (t : trigger) (handlers : list handler) : list nat :=
  h_fn <$> filter (fun handler => h_trigger handler = t) handlers.

(** The data attributes after the keys [names] of [data] have been
    written, in order, on the elements [ns]. *)
Definition write_keys (h : host) (ns : list nat) (data : json)
    (names : list jsstring) (ds : gmap nat (gmap (list N) (list N)))
    : gmap nat (gmap (list N) (list N)) :=
  foldl (fun ds name => write_all ns name (DOMString_of h (own_prop data name)) ds)
    ds names.

(** A callback of the [data] trigger that returns, and leaves the array
    of handlers, the data attributes and the record of calls as they
    are. *)
Definition plain_callback (m : M unit) : Prop :=
  forall st,
    exists st',
      m st = (inr tt, st')
      /\ _handlers st' = _handlers st /\ retired st' = retired st
      /\ datasets st' = datasets st /\ trace st' = trace st.

(** What the loop of [removeHandler] leaves of a list: after a removal the
    next registration moves into the freed index and is never examined. *)
Fixpoint removeHandler_result (t : trigger) (fn : nat)
    (handlers : list handler) : list handler :=
  match handlers with
  | [] => []
  | handler :: rest =>
      if bool_decide (h_trigger handler = t) && bool_decide (h_fn handler = fn)
      then match rest with
           | [] => []
           | next :: rest' => next :: removeHandler_result t fn rest'
           end
      else handler :: removeHandler_result t fn rest
  end.

(** The end of the expression pattern, after the group, and the texts
    that it matches. *)
Definition EXPRESSION_END : RegExp.t :=
  [RegExp.GroupClose; RegExp.One (RegExp.Chr RPAREN);
   RegExp.Opt (RegExp.Class QUOTES); RegExp.Eol].

(** The literal text that opens an expression. *)
Definition EXPRESSION_OPEN : jsstring := ATTRIBUTE_NAME ++ [LPAREN].

(** The expression pattern after the optional opening quote. *)
Definition EXPRESSION_BODY : RegExp.t :=
  ((fun c => RegExp.One (RegExp.Chr c)) <$> EXPRESSION_OPEN)
  ++ RegExp.GroupOpen :: RegExp.Star RegExp.Dot :: EXPRESSION_END.

Definition closing (s : jsstring) : bool :=
  match s with
  | [c] => (RPAREN =? c)%N
  | [c; q] => (RPAREN =? c)%N && is_quote q
  | _ => false
  end.

(** The trigger dispatch in the words of the specification: the triggers
    are called in order, each in the state that the one before has left;
    when one throws, the dispatch ends with an [Error] around the cause,
    or with a TypeError when [null] or [undefined] was thrown. *)
Fixpoint dispatch (h : host) (triggers : list trigger)
    (nodes : list object) (args : json) (sp : object) (st : state)
    : (exn + unit) * state :=
  match triggers with
  | [] => (inr tt, st)
  | t :: rest =>
      match call_trigger h t nodes args sp st with
      | (inr _, st') => dispatch h rest nodes args sp st'
      | (inl Nullish, st') => (inl TypeError, st')
      | (inl e, st') => (inl (Error InProcessTrigger (label h sp) e), st')
      end
  end.

(** Every closure in a listener list was created before the next one. *)
Definition fresh (st : state) : Prop :=
  forall n l, l ∈ default [] (listeners st !! n) -> fn_id (l_fn l) < next_fn st.

#[global] Instance handler_eq_dec : EqDecision handler.
Proof. solve_decision. Defined.

(** The provider has a declaration block whose [content] gives no
    argument string. *)
Definition inert (h : host) (sp : object) : Prop :=
  exists content,
    content_of h sp = Some content /\ _extractArgumentString content = [].

(** The providers that [process] hands to the processor for a list of
    marked elements, in order. *)
Definition providers_of (h : host) (ns : list node) : list object :=
  n ← ns; default [] (providers_of_node h n).

(** The nodes that a provider affects, on a page with the data
    attributes [ds]. *)
Definition nodes_of (h : host) (ds : gmap nat (gmap (list N) (list N)))
    (sp : object) : list object :=
  match sp with
  | Rule r =>
      if isCSSStyleRule r
      then Element <$> querySelectorAll h ds (selectorText r)
      else [sp]
  | Element _ => [sp]
  end.

(** The listener lists after the two calls that the [on] trigger of the
    IIFE draft makes for the event [p.1] on the element [p.2]: the
    previous closure is removed, the new one added. *)
Definition replace_listener (prev fn : listener_fn)
    (ls : gmap nat (list listener)) (p : json * nat)
    : gmap nat (list listener) :=
  add_listener p.2 (Listener p.1 fn None)
    (remove_listener p.2 (Listener p.1 prev None) ls).

(** From [st] to [st'] nothing happened but additions at the end of
    listener lists (and the creation of closures). *)
Definition only_adds_listeners (st st' : state) : Prop :=
  _triggers st' = _triggers st
  /\ _handlers st' = _handlers st
  /\ datasets st' = datasets st
  /\ trace st' = trace st
  /\ forall n,
       default [] (listeners st !! n)
         `prefix_of` default [] (listeners st' !! n).

(** The data attribute [name] of the element [n]. *)
Definition data_attribute (st : state) (n : node) (name : jsstring)
    : option jsstring :=
  (datasets st !! n) ≫= (fun attributes => attributes !! name).

(** From [st] to [st'] nothing happened but calls of registered functions
    and writes of the data attributes [keys] of the elements in
    [nodes]. *)
Definition only_writes_data (nodes : list object) (keys : list jsstring)
    (st st' : state) : Prop :=
  _triggers st' = _triggers st
  /\ _handlers st' = _handlers st
  /\ listeners st' = listeners st
  /\ trace st `prefix_of` trace st'
  /\ forall n name,
       Element n ∉ nodes \/ name ∉ keys ->
       data_attribute st' n name = data_attribute st n name.

(** * Properties *)

#[local] Arguments N.eqb : simpl never.
#[local] Arguments N.leb : simpl never.
#[local] Arguments N.ltb : simpl never.

(** ** Computations *)

Lemma bind_eq {A B} (m : M A) (k : A -> M B) st :
  (m ≫= k) st
  = match m st with
    | (inr a, st') => k a st'
    | (inl e, st') => (inl e, st')
    end.
Proof. reflexivity. Qed.

Lemma forEach_cons {A} (x : A) l (f : A -> M unit) st :
  forEach (x :: l) f st = (f x ;; forEach l f) st.
Proof. reflexivity. Qed.

Lemma forEach_app {A} (l1 l2 : list A) (f : A -> M unit) st :
  forEach (l1 ++ l2) f st = (forEach l1 f ;; forEach l2 f) st.
Proof.
  revert st. induction l1 as [|x l1 IH]; intros st; simpl.
  - reflexivity.
  - rewrite !bind_eq. destruct (f x st) as [[e|[]] st1]; [reflexivity|].
    rewrite IH. reflexivity.
Qed.

(** A loop that stops at the first element that throws. *)
Lemma forEach_stops {A} (pre post : list A) (x : A) (f : A -> M unit)
    st st1 e st2 :
  forEach pre f st = (inr tt, st1) ->
  f x st1 = (inl e, st2) ->
  forEach (pre ++ x :: post) f st = (inl e, st2).
Proof.
  intros Hpre Hx. rewrite forEach_app, bind_eq, Hpre. simpl.
  rewrite bind_eq, Hx. reflexivity.
Qed.

Lemma set_trace_nil st : set_trace (fun t => t ++ []) st = st.
Proof. destruct st. unfold set_trace. simpl. by rewrite app_nil_r. Qed.

Lemma set_trace_app l1 l2 st :
  set_trace (fun t => t ++ l2) (set_trace (fun t => t ++ l1) st)
  = set_trace (fun t => t ++ (l1 ++ l2)) st.
Proof. destruct st. unfold set_trace. simpl. by rewrite app_assoc. Qed.

(** ** Loops over an array that the body may change *)

(** While the body leaves the array as it is, the loop is the loop over
    its elements. *)
Lemma forEach_from_static {A} (array : state -> list A) (f : A -> M unit)
    (l : list A) :
  (forall x st st',
     x ∈ l -> array st = l -> f x st = (inr tt, st') -> array st' = l) ->
  forall count index st,
    array st = l -> index + count = length l ->
    forEach_from array f index count st = forEach (drop index l) f st.
Proof.
  intros Hkeep. induction count as [|count IH]; intros index st Harray Hlen.
  - simpl. by rewrite drop_ge by lia.
  - cbn [forEach_from]. rewrite bind_eq. unfold gets. rewrite Harray.
    destruct (l !! index) as [x|] eqn:Hx.
    + rewrite (drop_S l x index Hx), forEach_cons, !bind_eq.
      destruct (f x st) as [[e|[]] st'] eqn:Hf; [done|].
      apply IH; [|lia].
      apply (Hkeep x st st'); [|done..].
      by apply list_elem_of_lookup_2 in Hx.
    + apply lookup_ge_None in Hx. lia.
Qed.

Lemma forEach_array_static {A} (array : state -> list A) (f : A -> M unit)
    st :
  (forall x st1 st',
     x ∈ array st -> array st1 = array st -> f x st1 = (inr tt, st') ->
     array st' = array st) ->
  forEach_array array f st = forEach (array st) f st.
Proof.
  intros Hkeep. unfold forEach_array. rewrite bind_eq. unfold gets.
  by rewrite (forEach_from_static array f (array st) Hkeep).
Qed.

(** ** Handler dispatch *)

Lemma handlers_of_ext array st st' :
  _handlers st' = _handlers st -> retired st' = retired st ->
  handlers_of array st' = handlers_of array st.
Proof.
  intros Hh Hr. unfold handlers_of, handlers_array. by rewrite Hh, Hr.
Qed.

Lemma handlers_of_now st : handlers_of (handlers_array st) st = _handlers st.
Proof. unfold handlers_of. by rewrite bool_decide_eq_true_2. Qed.

Lemma call_handler_eq h fn nodes p st :
  call_handler h fn nodes p st
  = handler_fn h fn nodes p
      (set_trace (fun tr => tr ++ [CallHandler fn nodes p]) st).
Proof. reflexivity. Qed.

Lemma forEach_registered h t handlers nodes p st :
  forEach handlers (fun handler =>
    if bool_decide (t = h_trigger handler)
    then call_handler h (h_fn handler) nodes p
    else ret tt) st
  = invoke h (registered t handlers) nodes p st.
Proof.
  revert st. induction handlers as [|hd hs IH]; intros st; [done|].
  rewrite forEach_cons, bind_eq. unfold registered.
  rewrite filter_cons. case_bool_decide as Ht.
  - rewrite decide_True by done. rewrite fmap_cons. cbn [invoke].
    rewrite call_handler_eq.
    destruct (handler_fn h (h_fn hd) nodes p _) as [[e|[]] st']; [done|].
    apply IH.
  - rewrite decide_False by done. apply IH.
Qed.

(** While the callbacks leave the array of handlers as it is, the
    dispatch invokes the callbacks registered under the trigger. *)
Lemma _processHandler_eq h nodes p t st :
  (forall handler,
     handler ∈ _handlers st -> h_trigger handler = t ->
     keeps_handlers (handler_fn h (h_fn handler) nodes p)) ->
  _processHandler h nodes p t st
  = invoke h (registered t (_handlers st)) nodes p st.
Proof.
  intros Hkeep. unfold _processHandler. rewrite bind_eq. unfold gets.
  rewrite forEach_array_static.
  - rewrite handlers_of_now. apply forEach_registered.
  - rewrite handlers_of_now. intros hd st1 st' Hhd Harray.
    case_bool_decide as Ht; [|by intros [= <-]].
    rewrite call_handler_eq. intros Hcall.
    destruct (Hkeep hd Hhd (eq_sym Ht) _ _ Hcall) as [Hh Hr].
    by rewrite (handlers_of_ext _ _ _ Hh Hr).
Qed.

(** C6. A dispatch invokes the callbacks registered under the trigger
    identity in registration order, each with the nodes and the payload of
    the dispatch and each after the one before has returned, as long as
    the callbacks leave the array of handlers as it is; a callback that
    throws ends the dispatch, the callbacks after it are not invoked and
    what it threw reaches the caller. When no registration is under that
    identity nothing is invoked and the dispatch returns with the state as
    it was. *)
Theorem processHandler_calls_registered h nodes p t st :
  (forall handler,
     handler ∈ _handlers st -> h_trigger handler = t ->
     keeps_handlers (handler_fn h (h_fn handler) nodes p)) ->
  _processHandler h nodes p t st
  = invoke h (registered t (_handlers st)) nodes p st
  /\ ((forall handler, handler ∈ _handlers st -> h_trigger handler <> t) ->
      _processHandler h nodes p t st = (inr tt, st)).
Proof.
  intros Hkeep. split; [by apply _processHandler_eq|].
  intros Hnone. rewrite _processHandler_eq by done. unfold registered.
  replace (filter (fun handler => h_trigger handler = t) (_handlers st))
    with (@nil handler); [done|].
  symmetry. induction (_handlers st) as [|hd hs IH]; [done|].
  rewrite filter_cons_False.
  - apply IH.
    + intros x Hx. apply Hkeep. by right.
    + intros x Hx. apply Hnone. by right.
  - apply Hnone. by left.
Qed.

Lemma processHandler_calls_registered_witness :
  let h :=
    with_functions (page [] (fun _ => []))
      (fun fn _ _ =>
         if fn =? 1 then addTrigger (TriggerCustom 9)
         else if fn =? 2 then throw (Thrown 0)
         else ret tt)
      (fun _ _ _ _ => ret tt) in
  let st :=
    engine [TriggerData]
      [Handler TriggerData 1; Handler TriggerOn 4; Handler TriggerData 2;
       Handler TriggerData 3] in
  let r := _processHandler h [Element 0] (PayloadData JNull) TriggerData st in
  r.1 = inl (Thrown 0)
  /\ _triggers r.2 = [TriggerData; TriggerCustom 9]
  /\ trace r.2
     = [CallHandler 1 [Element 0] (PayloadData JNull);
        CallHandler 2 [Element 0] (PayloadData JNull)].
Proof.
  intros h st r. subst r.
  destruct (processHandler_calls_registered h [Element 0]
              (PayloadData JNull) TriggerData st) as [Heq _].
  - intros [t fn] _ _ st1 st2. cbn [h_fn handler_fn h with_functions].
    destruct (fn =? 1); [by intros [= <-]|].
    destruct (fn =? 2); [done|by intros [= <-]].
  - rewrite Heq. repeat split; vm_compute; reflexivity.
Defined.

(** C6, without the proviso: a callback that throws ends the dispatch, so
    that a callback registered under the trigger after it is not invoked;
    and a callback that removes its own registration makes the dispatch
    pass over the registration after it, which is not invoked either. *)
Example throwing_handler_stops_dispatch :
  let h :=
    with_functions (page [] (fun _ => []))
      (fun fn _ _ =>
         if fn =? 1 then throw (Thrown 0)
         else if fn =? 3 then removeHandler TriggerOn 3
         else ret tt)
      (fun _ _ _ _ => ret tt) in
  let thrown :=
    _processHandler h [Element 0] (PayloadData JNull) TriggerData
      (engine [] [Handler TriggerData 1; Handler TriggerData 2]) in
  let removed :=
    _processHandler h [Element 0] (PayloadData JNull) TriggerOn
      (engine [] [Handler TriggerOn 3; Handler TriggerOn 4]) in
  thrown.1 = inl (Thrown 0)
  /\ trace thrown.2 = [CallHandler 1 [Element 0] (PayloadData JNull)]
  /\ _handlers thrown.2 = [Handler TriggerData 1; Handler TriggerData 2]
  /\ removed.1 = inr tt
  /\ trace removed.2 = [CallHandler 3 [Element 0] (PayloadData JNull)]
  /\ _handlers removed.2 = [Handler TriggerOn 4].
Proof. cbv zeta. repeat split; vm_compute; reflexivity. Qed.

Example processHandler_in_order :
  trace (_processHandler (page [] (fun _ => [])) [Element 3]
           (PayloadData JNull) TriggerData
           (engine [] [Handler TriggerData 1; Handler TriggerOn 2;
                       Handler TriggerData 3; Handler TriggerData 1])).2
  = [CallHandler 1 [Element 3] (PayloadData JNull);
     CallHandler 3 [Element 3] (PayloadData JNull);
     CallHandler 1 [Element 3] (PayloadData JNull)].
Proof. reflexivity. Qed.

(** ** Registration *)

Lemma indexOf_Some {A} `{EqDecision A} (x : A) l :
  x ∈ l ->
  exists i, indexOf x l = Some i /\ l !! i = Some x
            /\ forall j, j < i -> l !! j <> Some x.
Proof.
  induction l as [|y l IH]; intros Hin; [by apply elem_of_nil in Hin|].
  simpl. case_bool_decide as Hy.
  - exists 0. subst. split; [done|]. split; [done|]. intros j Hj. lia.
  - apply elem_of_cons in Hin as [->|Hin]; [done|].
    destruct (IH Hin) as (i & -> & Hi & Hfirst). exists (S i).
    split; [done|]. split; [done|]. intros [|j] Hj; simpl; [congruence|].
    apply Hfirst. lia.
Qed.

(** C10. When [t] is among the triggers, [removeTrigger t] deletes its
    first occurrence from the trigger list and replaces the handler list by
    the registrations whose trigger is [t]: a registration under any other
    trigger is gone afterwards. *)
Theorem removeTrigger_keeps_only_its_handlers t st :
  t ∈ _triggers st ->
  exists index,
    indexOf t (_triggers st) = Some index
    /\ _triggers st !! index = Some t
    /\ (forall j, j < index -> _triggers st !! j <> Some t)
    /\ removeTrigger t st
       = (inr tt,
          assign_handlers (filter (fun handler => h_trigger handler = t))
            (set_triggers (delete index) st))
    /\ (forall handler,
          handler ∈ _handlers (removeTrigger t st).2
          <-> handler ∈ _handlers st /\ h_trigger handler = t)
    /\ (forall handler,
          h_trigger handler <> t -> handler ∉ _handlers (removeTrigger t st).2).
Proof.
  intros Hin. destruct (indexOf_Some t _ Hin) as (i & Hi & Hat & Hfirst).
  exists i. split; [done|]. split; [done|]. split; [done|].
  assert (removeTrigger t st
          = (inr tt,
             assign_handlers (filter (fun handler => h_trigger handler = t))
               (set_triggers (delete i) st))) as Heq.
  { unfold removeTrigger. rewrite bind_eq. unfold gets. by rewrite Hi. }
  split; [done|]. rewrite Heq. simpl. split.
  - intros hd. rewrite list_elem_of_filter. tauto.
  - intros hd Hne. rewrite list_elem_of_filter. tauto.
Qed.

Lemma removeTrigger_keeps_only_its_handlers_witness :
  let r :=
    removeTrigger TriggerOn
      (engine [TriggerData; TriggerOn]
         [Handler TriggerData 1; Handler TriggerOn 2;
          Handler (TriggerCustom 5) 3]) in
  r.1 = inr tt
  /\ _triggers r.2 = [TriggerData]
  /\ _handlers r.2 = [Handler TriggerOn 2].
Proof.
  cbv zeta.
  destruct (removeTrigger_keeps_only_its_handlers TriggerOn
              (engine [TriggerData; TriggerOn]
                 [Handler TriggerData 1; Handler TriggerOn 2;
                  Handler (TriggerCustom 5) 3]))
    as (i & Hi & _ & _ & Heq & _).
  - right. left.
  - rewrite Heq. injection Hi as <-. by repeat split.
Defined.

(** The loop of [removeHandler], unrolled: the fuel it is given is enough. *)
Lemma removeHandler_from_eq t fn fuel pre handlers :
  length handlers <= fuel ->
  removeHandler_from fuel (length pre) t fn (pre ++ handlers)
  = pre ++ removeHandler_result t fn handlers.
Proof.
  revert pre handlers. induction fuel as [|fuel IH]; intros pre hs Hfuel.
  - destruct hs; simpl in *; [done|lia].
  - destruct hs as [|hd rest]; simpl removeHandler_from.
    + rewrite app_nil_r, Nat.ltb_irrefl. simpl. by rewrite app_nil_r.
    + assert ((length pre <? length (pre ++ hd :: rest)) = true) as ->.
      { apply Nat.ltb_lt. rewrite length_app. simpl. lia. }
      rewrite list_lookup_middle by done. simpl removeHandler_result.
      destruct (bool_decide (h_trigger hd = t) && bool_decide (h_fn hd = fn)).
      * rewrite delete_middle. destruct rest as [|next rest'].
        -- rewrite app_nil_r. destruct fuel; simpl; [done|].
           assert ((S (length pre) <? length pre) = false) as ->; [|done].
           apply Nat.ltb_ge. lia.
        -- replace (pre ++ next :: rest') with ((pre ++ [next]) ++ rest')
             by by rewrite <- app_assoc.
           replace (S (length pre)) with (length (pre ++ [next]))
             by (rewrite length_app; simpl; lia).
           rewrite IH by (simpl in *; lia). by rewrite <- app_assoc.
      * replace (pre ++ hd :: rest) with ((pre ++ [hd]) ++ rest)
          by by rewrite <- app_assoc.
        replace (S (length pre)) with (length (pre ++ [hd]))
          by (rewrite length_app; simpl; lia).
        rewrite IH by (simpl in *; lia). by rewrite <- app_assoc.
Qed.

Lemma removeHandler_eq t fn st :
  removeHandler t fn st
  = (inr tt, set_handlers (removeHandler_result t fn) st).
Proof.
  unfold removeHandler, modify. f_equal. destruct st. unfold set_handlers.
  simpl. f_equal. by apply (removeHandler_from_eq t fn _ []).
Qed.

(** C7. [removeHandler] on a list that starts with two registrations of the
    pair [(t, fn)]: the first is removed, the second moves to index 0, is
    never examined and stays registered. *)
Theorem removeHandler_leaves_adjacent_match t fn ts rest :
  removeHandler t fn (engine ts (Handler t fn :: Handler t fn :: rest))
  = (inr tt, engine ts (Handler t fn :: removeHandler_result t fn rest))
  /\ Handler t fn
     ∈ _handlers
         (removeHandler t fn
            (engine ts (Handler t fn :: Handler t fn :: rest))).2.
Proof.
  rewrite removeHandler_eq. unfold set_handlers, engine. simpl.
  rewrite !bool_decide_eq_true_2 by done. simpl. split; [done|]. by left.
Qed.

Example removeHandler_twice_registered :
  _handlers (removeHandler TriggerOn 1
               (engine [] [Handler TriggerOn 1; Handler TriggerOn 1])).2
  = [Handler TriggerOn 1].
Proof. reflexivity. Qed.

(** ** The two regular expressions *)

Lemma run_star_cons a p b g c s :
  RegExp.run (RegExp.Star a :: p) b g (c :: s)
  = if RegExp.atom_matches a c
    then match RegExp.run (RegExp.Star a :: p) false g s with
         | Some r => Some (RegExp.consumed g c r)
         | None => RegExp.run p b g (c :: s)
         end
    else RegExp.run p b g (c :: s).
Proof. reflexivity. Qed.

Lemma run_star_nil a p b g :
  RegExp.run (RegExp.Star a :: p) b g [] = RegExp.run p b g [].
Proof. reflexivity. Qed.

Lemma run_expression_end b g s :
  RegExp.run EXPRESSION_END b g s
  = if closing s then Some ([], []) else None.
Proof.
  destruct s as [|c1 [|c2 [|c3 s]]]; simpl; try done.
  - unfold is_quote. destruct (_ =? c1)%N; simpl; [|done].
    destruct (c2 =? _)%N; simpl; [done|].
    by destruct (c2 =? _)%N.
  - unfold is_quote. destruct (_ =? c1)%N; simpl; [|done].
    destruct (c2 =? _)%N; simpl; [done|].
    by destruct (c2 =? _)%N.
Qed.

Lemma is_quote_spec c : is_quote c = true <-> c = SQUOTE \/ c = DQUOTE.
Proof.
  unfold is_quote. rewrite orb_true_iff, !N.eqb_eq. tauto.
Qed.

Lemma closing_spec s :
  closing s = true <-> exists q, optional_quote q /\ s = RPAREN :: q.
Proof.
  unfold optional_quote. split.
  - destruct s as [|c1 [|c2 [|c3 s]]]; simpl; try done.
    + intros ->%N.eqb_eq. exists []. auto.
    + intros [->%N.eqb_eq [->| ->]%is_quote_spec]%andb_true_iff;
        [exists [SQUOTE]|exists [DQUOTE]]; auto.
  - intros (q & [->|[->| ->]] & ->); reflexivity.
Qed.

(** The greedy group followed by the end of the pattern: the capture is
    all of the text but its closing part. *)
Lemma run_group_complete b inner tail :
  Forall (fun c => is_line_terminator c = false) inner ->
  closing tail = true ->
  RegExp.run (RegExp.Star RegExp.Dot :: EXPRESSION_END) b true (inner ++ tail)
  = Some (inner, []).
Proof.
  intros Hinner Htail. revert b.
  induction Hinner as [|c inner Hc _ IH]; intros b; simpl app.
  - destruct tail as [|c1 [|c2 [|c3 tail]]]; try done.
    + rewrite run_star_cons, run_star_nil, !run_expression_end. simpl.
      simpl in Htail. rewrite Htail. by destruct (negb _).
    + rewrite !run_star_cons, run_star_nil, !run_expression_end. simpl.
      simpl in Htail. rewrite Htail.
      apply andb_true_iff in Htail as [_ [-> | ->]%is_quote_spec];
        by destruct (negb (is_line_terminator c1)).
  - rewrite run_star_cons. simpl RegExp.atom_matches. rewrite Hc. simpl negb.
    cbv iota. by rewrite IH.
Qed.

Lemma run_group_sound b s cap rest :
  RegExp.run (RegExp.Star RegExp.Dot :: EXPRESSION_END) b true s
  = Some (cap, rest) ->
  rest = []
  /\ Forall (fun c => is_line_terminator c = false) cap
  /\ exists tail, closing tail = true /\ s = cap ++ tail.
Proof.
  revert b cap rest. induction s as [|c s IH]; intros b cap rest.
  - rewrite run_star_nil, run_expression_end. done.
  - rewrite run_star_cons. simpl RegExp.atom_matches.
    destruct (is_line_terminator c) eqn:Hc; simpl negb; cbv iota.
    + rewrite run_expression_end. destruct (closing (c :: s)) eqn:Hcl; [|done].
      injection 1 as <- <-. split; [done|]. split; [constructor|].
      by exists (c :: s).
    + destruct (RegExp.run _ false true s) as [[cap' rest']|] eqn:Hrun.
      * injection 1 as <- <-.
        destruct (IH _ _ _ Hrun) as (-> & Hcap & tail & Hcl & ->).
        split; [done|]. split; [by constructor|]. by exists tail.
      * rewrite run_expression_end.
        destruct (closing (c :: s)) eqn:Hcl; [|done].
        injection 1 as <- <-. split; [done|]. split; [constructor|].
        by exists (c :: s).
Qed.

Lemma strip_prefix_app pre rest : strip_prefix pre (pre ++ rest) = Some rest.
Proof. induction pre as [|c pre IH]; simpl; [done|]. by rewrite N.eqb_refl. Qed.

Lemma strip_prefix_Some pre s rest :
  strip_prefix pre s = Some rest -> s = pre ++ rest.
Proof.
  revert s. induction pre as [|c pre IH]; intros [|d s]; simpl; try congruence.
  destruct (N.eqb_spec c d) as [->|]; [|done]. intros H. by rewrite (IH _ H).
Qed.

Lemma fmap_consumed_outside d (x : option (list N * list N)) :
  RegExp.consumed false d <$> x = x.
Proof. by destruct x. Qed.

Lemma run_chars lit p b s :
  lit <> [] ->
  RegExp.run (((fun c => RegExp.One (RegExp.Chr c)) <$> lit) ++ p) b false s
  = strip_prefix lit s ≫= RegExp.run p false false.
Proof.
  revert b s. induction lit as [|c lit IH]; intros b s Hlit; [done|].
  destruct s as [|d s]; simpl; [done|].
  destruct (c =? d)%N; [|done]. rewrite fmap_consumed_outside.
  destruct lit as [|c' lit]; [done|]. by apply IH.
Qed.

Lemma REGEXP_EXPRESSION_eq :
  REGEXP_EXPRESSION
  = RegExp.Bol :: RegExp.Opt (RegExp.Class QUOTES) :: EXPRESSION_BODY.
Proof. reflexivity. Qed.

Lemma EXPRESSION_OPEN_not_nil : EXPRESSION_OPEN <> [].
Proof. done. Qed.

Lemma run_body b s :
  RegExp.run EXPRESSION_BODY b false s
  = strip_prefix EXPRESSION_OPEN s
    ≫= RegExp.run (RegExp.Star RegExp.Dot :: EXPRESSION_END) false true.
Proof.
  unfold EXPRESSION_BODY. by rewrite run_chars by apply EXPRESSION_OPEN_not_nil.
Qed.

Lemma strip_open_quote c s :
  is_quote c = true -> strip_prefix EXPRESSION_OPEN (c :: s) = None.
Proof. by intros [-> | ->]%is_quote_spec. Qed.

Lemma atom_matches_quotes c :
  RegExp.atom_matches (RegExp.Class QUOTES) c = is_quote c.
Proof. unfold is_quote. simpl. by rewrite orb_false_r. Qed.

(** The whole pattern, from the first character: the optional quote is
    taken when there is one, and the body follows. *)
Lemma run_expression s :
  RegExp.run REGEXP_EXPRESSION true false s
  = match s with
    | c :: s' =>
        if is_quote c then RegExp.run EXPRESSION_BODY false false s'
        else RegExp.run EXPRESSION_BODY true false s
    | [] => None
    end.
Proof.
  rewrite REGEXP_EXPRESSION_eq. generalize EXPRESSION_BODY (run_body true s).
  intros body Hbody. destruct s as [|c s']; simpl; [by rewrite Hbody|].
  rewrite orb_false_r. fold (is_quote c).
  destruct (is_quote c) eqn:Hc; [|done].
  destruct (RegExp.run body false false s') as [[]|]; [done|].
  by rewrite Hbody, strip_open_quote.
Qed.

Lemma run_expression_complete content inner :
  Expression content inner ->
  RegExp.run REGEXP_EXPRESSION true false content = Some (inner, []).
Proof.
  intros [q1 inner' q2 Hq1 Hq2 Hinner]. rewrite run_expression.
  assert (closing ([RPAREN] ++ q2) = true) as Hcl.
  { apply closing_spec. by exists q2. }
  assert (forall b,
            RegExp.run EXPRESSION_BODY b false
              (ATTRIBUTE_NAME ++ [LPAREN] ++ inner' ++ [RPAREN] ++ q2)
            = Some (inner', [])) as Hrest.
  { intros b. rewrite run_body, (app_assoc ATTRIBUTE_NAME).
    fold EXPRESSION_OPEN. rewrite strip_prefix_app. simpl mbind.
    by apply run_group_complete. }
  destruct Hq1 as [->|[->| ->]].
  - rewrite app_nil_l, <- (Hrest true). reflexivity.
  - apply (Hrest false).
  - apply (Hrest false).
Qed.

Lemma run_expression_sound content cap rest :
  RegExp.run REGEXP_EXPRESSION true false content = Some (cap, rest) ->
  rest = [] /\ Expression content cap.
Proof.
  rewrite run_expression.
  assert (forall b s q1,
            RegExp.run EXPRESSION_BODY b false s = Some (cap, rest) ->
            optional_quote q1 ->
            rest = [] /\ Expression (q1 ++ s) cap) as Hrest.
  { intros b s q1 Hs Hq1. rewrite run_body in Hs.
    destruct (strip_prefix EXPRESSION_OPEN s) as [s1|] eqn:Hstrip; [|done].
    apply strip_prefix_Some in Hstrip as ->. simpl in Hs.
    apply run_group_sound in Hs as (-> & Hcap & tail & Hcl & ->).
    split; [done|].
    apply closing_spec in Hcl as (q2 & Hq2 & ->).
    unfold EXPRESSION_OPEN. rewrite <- !app_assoc.
    by apply (expression q1 cap q2). }
  destruct content as [|c s]; [done|].
  destruct (is_quote c) eqn:Hc.
  - intros Hs. apply (Hrest _ _ [c] Hs).
    apply is_quote_spec in Hc as [-> | ->]; unfold optional_quote; auto.
  - intros Hs. apply (Hrest _ _ [] Hs). by left.
Qed.

Lemma exec_from_anchored p s :
  RegExp.exec_from (RegExp.Bol :: p) false s = None.
Proof. induction s as [|c s IH]; simpl; [done|]. by rewrite IH. Qed.

Lemma exec_from_eq p b s :
  RegExp.exec_from p b s
  = match RegExp.run p b false s with
    | Some (cap, rest) => Some ([], cap, rest)
    | None =>
        match s with
        | [] => None
        | c :: s' =>
            '(before, cap, rest) ← RegExp.exec_from p false s';
            Some (c :: before, cap, rest)
        end
    end.
Proof. by destruct s. Qed.

Lemma exec_anchored p s :
  RegExp.exec (RegExp.Bol :: p) s
  = '(cap, rest) ← RegExp.run (RegExp.Bol :: p) true false s;
    Some ([], cap, rest).
Proof.
  unfold RegExp.exec. rewrite exec_from_eq.
  destruct (RegExp.run _ true false s) as [[]|]; [done|].
  destruct s as [|c s]; [done|]. by rewrite exec_from_anchored.
Qed.

Lemma exec_expression s :
  RegExp.exec REGEXP_EXPRESSION s
  = '(cap, rest) ← RegExp.run REGEXP_EXPRESSION true false s;
    Some ([], cap, rest).
Proof. rewrite REGEXP_EXPRESSION_eq. apply exec_anchored. Qed.

(** The extractor, in terms of one run of the pattern from index 0. *)
Lemma _extractArgumentString_eq content :
  _extractArgumentString content
  = match RegExp.run REGEXP_EXPRESSION true false content with
    | Some (cap, rest) =>
        if length ATTRIBUTE_NAME <? length content
        then trim (unescape_quotes (cap ++ rest))
        else []
    | None => []
    end.
Proof.
  unfold _extractArgumentString, RegExp.test, RegExp.replace_by_group1.
  rewrite exec_expression.
  destruct (RegExp.run REGEXP_EXPRESSION true false content) as [[cap rest]|];
    simpl.
  - by destruct (_ <? _).
  - by rewrite andb_false_r.
Qed.

(** An expression text has one argument text. *)
Lemma Expression_functional content inner inner' :
  Expression content inner -> Expression content inner' -> inner = inner'.
Proof.
  intros H%run_expression_complete H'%run_expression_complete. congruence.
Qed.

Lemma Expression_length content inner :
  Expression content inner -> length ATTRIBUTE_NAME < length content.
Proof.
  intros [q1 inner' q2 _ _ _]. rewrite !length_app. simpl. lia.
Qed.

(** ** The unescape step *)

Lemma run_escaped_quotes b s :
  RegExp.run REGEXP_ESCAPED_QUOTES b false s
  = match s with
    | c :: d :: s'' =>
        if (c =? BACKSLASH)%N && is_quote d then Some ([], s'') else None
    | _ => None
    end.
Proof.
  destruct s as [|c [|d s'']]; simpl; try done.
  - rewrite N.eqb_sym. by destruct (c =? _)%N.
  - rewrite N.eqb_sym, orb_false_r. fold (is_quote d).
    destruct (c =? _)%N; simpl; [|done]. by destruct (is_quote d).
Qed.

Lemma replace_global_escaped_quotes fuel b s :
  length s <= fuel ->
  RegExp.replace_global_from fuel REGEXP_ESCAPED_QUOTES [DQUOTE] b s
  = replace_escaped_quotes s.
Proof.
  revert b s. induction fuel as [|fuel IH]; intros b s Hfuel.
  - destruct s; simpl in *; [done|lia].
  - cbn [RegExp.replace_global_from]. rewrite run_escaped_quotes.
    destruct s as [|c [|d s'']]; [done| |].
    + simpl. rewrite IH by (simpl; lia). done.
    + cbn [replace_escaped_quotes].
      destruct ((c =? BACKSLASH)%N && is_quote d).
      * assert ((length s'' <? length (c :: d :: s'')) = true) as ->.
        { apply Nat.ltb_lt. simpl. lia. }
        rewrite IH by (simpl in *; lia). done.
      * rewrite IH by (simpl in *; lia). done.
Qed.

Lemma unescape_quotes_eq s : unescape_quotes s = replace_escaped_quotes s.
Proof.
  unfold unescape_quotes, RegExp.replace_global.
  apply replace_global_escaped_quotes. lia.
Qed.

(** An induction that follows the recursion of [replace_escaped_quotes]. *)
Lemma jsstring_pair_ind (P : list N -> Prop) :
  P [] ->
  (forall c, P [c]) ->
  (forall c d s, P s -> P (d :: s) -> P (c :: d :: s)) ->
  forall s, P s.
Proof.
  intros Hnil Hone Hstep s.
  assert (P s /\ forall c, P (c :: s)) as [H _]; [|exact H].
  induction s as [|d s [IH1 IH2]]; [by split|].
  split; [apply IH2|]. intros c. by apply Hstep.
Qed.

Lemma head_replace_escaped_quotes d s :
  exists t, replace_escaped_quotes (d :: s)
            = (if match s with
                  | q :: _ => (d =? BACKSLASH)%N && is_quote q
                  | [] => false
                  end
               then DQUOTE else d) :: t.
Proof.
  destruct s as [|q s]; simpl; [by exists []|].
  destruct ((d =? BACKSLASH)%N && is_quote q); eauto.
Qed.

Lemma replace_escaped_quotes_cons c d s :
  replace_escaped_quotes (c :: d :: s)
  = if (c =? BACKSLASH)%N && is_quote d
    then DQUOTE :: replace_escaped_quotes s
    else c :: replace_escaped_quotes (d :: s).
Proof. reflexivity. Qed.

Lemma escaped_quote_cons a b t :
  escaped_quote (a :: b :: t)
  = ((a =? BACKSLASH)%N && is_quote b) || escaped_quote (b :: t).
Proof. reflexivity. Qed.

Lemma escaped_backslash_quote_cons a b c t :
  escaped_backslash_quote (a :: b :: c :: t)
  = ((a =? BACKSLASH)%N && (b =? BACKSLASH)%N && is_quote c)
    || escaped_backslash_quote (b :: c :: t).
Proof. reflexivity. Qed.

Lemma is_quote_not_backslash d :
  is_quote d = true -> (d =? BACKSLASH)%N = false.
Proof. by intros [-> | ->]%is_quote_spec. Qed.

(** The result of the unescape step still has an escaped quote exactly
    when the text had a backslash before an escaped quote. *)
Lemma escaped_quote_after_replace s :
  escaped_quote (replace_escaped_quotes s) = escaped_backslash_quote s.
Proof.
  induction s as [|c|c d s IH1 IH2] using jsstring_pair_ind; [done..|].
  rewrite replace_escaped_quotes_cons.
  destruct ((c =? BACKSLASH)%N && is_quote d) eqn:Hcd.
  - apply andb_true_iff in Hcd as [_ Hd%is_quote_not_backslash].
    transitivity (escaped_quote (replace_escaped_quotes s)).
    { by destruct (replace_escaped_quotes s). }
    rewrite IH1. destruct s as [|e s]; [done|].
    rewrite escaped_backslash_quote_cons, Hd, andb_false_r. simpl orb.
    destruct s as [|f s]; [done|].
    rewrite Hd. by destruct s.
  - destruct (head_replace_escaped_quotes d s) as [t Ht].
    rewrite Ht, escaped_quote_cons, <- Ht, IH2.
    destruct s as [|q s]; [by rewrite Hcd|].
    rewrite escaped_backslash_quote_cons. f_equal.
    destruct (N.eqb_spec c BACKSLASH) as [->|Hc]; [|done].
    simpl in Hcd. simpl andb. destruct (d =? BACKSLASH)%N; simpl andb.
    + by destruct (is_quote q).
    + done.
Qed.

Lemma replace_without_escaped_quote s :
  escaped_quote s = false -> replace_escaped_quotes s = s.
Proof.
  induction s as [|c|c d s IH1 IH2] using jsstring_pair_ind; [done..|].
  rewrite escaped_quote_cons, replace_escaped_quotes_cons.
  intros [-> H]%orb_false_iff. by rewrite IH2.
Qed.

Lemma length_replace_escaped_quotes s :
  length (replace_escaped_quotes s) <= length s
  /\ (escaped_quote s = true ->
      length (replace_escaped_quotes s) < length s).
Proof.
  induction s as [|c|c d s [IH1 _] [IH2 IH2']] using jsstring_pair_ind;
    [by split..|].
  rewrite escaped_quote_cons, replace_escaped_quotes_cons.
  destruct ((c =? BACKSLASH)%N && is_quote d); cbn [length] in *.
  - split; [lia|]. intros _. lia.
  - split; [lia|]. rewrite orb_false_l. intros H. specialize (IH2' H). lia.
Qed.

(** C8, as amended. Running the unescape step on its own output changes
    nothing exactly when the text had no backslash before an escaped
    quote. *)
Theorem unescape_twice s :
  unescape_quotes (unescape_quotes s) = unescape_quotes s
  <-> escaped_backslash_quote s = false.
Proof.
  rewrite !unescape_quotes_eq, <- escaped_quote_after_replace. split.
  - intros Heq. destruct (escaped_quote _) eqn:Hesc; [|done].
    apply length_replace_escaped_quotes in Hesc. rewrite Heq in Hesc. lia.
  - apply replace_without_escaped_quote.
Qed.

Lemma unescape_twice_witness :
  unescape_quotes (unescape_quotes (js "{\'a\':\'b\'}"))
  = unescape_quotes (js "{\'a\':\'b\'}").
Proof. by apply (proj2 (unescape_twice (js "{\'a\':\'b\'}"))). Defined.

(** C8, the counterexample. In the content below the value of the
    property is written b, backslash, backslash, quote, c. The extractor
    unescapes the argument text to an object literal that the JSON decoder
    accepts (a string with an escaped double quote in it); one more
    unescape step gives a different text. *)
Lemma unescape_not_idempotent :
  let content := js "stylish({\'a\':\'b\\'c\'})" in
  let text := _extractArgumentString content in
  text = [123; 34; 97; 34; 58; 34; 98; 92; 34; 99; 34; 125]%N
  /\ JSON.parse text = Some (JObj [(js "a", JStr [98; 34; 99]%N)])
  /\ unescape_quotes text
     = [123; 34; 97; 34; 58; 34; 98; 34; 99; 34; 125]%N
  /\ unescape_quotes text <> text.
Proof. vm_compute. repeat split; (reflexivity || discriminate). Qed.

(** ** Trimming *)

Lemma trim_start_spec s :
  exists pre,
    s = pre ++ trim_start s
    /\ Forall (fun c => is_white_space c = true) pre
    /\ (forall c t, trim_start s = c :: t -> is_white_space c = false).
Proof.
  induction s as [|c s (pre & Heq & Hpre & Hhead)].
  - exists []. by repeat split.
  - simpl. destruct (is_white_space c) eqn:Hc.
    + exists (c :: pre). split; [by rewrite Heq at 1|].
      split; [by constructor|done].
    + exists []. split; [done|]. split; [constructor|].
      by intros c' t [= <- <-].
Qed.

(** [trim] removes a run of white space at each end and leaves a text
    without white space at its ends. *)
Lemma trim_spec s :
  exists pre post,
    s = pre ++ trim s ++ post
    /\ Forall (fun c => is_white_space c = true) pre
    /\ Forall (fun c => is_white_space c = true) post
    /\ no_space_at_ends (trim s).
Proof.
  unfold trim.
  destruct (trim_start_spec s) as (pre & Hs & Hpre & Hhead).
  destruct (trim_start_spec (rev (trim_start s))) as (post & Hr & Hpost & Hlast).
  exists pre, (rev post). split; [|split; [done|split]].
  - rewrite Hs at 1. f_equal. rewrite <- rev_app_distr, <- Hr.
    by rewrite rev_involutive.
  - by apply Forall_rev.
  - split.
    + intros c t' Ht. destruct (trim_start s) as [|c0 t0] eqn:Hts.
      { by simpl in Ht. }
      assert (c = c0) as ->; [|by eapply Hhead].
      apply (f_equal (@rev N)) in Ht. rewrite rev_involutive in Ht.
      rewrite Ht in Hr. apply (f_equal (@rev N)) in Hr.
      rewrite rev_involutive, rev_app_distr, rev_involutive in Hr.
      by injection Hr.
    + intros c t' Ht. apply (Hlast c (rev t')).
      apply (f_equal (@rev N)) in Ht. rewrite rev_involutive in Ht.
      rewrite Ht, rev_app_distr. done.
Qed.

(** ** The extractor and inert providers *)

Lemma test_expression content :
  RegExp.test REGEXP_EXPRESSION content = true
  <-> exists inner, Expression content inner.
Proof.
  unfold RegExp.test. rewrite exec_expression. split.
  - destruct (RegExp.run _ true false content) as [[cap rest]|] eqn:Hrun;
      [|done].
    intros _. exists cap. by apply run_expression_sound in Hrun as [_ ?].
  - intros [inner Hexp]. by rewrite (run_expression_complete _ _ Hexp).
Qed.

Lemma style_content_of_eq h sp st :
  style_content_of h sp st
  = match content_of h sp with
    | Some c => (inr c, st)
    | None => (inl TypeError, st)
    end.
Proof. destruct sp as [n|r]; simpl; [done|]. by destruct (style r). Qed.

Lemma _processStyleProvider_inert h sp st content :
  content_of h sp = Some content ->
  _extractArgumentString content = [] ->
  _processStyleProvider h sp st
  = (inr tt, set_processed (fun ps => ps ++ [sp]) st).
Proof.
  intros Hc Harg. unfold _processStyleProvider.
  rewrite bind_eq. unfold modify. rewrite bind_eq, style_content_of_eq, Hc.
  by rewrite Harg.
Qed.

(** C1. The pattern accepts exactly the expression texts. On a content
    that is no longer than the marker name or is no expression text the
    extractor returns the empty string; on an expression text it returns
    the argument text, unescaped and trimmed: the unescaped argument text
    is the result between two runs of white space, and the result neither
    starts nor ends with white space. A provider whose extraction result
    is empty is left alone: no trigger is called, nothing but the ghost
    record of the visit changes. *)
Theorem extractArgumentString_spec h content :
  (RegExp.test REGEXP_EXPRESSION content = true
   <-> exists inner, Expression content inner)
  /\ (length content <= length ATTRIBUTE_NAME
      \/ ~ (exists inner, Expression content inner) ->
      _extractArgumentString content = [])
  /\ (forall inner,
        Expression content inner ->
        _extractArgumentString content = trim (replace_escaped_quotes inner)
        /\ trimmed (replace_escaped_quotes inner)
             (_extractArgumentString content))
  /\ (forall sp st,
        content_of h sp = Some content ->
        _extractArgumentString content = [] ->
        _processStyleProvider h sp st
        = (inr tt, set_processed (fun ps => ps ++ [sp]) st)
        /\ trace (_processStyleProvider h sp st).2 = trace st).
Proof.
  split; [apply test_expression|]. split; [|split].
  - rewrite _extractArgumentString_eq.
    destruct (RegExp.run _ true false content) as [[cap rest]|] eqn:Hrun;
      [|done].
    apply run_expression_sound in Hrun as [-> Hexp]. intros [Hlen|Hno].
    + by rewrite (proj2 (Nat.ltb_ge _ _) Hlen).
    + destruct Hno. by exists cap.
  - intros inner Hexp. rewrite _extractArgumentString_eq.
    rewrite (run_expression_complete _ _ Hexp), app_nil_r.
    rewrite (proj2 (Nat.ltb_lt _ _) (Expression_length _ _ Hexp)).
    rewrite unescape_quotes_eq. split; [done|]. apply trim_spec.
  - intros sp st Hc Harg.
    by rewrite (_processStyleProvider_inert h sp st content Hc Harg).
Qed.

Lemma extractArgumentString_spec_witness :
  let h := page [div ""] (fun _ => []) in
  _extractArgumentString (js "stylish") = []
  /\ _extractArgumentString (js "'stylish( {\'a\':1} )'")
     = trim (replace_escaped_quotes (js " {\'a\':1} "))
  /\ _processStyleProvider h (Element 0) Stylish
     = (inr tt, set_processed (fun ps => ps ++ [Element 0]) Stylish).
Proof.
  cbv zeta. split; [|split].
  - apply (proj1 (proj2 (extractArgumentString_spec
                           (page [div ""] (fun _ => [])) (js "stylish")))).
    left. simpl. lia.
  - apply (proj1 (proj2 (proj2 (extractArgumentString_spec
                                  (page [div ""] (fun _ => []))
                                  (js "'stylish( {\'a\':1} )'"))))
             (js " {\'a\':1} ")).
    apply (expression [SQUOTE] (js " {\'a\':1} ") [SQUOTE]).
    + right. by left.
    + right. by left.
    + by repeat constructor.
  - apply (proj2 (proj2 (proj2 (extractArgumentString_spec
                                  (page [div ""] (fun _ => [])) [])))).
    + reflexivity.
    + reflexivity.
Defined.

Example extract_double_quoted :
  _extractArgumentString (js "'stylish({\'data\':{\'x\':\'1\'}})'")
  = [123; 34; 100; 97; 116; 97; 34; 58; 123; 34; 120; 34; 58; 34; 49; 34;
     125; 125]%N.
Proof. vm_compute. reflexivity. Qed.

Example extract_trims :
  _extractArgumentString (js "stylish(  [1, 2] )") = js "[1, 2]".
Proof. vm_compute. reflexivity. Qed.

Example extract_not_an_expression :
  _extractArgumentString (js "stylish(1) and more") = [].
Proof. vm_compute. reflexivity. Qed.

(** ** The style tree walker *)

Lemma cssObject_nested_ind (P : cssObject -> Prop) :
  (forall a b c, P (CssObject a b c None)) ->
  (forall a b c rules, Forall P rules -> P (CssObject a b c (Some rules))) ->
  forall o, P o.
Proof.
  intros Hleaf Hnode. fix IH 1. intros [a b c [rules|]]; [|apply Hleaf].
  apply Hnode. induction rules as [|r rules IHrules]; constructor.
  - apply IH.
  - apply IHrules.
Qed.

Lemma fmap_snd_prod_map {A B C} (f : A -> C) (l : list (A * B)) :
  (prod_map f id <$> l).*2 = l.*2.
Proof. induction l as [|[a b] l IH]; csimpl; [done|]. by rewrite IH. Qed.

Lemma fmap_fst_prod_map {A B C} (f : A -> C) (l : list (A * B)) :
  (prod_map f id <$> l).*1 = f <$> l.*1.
Proof. induction l as [|[a b] l IH]; csimpl; [done|]. by rewrite IH. Qed.

Lemma for_rules_eq h walk nested rules :
  Forall (fun r => forall st,
            walk r st
            = forEach (Rule <$> (nested r).*2) (_processStyleProvider h) st)
    rules ->
  forall i st,
    for_rules h walk rules st
    = forEach (Rule <$> (nested_from nested i rules).*2)
        (_processStyleProvider h) st.
Proof.
  induction 1 as [|r rules Hr _ IH]; intros i st; [done|].
  cbn [for_rules nested_from].
  rewrite !fmap_app, fmap_snd_prod_map, forEach_app, !bind_eq, Hr.
  destruct (forEach _ _ st) as [[e|[]] st1]; [done|].
  cbn [fmap list_fmap snd]. rewrite forEach_cons, !bind_eq.
  destruct (_processStyleProvider h (Rule r) st1) as [[e|[]] st2]; [done|].
  apply IH.
Qed.

Lemma _processStyleObject_eq h o st :
  _processStyleObject h o st
  = forEach (Rule <$> (nested_rules o).*2) (_processStyleProvider h) st.
Proof.
  revert st. induction o as [a b c|a b c rules IH] using cssObject_nested_ind;
    intros st; [done|].
  cbn [_processStyleObject nested_rules]. by apply for_rules_eq.
Qed.

Lemma at_path_cons a b c rules i path :
  at_path (CssObject a b c (Some rules)) (i :: path)
  = rules !! i ≫= fun rule => at_path rule path.
Proof. reflexivity. Qed.

Lemma elem_of_nested_from nested rules i path r :
  (path, r) ∈ nested_from nested i rules
  <-> exists j rule path',
        path = (i + j) :: path' /\ rules !! j = Some rule
        /\ (path' = [] /\ r = rule \/ (path', r) ∈ nested rule).
Proof.
  revert i. induction rules as [|rule0 rules IH]; intros i.
  - split; [by intros ?%elem_of_nil|]. by intros (j & rule & p' & _ & ? & _).
  - cbn [nested_from]. rewrite elem_of_app, elem_of_cons, IH,
      list_elem_of_fmap. split.
    + intros [([p' r'] & [= -> ->] & Hin)|[[= -> ->]|(j & rule & p' & -> & Hj & H)]].
      * exists 0, rule0, p'. rewrite Nat.add_0_r. auto.
      * exists 0, rule0, []. rewrite Nat.add_0_r. auto.
      * exists (S j), rule, p'. replace (i + S j) with (S i + j) by lia. auto.
    + intros ([|j] & rule & p' & -> & Hj & H); simpl in Hj.
      * injection Hj as <-. rewrite Nat.add_0_r.
        destruct H as [[-> ->]|H]; [by right; left|].
        left. by exists (p', r).
      * right. right. exists j, rule, p'.
        replace (S i + j) with (i + S j) by lia. auto.
Qed.

Lemma elem_of_nested_rules o path r :
  (path, r) ∈ nested_rules o <-> path <> [] /\ at_path o path = Some r.
Proof.
  revert path r.
  induction o as [a b c|a b c rules IH] using cssObject_nested_ind;
    intros path r.
  - split; [by intros ?%elem_of_nil|]. intros [Hne H].
    by destruct path.
  - cbn [nested_rules]. rewrite elem_of_nested_from. split.
    + intros (j & rule & p' & -> & Hj & H). split; [done|].
      rewrite at_path_cons. simpl. rewrite Hj. simpl.
      destruct H as [[-> ->]|H]; [done|].
      rewrite Forall_forall in IH.
      apply (IH rule); [by eapply list_elem_of_lookup_2|done].
    + intros [Hne H]. destruct path as [|j p']; [done|].
      rewrite at_path_cons in H.
      destruct (rules !! j) as [rule|] eqn:Hj; [|done]. simpl in H.
      exists j, rule, p'. split; [done|]. split; [done|].
      destruct p' as [|k p'']; [left; by injection H|right].
      rewrite Forall_forall in IH.
      apply (IH rule); [by eapply list_elem_of_lookup_2|done].
Qed.

Lemma NoDup_nested_from nested rules i :
  Forall (fun r => NoDup (nested r).*1 /\ [] ∉ (nested r).*1) rules ->
  NoDup (nested_from nested i rules).*1.
Proof.
  intros Hall. revert i. induction Hall as [|r rules [Hr Hne] _ IH]; intros i.
  - constructor.
  - cbn [nested_from]. rewrite fmap_app, fmap_cons. cbn [fst].
    assert (forall p, p ∈ (nested_from nested (S i) rules).*1 ->
                      exists j p', p = (S i + j) :: p') as Hlater.
    { intros p ([p0 r0] & -> & Hin)%list_elem_of_fmap.
      apply elem_of_nested_from in Hin as (j & _ & p' & -> & _). eauto. }
    rewrite fmap_fst_prod_map.
    apply NoDup_app. split; [|split].
    + apply NoDup_fmap_2; [|done]. intros x y. congruence.
    + intros p (p0 & -> & Hin)%list_elem_of_fmap [Heq|Hin']%elem_of_cons.
      * injection Heq as ->. done.
      * apply Hlater in Hin' as (j & p' & Heq). injection Heq. lia.
    + constructor; [|apply IH].
      intros (j & p' & Heq)%Hlater. injection Heq. lia.
Qed.

Lemma NoDup_nested_rules o : NoDup (nested_rules o).*1.
Proof.
  induction o as [a b c|a b c rules IH] using cssObject_nested_ind;
    [constructor|].
  cbn [nested_rules]. apply NoDup_nested_from.
  eapply Forall_impl; [exact IH|]. intros r Hr. split; [done|].
  intros ([p r'] & Hp & Hin)%list_elem_of_fmap. simpl in Hp. subst p.
  by apply elem_of_nested_rules in Hin as [? _].
Qed.

(** C9, as amended. A walk of an object is the processor run, in order, on
    the rules nested in the object (each rule after the rules nested in
    it) and on nothing else: every rule below the object, at every depth,
    is listed once, and the object itself is not listed. A provider that
    throws ends the walk there. *)
Theorem walk_processes_nested_rules h o :
  (forall st,
     _processStyleObject h o st
     = forEach (Rule <$> (nested_rules o).*2) (_processStyleProvider h) st)
  /\ NoDup (nested_rules o).*1
  /\ (forall path r,
        (path, r) ∈ nested_rules o
        <-> path <> [] /\ at_path o path = Some r).
Proof.
  split; [apply _processStyleObject_eq|].
  split; [apply NoDup_nested_rules|apply elem_of_nested_rules].
Qed.

(** C9, the counterexample. A page with one [style] element whose sheet
    holds one style rule with an expression, and the [div] that the rule
    selects: [process] hands the rule and the [div] to the processor, not
    the sheet, which is the top-level object given to the walker. *)
Lemma top_level_sheet_not_processed :
  let rule :=
    CssObject true (js "div")
      (Some (js "'stylish({\'data\':{\'x\':\'1\'}})'")) None in
  let sheet := CssObject false [] None (Some [rule]) in
  let h :=
    page [ElementOf (js "style") [] (Some sheet); div ""]
      (fun selector => if bool_decide (selector = js "div") then [1] else []) in
  let result := process h (engine [TriggerData] []) in
  result.1 = inr tt
  /\ processed result.2 = [Rule rule; Element 1]
  /\ (Rule sheet ∉ processed result.2)
  /\ (datasets result.2 !! 1) ≫= (.!! js "x") = Some (js "1").
Proof.
  cbv zeta. split; [by vm_compute|]. split; [by vm_compute|].
  split; [|by vm_compute].
  match goal with |- _ ∉ ?l => replace l with
    [Rule (CssObject true (js "div")
             (Some (js "'stylish({\'data\':{\'x\':\'1\'}})'")) None);
     Element 1] by (by vm_compute) end.
  intros [H|[H|H%elem_of_nil]%elem_of_cons]%elem_of_cons; [|done..].
  discriminate H.
Qed.

(** ** A malformed expression *)

Lemma _processStyleProvider_malformed h sp st content :
  content_of h sp = Some content ->
  _extractArgumentString content <> [] ->
  JSON_parse h (_extractArgumentString content) = None ->
  _processStyleProvider h sp st
  = (inl (Error InProcessStyleProvider (label h sp) SyntaxError),
     set_processed (fun ps => ps ++ [sp]) st).
Proof.
  intros Hc Harg Hparse. unfold _processStyleProvider.
  rewrite bind_eq. unfold modify. rewrite bind_eq, style_content_of_eq, Hc.
  destruct (_extractArgumentString content) as [|c arg] eqn:Harg'; [done|].
  change (0 <? length (c :: arg)) with true. cbv iota.
  by rewrite bind_eq, Hparse.
Qed.

Lemma process_node_eq h n st :
  process_node h n st
  = match providers_of_node h n with
    | Some providers => forEach providers (_processStyleProvider h) st
    | None => (inl TypeError, st)
    end.
Proof.
  unfold process_node, providers_of_node. case_bool_decide.
  - destruct (sheet h n) as [s|]; simpl; [|done].
    apply _processStyleObject_eq.
  - simpl. rewrite bind_eq.
    by destruct (_processStyleProvider h (Element n) st) as [[|[]] ?].
Qed.

(** C2, as amended. [process] stops at the first provider whose argument
    text fails to decode: the elements and providers before it have been
    processed, the offending provider has dispatched no trigger, the
    error is thrown to the caller and nothing after is visited. *)
Theorem process_stops_at_malformed h st nodes_before n nodes_after
    before bad after st1 content :
  querySelectorAll h (datasets st) QUERY_SELECTOR
  = nodes_before ++ n :: nodes_after ->
  providers_of_node h n = Some (before ++ bad :: after) ->
  (forEach nodes_before (process_node h) ;;
   forEach before (_processStyleProvider h)) st = (inr tt, st1) ->
  content_of h bad = Some content ->
  _extractArgumentString content <> [] ->
  JSON_parse h (_extractArgumentString content) = None ->
  process h st
  = (inl (Error InProcessStyleProvider (label h bad) SyntaxError),
     set_processed (fun ps => ps ++ [bad]) st1).
Proof.
  intros Hnodes Hproviders Hbefore Hc Harg Hparse.
  unfold process. rewrite bind_eq. unfold gets. rewrite Hnodes.
  rewrite bind_eq in Hbefore.
  destruct (forEach nodes_before (process_node h) st) as [[e|[]] st0] eqn:H0;
    [done|].
  eapply forEach_stops; [exact H0|].
  rewrite process_node_eq, Hproviders.
  eapply forEach_stops; [exact Hbefore|].
  by apply _processStyleProvider_malformed with content.
Qed.

Lemma process_stops_at_malformed_witness :
  let h :=
    page [div "stylish({\'data\':{\'x\':\'1\'}})"; div "stylish({bad})"]
      (fun _ => []) in
  let st := engine [TriggerData] [Handler TriggerData 7] in
  (process h st).1
  = inl (Error InProcessStyleProvider (Some (js "div")) SyntaxError)
  /\ processed (process h st).2 = [Element 0; Element 1]
  /\ trace (process h st).2
     = [CallTrigger TriggerData [Element 0]
          (JObj [(js "data", JObj [(js "x", JStr (js "1"))])]) (Element 0);
        CallHandler 7 [Element 0]
          (PayloadData (JObj [(js "x", JStr (js "1"))]))].
Proof.
  cbv zeta.
  rewrite (process_stops_at_malformed
             (page [div "stylish({\'data\':{\'x\':\'1\'}})";
                    div "stylish({bad})"] (fun _ => []))
             (engine [TriggerData] [Handler TriggerData 7])
             [0] 1 [] [] (Element 1) []
             (process_node
                (page [div "stylish({\'data\':{\'x\':\'1\'}})";
                       div "stylish({bad})"] (fun _ => []))
                0 (engine [TriggerData] [Handler TriggerData 7])).2
             (js "stylish({bad})")).
  - by vm_compute.
  - by vm_compute.
  - by vm_compute.
  - by vm_compute.
  - by vm_compute.
  - by vm_compute.
  - by vm_compute.
Defined.

(** C2, the counterexample. Two marked [div] elements: the first with an
    argument text that is no JSON, the second with a well-formed one. One
    [process] call throws at the first; the second is never visited and
    none of its triggers is called. *)
Lemma malformed_first_blocks_wellformed :
  let h :=
    page [div "stylish({bad})"; div "stylish({\'data\':{\'x\':\'1\'}})"]
      (fun _ => []) in
  let st := engine [TriggerData] [Handler TriggerData 7] in
  querySelectorAll h (datasets st) QUERY_SELECTOR = [0; 1]
  /\ JSON_parse h (_extractArgumentString (style_content h 0)) = None
  /\ JSON_parse h (_extractArgumentString (style_content h 1))
     = Some (JObj [(js "data", JObj [(js "x", JStr (js "1"))])])
  /\ (process h st).1
     = inl (Error InProcessStyleProvider (Some (js "div")) SyntaxError)
  /\ processed (process h st).2 = [Element 0]
  /\ trace (process h st).2 = []
  /\ ~ dispatched (Element 1) (process h st).2.
Proof.
  cbv zeta. repeat (split; [by vm_compute|]).
  intros (t & nodes & args & Hin).
  replace (trace _) with (@nil call) in Hin by (by vm_compute).
  by apply elem_of_nil in Hin.
Qed.

(** ** The [on] trigger *)

Lemma json_eqb_refl : forall v, json_eqb v v = true.
Proof.
  fix IH 1. intros [|b|l|s|items|props]; simpl;
    try (by rewrite ?bool_decide_eq_true_2).
  - induction items as [|x items IHitems]; [done|]. by rewrite IH, IHitems.
  - induction props as [|[k x] props IHprops]; [done|].
    by rewrite bool_decide_eq_true_2, IH, IHprops.
Qed.

Lemma same_listener_refl l : same_listener l l = true.
Proof.
  unfold same_listener. rewrite json_eqb_refl, bool_decide_eq_true_2 by done.
  destruct (l_capture l); simpl; [apply json_eqb_refl|done].
Qed.

Lemma set_listeners_id st : set_listeners (fun ls => ls) st = st.
Proof. by destruct st. Qed.

Lemma set_listeners_compose f g st :
  set_listeners g (set_listeners f st) = set_listeners (fun ls => g (f ls)) st.
Proof. by destruct st. Qed.

Lemma elem_of_add_listener n l ls m x :
  x ∈ default [] (add_listener n l ls !! m)
  <-> x ∈ default [] (ls !! m)
      \/ (m = n /\ x = l
          /\ existsb (same_listener l) (default [] (ls !! n)) = false).
Proof.
  unfold add_listener.
  destruct (existsb (same_listener l) (default [] (ls !! n))) eqn:Hsame.
  - split; [by left|]. by intros [?|(_ & _ & ?)].
  - destruct (decide (m = n)) as [->|Hne].
    + rewrite lookup_insert_eq. simpl.
      rewrite elem_of_app, list_elem_of_singleton.
      split; [intros [?| ->]; auto|intros [?|(_ & -> & _)]; auto].
    + rewrite lookup_insert_ne by done.
      split; [by left|]. by intros [?|(? & _)].
Qed.

Lemma add_listener_has n l ls :
  exists x, x ∈ default [] (add_listener n l ls !! n)
            /\ same_listener l x = true.
Proof.
  destruct (existsb (same_listener l) (default [] (ls !! n))) eqn:Hsame.
  - apply existsb_exists in Hsame as (x & Hx%list_elem_of_In & Hsame).
    exists x. split; [|done]. apply elem_of_add_listener. by left.
  - exists l. split; [|apply same_listener_refl].
    apply elem_of_add_listener. by right.
Qed.

Lemma elem_of_install adds ls m x :
  x ∈ default [] (install adds ls !! m)
  -> x ∈ default [] (ls !! m) \/ (m, x) ∈ adds.
Proof.
  revert ls. induction adds as [|[n l] adds IH]; intros ls; [by left|].
  unfold install. simpl. intros [H|H]%IH.
  - apply elem_of_add_listener in H as [H|(-> & -> & _)]; [by left|].
    right. by left.
  - right. by right.
Qed.

Lemma install_keeps adds ls m x :
  x ∈ default [] (ls !! m) -> x ∈ default [] (install adds ls !! m).
Proof.
  revert ls. induction adds as [|[n l] adds IH]; intros ls H; [done|].
  unfold install. simpl. apply IH, elem_of_add_listener. by left.
Qed.

Lemma install_has adds ls n l :
  (n, l) ∈ adds ->
  exists x, x ∈ default [] (install adds ls !! n)
            /\ same_listener l x = true.
Proof.
  revert ls. induction adds as [|[n' l'] adds IH]; intros ls Hin;
    [by apply elem_of_nil in Hin|].
  apply elem_of_cons in Hin as [[= <- <-]|Hin].
  - destruct (add_listener_has n l ls) as (x & Hx & Hsame).
    exists x. split; [|done]. unfold install. simpl. by apply install_keeps.
  - by apply IH.
Qed.

Lemma install_app adds1 adds2 ls :
  install (adds1 ++ adds2) ls = install adds2 (install adds1 ls).
Proof. apply foldl_app. Qed.

Lemma forEach_addEventListener ns event fn capture st :
  forEach (Element <$> ns)
    (fun node => addEventListener node event fn capture) st
  = (inr tt,
     set_listeners
       (install ((fun n => (n, Listener event fn capture)) <$> ns)) st).
Proof.
  revert st. induction ns as [|n ns IH]; intros st.
  - simpl. unfold ret. by rewrite set_listeners_id.
  - csimpl. rewrite bind_eq. simpl. unfold modify. rewrite IH.
    by rewrite set_listeners_compose.
Qed.

Lemma forEach_on_registrations events ns fn capture st :
  forEach events (fun event =>
    forEach (Element <$> ns)
      (fun node => addEventListener node event fn capture)) st
  = (inr tt,
     set_listeners (install (on_registrations events ns fn capture)) st).
Proof.
  revert st. induction events as [|event events IH]; intros st.
  - simpl. unfold ret. by rewrite set_listeners_id.
  - rewrite forEach_cons, bind_eq, forEach_addEventListener, IH.
    unfold on_registrations. csimpl. destruct st. unfold set_listeners. simpl.
    by rewrite install_app.
Qed.

Lemma elem_of_on_registrations events ns fn capture n l :
  (n, l) ∈ on_registrations events ns fn capture
  <-> n ∈ ns /\ exists event, event ∈ events /\ l = Listener event fn capture.
Proof.
  unfold on_registrations. rewrite list_elem_of_bind. split.
  - intros (event & Hin & Hev).
    apply list_elem_of_fmap in Hin as (n' & [= -> ->] & Hn). eauto.
  - intros (Hn & event & Hev & ->). exists event. split; [|done].
    apply list_elem_of_fmap. eauto.
Qed.

Lemma own_prop_Some_object v k x :
  own_prop v k = Some x -> typeof_object (Some v) = true /\ v <> JNull.
Proof. by destruct v. Qed.

Lemma member_Some v k x st :
  own_prop v k = Some x -> member v k st = (inr (Some x), st).
Proof. intros H. destruct v; try done; simpl; unfold ret; by rewrite H. Qed.

Lemma mode_of_cases mode :
  mode_of mode = if is_global mode then js "global" else js "local".
Proof.
  destruct mode as [[| | |m| |]|]; try done. simpl.
  case_bool_decide as Hm.
  - apply elem_of_cons in Hm as [->|Hm]; [done|].
    apply list_elem_of_singleton in Hm as ->. done.
  - case_bool_decide as Hg; [|done]. subst. destruct Hm. right. by left.
Qed.

Lemma EVENT_HANDLER_eq h fn e st :
  EVENT_HANDLER h fn e st
  = _processHandler h
      (if bool_decide (fn_mode fn = js "local")
       then [ev_target e] else fn_nodes fn)
      (PayloadEvent e) (fn_trigger fn) st.
Proof. reflexivity. Qed.

(** C4. A run of the [on] trigger on a non-empty list of elements, with an
    [on] object whose [events] is an array: it does not throw and creates
    one closure; every listener entry that is new afterwards holds that
    closure, on one of the nodes and for one of the events, and every node
    has an entry for every event. When the closure runs on an event it
    dispatches to the handlers of the [on] trigger, with the event as
    payload, the list of the event target alone unless [mode] is the
    string [global], and the whole node list of the run when it is. *)
Theorem on_listener_delivers ns args on events sp st :
  ns <> [] ->
  own_prop args (js "on") = Some on ->
  own_prop on (js "events") = Some (JArr events) ->
  let nodes := Element <$> ns in
  let fn :=
    ListenerFn (next_fn st) (mode_of (own_prop on (js "mode"))) nodes
      TriggerOn in
  let capture := own_prop on (js "capture") in
  exists st',
    triggerOn nodes args sp st = (inr tt, st')
    /\ (forall n l,
          l ∈ default [] (listeners st' !! n) ->
          l ∈ default [] (listeners st !! n)
          \/ (n ∈ ns
              /\ exists event, event ∈ events /\ l = Listener event fn capture))
    /\ (forall n event,
          n ∈ ns -> event ∈ events ->
          exists l, l ∈ default [] (listeners st' !! n)
                    /\ same_listener (Listener event fn capture) l = true)
    /\ (forall h e st2,
          EVENT_HANDLER h fn e st2
          = _processHandler h
              (if is_global (own_prop on (js "mode"))
               then nodes else [ev_target e])
              (PayloadEvent e) TriggerOn st2).
Proof.
  intros Hns Hon Hevents nodes fn capture.
  destruct (own_prop_Some_object _ _ _ Hevents) as [Hobj _].
  exists (set_listeners (install (on_registrations events ns fn capture))
            (set_next_fn (S (next_fn st)) st)).
  split; [|split; [|split]].
  - unfold triggerOn. rewrite bind_eq, (member_Some _ _ _ st Hon).
    assert ((0 <? length nodes) = true) as ->.
    { subst nodes. rewrite length_fmap. destruct ns; [done|].
      by apply Nat.ltb_lt; simpl; lia. }
    cbn [negb]. rewrite Hobj. cbn [negb from_option id].
    rewrite bind_eq, (member_Some _ _ _ st Hevents). cbn [isArray].
    rewrite bind_eq. unfold new_listener_fn. rewrite bind_eq.
    unfold gets. rewrite bind_eq. unfold modify, ret.
    apply forEach_on_registrations.
  - intros n l [H|H%elem_of_on_registrations]%elem_of_install; [by left|].
    by right.
  - intros n event Hn Hev. apply install_has.
    apply elem_of_on_registrations. eauto.
  - intros h e st2. rewrite EVENT_HANDLER_eq. subst fn.
    cbn [fn_mode fn_nodes fn_trigger].
    rewrite mode_of_cases. by destruct (is_global _).
Qed.

Lemma on_listener_delivers_witness :
  let on :=
    JObj [(js "events", JArr [JStr (js "click")]);
          (js "mode", JStr (js "local"))] in
  let args := JObj [(js "on", on)] in
  let rule := Rule (CssObject true (js "div[stylish]") (Some []) None) in
  let fn := ListenerFn 0 (js "local") [Element 0; Element 1] TriggerOn in
  let click := Event (js "click") (Element 1) in
  exists st',
    triggerOn [Element 0; Element 1] args rule
      (engine [TriggerOn] [Handler TriggerOn 7]) = (inr tt, st')
    /\ listeners st' !! 1 = Some [Listener (JStr (js "click")) fn None]
    /\ trace (EVENT_HANDLER (page [] (fun _ => [])) fn click st').2
       = [CallHandler 7 [Element 1] (PayloadEvent click)].
Proof.
  cbv zeta.
  destruct (on_listener_delivers [0; 1]
              (JObj [(js "on",
                      JObj [(js "events", JArr [JStr (js "click")]);
                            (js "mode", JStr (js "local"))])])
              (JObj [(js "events", JArr [JStr (js "click")]);
                     (js "mode", JStr (js "local"))])
              [JStr (js "click")]
              (Rule (CssObject true (js "div[stylish]") (Some []) None))
              (engine [TriggerOn] [Handler TriggerOn 7]))
    as (st' & Hrun & _ & _ & Hfire); [done..|].
  exists st'. split; [exact Hrun|]. rewrite Hfire.
  vm_compute in Hrun. injection Hrun as <-. by vm_compute.
Defined.

(** ** The [data] trigger *)

(** Whatever the nodes and the other properties are, the trigger throws
    on its first key when [data] has an own property [hasOwnProperty]:
    nothing is written and no handler is called. *)
Lemma triggerData_own_hasOwnProperty h nodes args data sp st x :
  nodes <> [] ->
  own_prop args (js "data") = Some data ->
  own_prop data (js "hasOwnProperty") = Some x ->
  triggerData h nodes args sp st = (inl TypeError, st).
Proof.
  intros Hnodes Hdata Hown.
  destruct (own_prop_Some_object _ _ _ Hown) as [Hobj _].
  unfold triggerData. rewrite bind_eq, (member_Some _ _ _ st Hdata).
  assert ((0 <? length nodes) = true) as ->.
  { destruct nodes; [done|]. by apply Nat.ltb_lt; simpl; lia. }
  cbn [negb]. rewrite Hobj. cbn [negb from_option id].
  destruct (own_keys data) as [|name rest] eqn:Hkeys.
  { unfold own_keys, own_prop in *. by destruct (entries data). }
  rewrite forEach_cons, bind_eq, bind_eq.
  unfold hasOwnProperty. by rewrite Hown.
Qed.

(** C5 at its failing inputs. First page: the [data] object has the own
    property [hasOwnProperty]; the trigger throws before it writes
    anything, no data attribute is set and no handler is called. Second
    page: the argument is [null], which has no [data]; the trigger throws
    instead of doing nothing. *)
Theorem triggerData_throws_on_shadowed_method :
  let st := engine [TriggerData] [Handler TriggerData 7] in
  let h1 :=
    page [div "stylish({\'data\':{\'hasOwnProperty\':\'1\'}})"]
      (fun _ => []) in
  let h2 := page [div "stylish(null)"] (fun _ => []) in
  JSON_parse h1 (_extractArgumentString (style_content h1 0))
  = Some (JObj [(js "data", JObj [(js "hasOwnProperty", JStr (js "1"))])])
  /\ (process h1 st).1
     = inl (Error InProcessTrigger (Some (js "div")) TypeError)
  /\ datasets (process h1 st).2 = ∅
  /\ trace (process h1 st).2
     = [CallTrigger TriggerData [Element 0]
          (JObj [(js "data", JObj [(js "hasOwnProperty", JStr (js "1"))])])
          (Element 0)]
  /\ JSON_parse h2 (_extractArgumentString (style_content h2 0)) = Some JNull
  /\ (process h2 st).1
     = inl (Error InProcessTrigger (Some (js "div")) TypeError).
Proof. cbv zeta. repeat split; by vm_compute. Qed.

Lemma set_datasets_id st : set_datasets (fun ds => ds) st = st.
Proof. by destruct st. Qed.

Lemma dataset_set_element h n name value st :
  dataset_name h name = true ->
  dataset_set h (Element n) name value st
  = (inr tt,
     set_datasets (write_dataset n name (DOMString_of h value)) st).
Proof.
  unfold dataset_name, dataset_set.
  intros [Hhyphen Hvalid]%andb_prop.
  apply negb_true_iff in Hhyphen. by rewrite Hhyphen, Hvalid.
Qed.

Lemma forEach_dataset_set h ns name value st :
  dataset_name h name = true ->
  forEach (Element <$> ns) (fun node => dataset_set h node name value) st
  = (inr tt,
     set_datasets (write_all ns name (DOMString_of h value)) st).
Proof.
  intros Hname. revert st. induction ns as [|n ns IH]; intros st.
  - simpl. unfold ret. by rewrite set_datasets_id.
  - rewrite fmap_cons, forEach_cons, bind_eq.
    rewrite (dataset_set_element _ _ _ _ _ Hname), IH.
    by destruct st.
Qed.

Lemma plain_keeps_handlers m : plain_callback m -> keeps_handlers m.
Proof.
  intros Hplain st st' Hrun.
  destruct (Hplain st) as (st'' & Hrun' & Hh & Hr & _).
  rewrite Hrun in Hrun'. by injection Hrun' as <-.
Qed.

Lemma handler_calls_registered handlers nodes p t :
  handler_calls handlers nodes p t
  = (fun fn => CallHandler fn nodes p) <$> registered t handlers.
Proof. unfold handler_calls, registered. by rewrite <- list_fmap_compose. Qed.

(** Callbacks that return and record nothing more: the dispatch returns,
    and the record of calls has one more call per callback. *)
Lemma invoke_plain h fns nodes p st :
  (forall fn, fn ∈ fns -> plain_callback (handler_fn h fn nodes p)) ->
  exists st',
    invoke h fns nodes p st = (inr tt, st')
    /\ _handlers st' = _handlers st /\ retired st' = retired st
    /\ datasets st' = datasets st
    /\ trace st' = trace st ++ ((fun fn => CallHandler fn nodes p) <$> fns).
Proof.
  revert st. induction fns as [|fn fns IH]; intros st Hplain.
  - exists st. by rewrite app_nil_r.
  - cbn [invoke].
    destruct (Hplain fn (list_elem_of_here _ _)
                (set_trace (fun tr => tr ++ [CallHandler fn nodes p]) st))
      as (st1 & -> & Hh & Hr & Hd & Ht).
    destruct (IH st1) as (st' & -> & Hh' & Hr' & Hd' & Ht').
    { intros fn' Hfn'. apply Hplain. by right. }
    exists st'. split; [done|].
    rewrite Hh', Hr', Hd', Ht', Hh, Hr, Hd, Ht. destruct st. simpl.
    by rewrite <- (assoc_L (++)).
Qed.

Lemma hasOwnProperty_inherited data name st :
  own_prop data (js "hasOwnProperty") = None ->
  hasOwnProperty data name st
  = (inr (bool_decide (name ∈ own_keys data)), st).
Proof. intros Hown. unfold hasOwnProperty. by rewrite Hown. Qed.

(** The rounds of the [data] trigger over the names [names]: on elements,
    with names that the setter takes and callbacks that return and leave
    the handlers, the data attributes and the record of calls alone, each
    round writes the value of the name on every node and then invokes the
    callbacks of the trigger. *)
Lemma trace_data_rounds h ns data names st :
  own_prop data (js "hasOwnProperty") = None ->
  (forall name,
     name ∈ names -> name ∈ own_keys data /\ dataset_name h name = true) ->
  (forall fn,
     fn ∈ registered TriggerData (_handlers st) ->
     plain_callback
       (handler_fn h fn (Element <$> ns) (PayloadData data))) ->
  exists st',
    forEach names (fun name =>
      own ← hasOwnProperty data name;
      if own : bool then
        forEach (Element <$> ns) (fun node =>
          dataset_set h node name (own_prop data name)) ;;
        _processHandler h (Element <$> ns) (PayloadData data) TriggerData
      else ret tt) st
    = (inr tt, st')
    /\ _handlers st' = _handlers st /\ retired st' = retired st
    /\ datasets st' = write_keys h ns data names (datasets st)
    /\ trace st'
       = trace st
         ++ mjoin ((fun _ =>
                      handler_calls (_handlers st) (Element <$> ns)
                        (PayloadData data) TriggerData) <$> names).
Proof.
  intros Hown. revert st.
  induction names as [|name names IH]; intros st Hnames Hplain.
  - exists st. by rewrite app_nil_r.
  - destruct (Hnames name (list_elem_of_here _ _)) as [Hkey Hname].
    rewrite forEach_cons, bind_eq, bind_eq.
    rewrite (hasOwnProperty_inherited _ _ _ Hown).
    rewrite bool_decide_eq_true_2 by done.
    rewrite bind_eq, (forEach_dataset_set _ _ _ _ _ Hname).
    set (st1 := set_datasets _ st).
    rewrite _processHandler_eq.
    2:{ intros hd Hhd Ht. apply plain_keeps_handlers, Hplain.
        apply list_elem_of_fmap. exists hd. split; [done|].
        apply list_elem_of_filter. by split. }
    destruct (invoke_plain h (registered TriggerData (_handlers st1))
                (Element <$> ns) (PayloadData data) st1)
      as (st2 & -> & Hh & Hr & Hd & Ht); [exact Hplain|].
    destruct (IH st2) as (st' & -> & Hh' & Hr' & Hd' & Ht').
    { intros name' Hname'. apply Hnames. by right. }
    { by rewrite Hh. }
    exists st'. split; [done|].
    rewrite Hh', Hr', Hd', Ht', Hh, Hr, Hd, Ht.
    rewrite !handler_calls_registered. subst st1. destruct st. simpl.
    do 3 (split; [done|]). by rewrite <- (assoc_L (++)).
Qed.

(** When [data] has no own property [hasOwnProperty], the nodes are
    elements, the setter takes the own keys of [data] and the callbacks of
    the trigger return and leave the handlers, the data attributes and
    the record of calls alone, the trigger does one round per own key of
    [data], in enumeration order, and does not throw. *)
Lemma triggerData_rounds h ns args data sp st :
  ns <> [] ->
  own_prop args (js "data") = Some data ->
  own_prop data (js "hasOwnProperty") = None ->
  (forall name, name ∈ own_keys data -> dataset_name h name = true) ->
  (forall fn,
     fn ∈ registered TriggerData (_handlers st) ->
     plain_callback
       (handler_fn h fn (Element <$> ns) (PayloadData data))) ->
  exists st',
    triggerData h (Element <$> ns) args sp st = (inr tt, st')
    /\ _handlers st' = _handlers st /\ retired st' = retired st
    /\ datasets st' = write_keys h ns data (own_keys data) (datasets st)
    /\ trace st'
       = trace st
         ++ mjoin ((fun _ =>
                      handler_calls (_handlers st) (Element <$> ns)
                        (PayloadData data) TriggerData) <$> own_keys data).
Proof.
  intros Hns Hdata Hown Hnames Hplain.
  destruct (own_prop_Some_object _ _ _ Hdata) as [_ Hargs].
  unfold triggerData. rewrite bind_eq, (member_Some _ _ _ st Hdata).
  assert ((0 <? length (Element <$> ns)) = true) as ->.
  { rewrite length_fmap. destruct ns; [done|]. by apply Nat.ltb_lt; simpl; lia. }
  cbn [negb]. destruct (typeof_object (Some data)) eqn:Hobj; cbn [negb].
  - cbn [from_option id]. apply trace_data_rounds; [done| |done].
    intros name Hname. split; [done|by apply Hnames].
  - exists st. unfold ret. destruct data; try done.
    all: simpl; by rewrite app_nil_r.
Qed.

Lemma lookup_write_dataset_eq n name value ds :
  write_dataset n name value ds !! n ≫= (.!! name) = Some value.
Proof.
  unfold write_dataset. rewrite lookup_insert_eq. simpl.
  by rewrite lookup_insert_eq.
Qed.

Lemma lookup_write_dataset_keep n' name' value' n name value ds :
  ds !! n ≫= (.!! name) = Some value ->
  (n' = n -> name' = name -> value' = value) ->
  write_dataset n' name' value' ds !! n ≫= (.!! name) = Some value.
Proof.
  intros H Hsame. unfold write_dataset.
  destruct (decide (n' = n)) as [->|Hn].
  - rewrite lookup_insert_eq. simpl.
    destruct (decide (name' = name)) as [->|Hname].
    + rewrite lookup_insert_eq. f_equal. by apply Hsame.
    + rewrite lookup_insert_ne by done.
      destruct (ds !! n); [done|]. done.
  - by rewrite lookup_insert_ne.
Qed.

Lemma lookup_write_all ns name value ds n :
  n ∈ ns -> write_all ns name value ds !! n ≫= (.!! name) = Some value.
Proof.
  unfold write_all. revert ds.
  induction ns as [|n0 ns IH] using rev_ind; intros ds Hn;
    [by apply elem_of_nil in Hn|].
  rewrite foldl_app. simpl.
  apply elem_of_app in Hn as [Hn| ->%list_elem_of_singleton].
  - apply lookup_write_dataset_keep; [by apply IH|done].
  - apply lookup_write_dataset_eq.
Qed.

Lemma lookup_write_all_keep ns name' value' ds n name value :
  ds !! n ≫= (.!! name) = Some value ->
  (name' = name -> value' = value) ->
  write_all ns name' value' ds !! n ≫= (.!! name) = Some value.
Proof.
  unfold write_all. revert ds.
  induction ns as [|n0 ns IH] using rev_ind; intros ds H Hsame; [done|].
  rewrite foldl_app. simpl.
  apply lookup_write_dataset_keep; [by apply IH|auto].
Qed.

(** Every own key of [data] ends up, with the string of its value, in
    the dataset of every node. *)
Lemma datasets_data_rounds h ns data names ds n name :
  n ∈ ns -> name ∈ names ->
  write_keys h ns data names ds !! n ≫= (.!! name)
  = Some (DOMString_of h (own_prop data name)).
Proof.
  intros Hn. unfold write_keys. revert ds.
  induction names as [|name0 names IH] using rev_ind; intros ds Hname;
    [by apply elem_of_nil in Hname|].
  rewrite foldl_app. simpl.
  apply elem_of_app in Hname as [Hname| ->%list_elem_of_singleton].
  - apply lookup_write_all_keep; [by apply IH|]. by intros ->.
  - by apply lookup_write_all.
Qed.

(** ** Repeated passes *)

(** C3 at its failing inputs. First page: one element with an [on]
    expression and the [on] trigger of the engine; after two passes the
    element has two listeners and one click calls the registered handler
    twice. Second page: two elements, each with an [on] expression, and
    the [on] trigger of the IIFE draft, which removes the listener it
    remembers from the nodes of the current provider only; after two
    passes the first element has two listeners and one click calls the
    registered handler twice. *)
Theorem process_twice_fires_twice :
  let click n := Event (js "click") (Element n) in
  let content := "stylish({\'on\':{\'events\':[\'click\']}})"%string in
  let h1 := page [div content] (fun _ => []) in
  let st1 := engine [TriggerOn] [Handler TriggerOn 7] in
  let after1 := (process h1 ;; process h1) st1 in
  let h2 := page [div content; div content] (fun _ => []) in
  let st2 := engine [TriggerOnTracked] [Handler TriggerOnTracked 7] in
  let after2 := (process h2 ;; process h2) st2 in
  after1.1 = inr tt
  /\ length (default [] (listeners after1.2 !! 0)) = 2
  /\ trace (dispatchEvent h1 0 (js "click") after1.2).2
     = trace after1.2
       ++ [CallHandler 7 [Element 0] (PayloadEvent (click 0));
           CallHandler 7 [Element 0] (PayloadEvent (click 0))]
  /\ after2.1 = inr tt
  /\ length (default [] (listeners after2.2 !! 0)) = 2
  /\ trace (dispatchEvent h2 0 (js "click") after2.2).2
     = trace after2.2
       ++ [CallHandler 7 [Element 0] (PayloadEvent (click 0));
           CallHandler 7 [Element 0] (PayloadEvent (click 0))].
Proof. cbv zeta. repeat split; by vm_compute. Qed.

(** With one provider the draft keeps one listener per node and event:
    the second pass removes the closure of the first. *)
Example tracked_single_provider :
  let h :=
    page [div "stylish({\'on\':{\'events\':[\'click\']}})"] (fun _ => []) in
  let st := engine [TriggerOnTracked] [Handler TriggerOnTracked 7] in
  let after := (process h ;; process h) st in
  length (default [] (listeners after.2 !! 0)) = 1
  /\ trace (dispatchEvent h 0 (js "click") after.2).2
     = trace after.2
       ++ [CallHandler 7 [Element 0]
             (PayloadEvent (Event (js "click") (Element 0)))].
Proof. cbv zeta. split; by vm_compute. Qed.

(** * Further properties of the engine *)

(** ** The extractor *)

Lemma Forall_replace_escaped_quotes (P : N -> Prop) s :
  P DQUOTE -> Forall P s -> Forall P (replace_escaped_quotes s).
Proof.
  intros Hq. induction s as [|c|c d s IH1 IH2] using jsstring_pair_ind;
    [done..|].
  intros Hs. rewrite replace_escaped_quotes_cons.
  apply Forall_cons in Hs as [Hc Hs]. pose proof Hs as Hs'.
  apply Forall_cons in Hs' as [Hd Hs'].
  destruct (_ && _); constructor; auto.
Qed.

Lemma trim_sublist s : exists pre post, s = pre ++ trim s ++ post.
Proof. destruct (trim_spec s) as (pre & post & H & _). eauto. Qed.

Lemma length_trim s : length (trim s) <= length s.
Proof.
  destruct (trim_sublist s) as (pre & post & H).
  rewrite H at 2. rewrite !length_app. lia.
Qed.

(** X1. The result of the extractor has no white space at its ends and no
    line terminator anywhere, and unless it is empty it is at least nine
    characters shorter than the content (the marker name, the two
    parentheses). *)
Theorem extractArgumentString_shape content :
  no_space_at_ends (_extractArgumentString content)
  /\ Forall (fun c => is_line_terminator c = false)
       (_extractArgumentString content)
  /\ (_extractArgumentString content = []
      \/ length (_extractArgumentString content) + 9 <= length content).
Proof.
  rewrite _extractArgumentString_eq.
  destruct (RegExp.run _ true false content) as [[cap rest]|] eqn:Hrun.
  2: { split; [|split; [constructor|by left]].
       split; intros c t' H; [done|by destruct t']. }
  apply run_expression_sound in Hrun as [-> Hexp].
  rewrite (proj2 (Nat.ltb_lt _ _) (Expression_length _ _ Hexp)), app_nil_r.
  rewrite unescape_quotes_eq. split; [|split].
  - by destruct (trim_spec (replace_escaped_quotes cap)) as (? & ? & _ & _ & _ & ?).
  - destruct Hexp as [q1 inner q2 _ _ Hinner].
    pose proof (Forall_replace_escaped_quotes _ inner eq_refl Hinner) as H.
    destruct (trim_sublist (replace_escaped_quotes inner)) as (pre & post & Heq).
    rewrite Heq in H. by apply Forall_app in H as [_ [H _]%Forall_app].
  - right. destruct Hexp as [q1 inner q2 _ _ _].
    pose proof (length_trim (replace_escaped_quotes inner)).
    pose proof (proj1 (length_replace_escaped_quotes inner)).
    rewrite !length_app. simpl. lia.
Qed.

(** X2. The extractor of the IIFE draft, which tests the length of the
    content against zero, and the extractor of the engine, which tests it
    against the length of the marker name, return the same text on every
    content: the length test never decides. *)
Theorem extractArgument_same content :
  _extractArgument content = _extractArgumentString content.
Proof.
  rewrite _extractArgumentString_eq.
  unfold _extractArgument, RegExp.test, RegExp.replace_by_group1.
  rewrite exec_expression.
  destruct (RegExp.run _ true false content) as [[cap rest]|] eqn:Hrun; simpl.
  - apply run_expression_sound in Hrun as [-> Hexp].
    pose proof (Expression_length _ _ Hexp) as Hlen.
    change (length ATTRIBUTE_NAME) with 7 in Hlen.
    rewrite (proj2 (Nat.ltb_lt 7 _) Hlen).
    assert ((0 <? length content) = true) as ->; [|done].
    apply Nat.ltb_lt. lia.
  - by rewrite andb_false_r.
Qed.

(** A loop over an array that stops at the first element that throws:
    the body has to leave the array as it is only before that element. *)
Lemma forEach_from_stops {A} (array : state -> list A) (f : A -> M unit)
    (l : list A) x post e st2 :
  forall pre done st st1,
    l = done ++ pre ++ x :: post ->
    array st = l ->
    (forall y sta stb,
       y ∈ pre -> array sta = l -> f y sta = (inr tt, stb) ->
       array stb = l) ->
    forEach pre f st = (inr tt, st1) ->
    f x st1 = (inl e, st2) ->
    forEach_from array f (length done) (length pre + S (length post)) st
    = (inl e, st2).
Proof.
  induction pre as [|y pre IH]; intros done st st1 Hl Harray Hkeep Hpre Hx;
    simpl in Hl.
  - injection Hpre as <-. cbn [length Nat.add forEach_from].
    rewrite bind_eq. unfold gets. rewrite Harray, Hl.
    rewrite list_lookup_middle by done. by rewrite bind_eq, Hx.
  - rewrite forEach_cons, bind_eq in Hpre.
    destruct (f y st) as [[e'|[]] sta] eqn:Hy; [done|].
    cbn [length Nat.add forEach_from].
    rewrite bind_eq. unfold gets. rewrite Harray, Hl.
    rewrite list_lookup_middle by done. rewrite bind_eq, Hy.
    replace (S (length done)) with (length (done ++ [y]))
      by (rewrite length_app; simpl; lia).
    apply (IH (done ++ [y]) sta st1).
    + by rewrite Hl, <- (assoc_L (++)).
    + apply (Hkeep y st sta); [by left|done..].
    + intros z stb stc Hz. apply Hkeep. by right.
    + done.
    + done.
Qed.

Lemma forEach_array_stops {A} (array : state -> list A) (f : A -> M unit)
    pre x post st st1 e st2 :
  array st = pre ++ x :: post ->
  (forall y sta stb,
     y ∈ pre -> array sta = array st -> f y sta = (inr tt, stb) ->
     array stb = array st) ->
  forEach pre f st = (inr tt, st1) ->
  f x st1 = (inl e, st2) ->
  forEach_array array f st = (inl e, st2).
Proof.
  intros Harray Hkeep Hpre Hx. unfold forEach_array.
  rewrite bind_eq. unfold gets.
  replace (length (array st)) with (length pre + S (length post))
    by (rewrite Harray, length_app; simpl; lia).
  by apply (forEach_from_stops array f (array st) x post e st2 pre [] st st1).
Qed.

(** ** Trigger dispatch *)

Lemma forEach_dispatch h ts nodes args sp st :
  forEach ts (fun t =>
    try_catch (call_trigger h t nodes args sp)
      (fun e => throw (caught InProcessTrigger (label h sp) e))) st
  = dispatch h ts nodes args sp st.
Proof.
  revert st. induction ts as [|t ts IH]; intros st; [done|].
  rewrite forEach_cons, bind_eq. unfold try_catch at 1. cbn [dispatch].
  destruct (call_trigger h t nodes args sp st) as [[e|[]] st'];
    [by destruct e|].
  apply IH.
Qed.

Lemma try_catch_returns {A} (m : M A) (handle : exn -> M A) st a st' :
  (forall e st1, exists e', handle e st1 = (inl e', st1)) ->
  try_catch m handle st = (inr a, st') -> m st = (inr a, st').
Proof.
  intros Hthrows. unfold try_catch.
  destruct (m st) as [[e|a'] st1]; [|done].
  destruct (Hthrows e st1) as [e' ->]. done.
Qed.

(** While the triggers leave the array of triggers as it is,
    [_processTrigger] is the dispatch to the registered triggers. *)
Lemma _processTrigger_eq h nodes args sp st :
  (forall t,
     t ∈ _triggers st -> keeps_triggers (call_trigger h t nodes args sp)) ->
  _processTrigger h nodes args sp st
  = dispatch h (_triggers st) nodes args sp st.
Proof.
  intros Hkeep. unfold _processTrigger.
  rewrite forEach_array_static; [apply forEach_dispatch|].
  intros t st1 st' Ht Harray Hrun.
  apply try_catch_returns in Hrun; [|by eexists].
  by rewrite (Hkeep t Ht _ _ Hrun).
Qed.

(** X3. When a trigger throws, [_processTrigger] throws an [Error] that
    names the provider and carries the cause; the triggers registered
    after it are not called, and what the earlier triggers and the
    throwing one did to the page stays done. The earlier triggers are
    taken to leave the array of triggers as it is, and what is thrown is
    not [null] or [undefined]. *)
Theorem processTrigger_stops_at_throw h nodes args sp st
    before t after st1 e st2 :
  _triggers st = before ++ t :: after ->
  (forall t',
     t' ∈ before -> keeps_triggers (call_trigger h t' nodes args sp)) ->
  dispatch h before nodes args sp st = (inr tt, st1) ->
  call_trigger h t nodes args sp st1 = (inl e, st2) ->
  e <> Nullish ->
  _processTrigger h nodes args sp st
  = (inl (Error InProcessTrigger (label h sp) e), st2).
Proof.
  intros Hts Hkeep Hbefore Ht He. unfold _processTrigger.
  apply (forEach_array_stops _ _ before t after st st1); [done| | |].
  - intros t' sta stb Ht' Harray Hrun.
    apply try_catch_returns in Hrun; [|by eexists].
    by rewrite (Hkeep t' Ht' _ _ Hrun).
  - by rewrite forEach_dispatch.
  - unfold try_catch. rewrite Ht. by destruct e.
Qed.

Lemma processTrigger_stops_at_throw_witness :
  let h :=
    with_functions (page [div ""] (fun _ => []))
      (fun _ _ _ => ret tt)
      (fun _ _ _ _ => addHandler TriggerData 5) in
  let st := engine [TriggerCustom 1; TriggerData; TriggerOn] [] in
  (_processTrigger h [Element 0] JNull (Element 0) st).1
  = inl (Error InProcessTrigger (Some (js "div")) TypeError)
  /\ _handlers (_processTrigger h [Element 0] JNull (Element 0) st).2
     = [Handler TriggerData 5]
  /\ trace (_processTrigger h [Element 0] JNull (Element 0) st).2
     = [CallTrigger (TriggerCustom 1) [Element 0] JNull (Element 0);
        CallTrigger TriggerData [Element 0] JNull (Element 0)].
Proof.
  intros h st.
  rewrite (processTrigger_stops_at_throw h
             [Element 0] JNull (Element 0) st
             [TriggerCustom 1] TriggerData [TriggerOn]
             (dispatch h [TriggerCustom 1] [Element 0] JNull (Element 0) st).2
             TypeError
             (call_trigger h TriggerData [Element 0] JNull (Element 0)
                (dispatch h [TriggerCustom 1] [Element 0] JNull (Element 0)
                   st).2).2).
  - repeat split; vm_compute; reflexivity.
  - reflexivity.
  - intros t' Ht' sta stb. apply list_elem_of_singleton in Ht' as ->.
    by intros [= <-].
  - vm_compute. reflexivity.
  - vm_compute. reflexivity.
  - done.
Defined.

Lemma member_not_null v k st :
  v <> JNull -> member v k st = (inr (own_prop v k), st).
Proof. by destruct v. Qed.

(** X4. The [on] trigger leaves the page and the engine as they are, and
    does not throw, when the argument is not [null] and the node list is
    empty, or [on] is missing or is no object, or [on] is an object other
    than [null] whose [events] is no array. *)
Theorem triggerOn_ignores nodes args sp st :
  args <> JNull ->
  nodes = []
  \/ typeof_object (own_prop args (js "on")) = false
  \/ (exists on,
        own_prop args (js "on") = Some on /\ on <> JNull
        /\ isArray (own_prop on (js "events")) = None) ->
  triggerOn nodes args sp st = (inr tt, st).
Proof.
  intros Hargs Hcase. unfold triggerOn.
  rewrite bind_eq, (member_not_null _ _ _ Hargs).
  destruct Hcase as [-> |[Hno|(on & Hon & Hnull & Hev)]]; [done| |].
  - destruct (0 <? length nodes); [|done]. cbn [negb]. by rewrite Hno.
  - destruct (0 <? length nodes); [|done]. cbn [negb]. rewrite Hon.
    destruct (typeof_object (Some on)); [|done]. cbn [negb from_option id].
    rewrite bind_eq, (member_not_null _ _ _ Hnull). by rewrite Hev.
Qed.

Lemma triggerOn_ignores_witness :
  triggerOn [Element 0] (JObj [(js "data", JObj [])]) (Element 0) Stylish
  = (inr tt, Stylish)
  /\ triggerOn [Element 0]
       (JObj [(js "on", JObj [(js "events", JStr (js "click"))])])
       (Element 0) Stylish
     = (inr tt, Stylish).
Proof.
  split.
  - apply triggerOn_ignores; [done|]. right. by left.
  - apply triggerOn_ignores; [done|]. right. right.
    by exists (JObj [(js "events", JStr (js "click"))]).
Defined.

(** X5. The [data] trigger leaves the page and the engine as they are,
    and does not throw, when the argument is not [null] and the node list
    is empty, or [data] is missing or is no object, or [data] has no own
    key ([null], an empty object, an empty array). *)
Theorem triggerData_ignores h nodes args sp st :
  args <> JNull ->
  nodes = []
  \/ typeof_object (own_prop args (js "data")) = false
  \/ (exists data,
        own_prop args (js "data") = Some data /\ own_keys data = []) ->
  triggerData h nodes args sp st = (inr tt, st).
Proof.
  intros Hargs Hcase. unfold triggerData.
  rewrite bind_eq, (member_not_null _ _ _ Hargs).
  destruct Hcase as [-> |[Hno|(data & Hdata & Hkeys)]]; [done| |].
  - destruct (0 <? length nodes); [|done]. cbn [negb]. by rewrite Hno.
  - destruct (0 <? length nodes); [|done]. cbn [negb]. rewrite Hdata.
    destruct (typeof_object (Some data)); [|done]. cbn [negb from_option id].
    by rewrite Hkeys.
Qed.

Lemma triggerData_ignores_witness :
  let h := page [] (fun _ => []) in
  triggerData h [Element 0] (JStr (js "hello")) (Element 0) Stylish
  = (inr tt, Stylish)
  /\ triggerData h [Element 0] (JObj [(js "data", JNull)]) (Element 0)
       Stylish
     = (inr tt, Stylish).
Proof.
  split.
  - apply triggerData_ignores; [done|]. right. by left.
  - apply triggerData_ignores; [done|]. right. right. by exists JNull.
Defined.

(** X6. Both built-in triggers throw a TypeError on the argument [null],
    whatever the nodes are, the empty list included; the [on] trigger also
    throws when the node list is not empty and [on] is [null]. Nothing
    has changed when they throw. *)
Theorem triggers_throw_on_null h nodes sp st :
  triggerOn nodes JNull sp st = (inl TypeError, st)
  /\ triggerData h nodes JNull sp st = (inl TypeError, st)
  /\ (forall args,
        nodes <> [] -> own_prop args (js "on") = Some JNull ->
        triggerOn nodes args sp st = (inl TypeError, st)).
Proof.
  split; [done|]. split; [done|]. intros args Hnodes Hon.
  unfold triggerOn. rewrite bind_eq, (member_Some _ _ _ st Hon).
  destruct nodes; [done|]. reflexivity.
Qed.

Lemma triggers_throw_on_null_witness :
  triggerOn [Element 0] (JObj [(js "on", JNull)]) (Element 0) Stylish
  = (inl TypeError, Stylish).
Proof.
  by apply (proj2 (proj2 (triggers_throw_on_null (page [] (fun _ => []))
                            [Element 0] (Element 0) Stylish))).
Defined.

(** ** Registration, continued *)

Lemma indexOf_None {A} `{EqDecision A} (x : A) l :
  x ∉ l -> indexOf x l = None.
Proof.
  induction l as [|y l IH]; [done|]. intros Hnot. simpl.
  rewrite bool_decide_eq_false_2.
  - rewrite IH; [done|]. intros Hin. apply Hnot. by right.
  - intros ->. apply Hnot. by left.
Qed.

Lemma indexOf_app_fresh {A} `{EqDecision A} (x : A) l :
  x ∉ l -> indexOf x (l ++ [x]) = Some (length l).
Proof.
  induction l as [|y l IH]; intros Hnot; simpl.
  - by rewrite bool_decide_eq_true_2.
  - rewrite bool_decide_eq_false_2.
    + rewrite IH; [done|]. intros Hin. apply Hnot. by right.
    + intros ->. apply Hnot. by left.
Qed.

Lemma indexOf_app_present {A} `{EqDecision A} (x : A) l k i :
  indexOf x l = Some i -> indexOf x (l ++ k) = Some i.
Proof.
  revert i. induction l as [|y l IH]; intros i; [done|]. simpl.
  case_bool_decide; [done|].
  destruct (indexOf x l) as [j|]; [|done]. intros [= <-].
  by rewrite (IH j).
Qed.

Lemma indexOf_lt {A} `{EqDecision A} (x : A) l i :
  indexOf x l = Some i -> i < length l.
Proof.
  revert i. induction l as [|y l IH]; intros i; [done|]. simpl.
  case_bool_decide; [intros [= <-]; lia|].
  destruct (indexOf x l) as [j|]; [|done]. intros [= <-].
  specialize (IH j eq_refl). lia.
Qed.

Lemma delete_app_lt {A} (l k : list A) i :
  i < length l -> delete i (l ++ k) = delete i l ++ k.
Proof.
  revert i. induction l as [|y l IH]; intros [|i] Hi; simpl in *;
    try lia; [done|].
  f_equal. apply IH. lia.
Qed.

Lemma set_triggers_id st : set_triggers (fun ts => ts) st = st.
Proof. by destruct st. Qed.

(** X7. [removeTrigger] of a trigger that is not registered changes
    nothing: the triggers and all handlers stay, the handlers registered
    under that trigger identity included. *)
Theorem removeTrigger_unregistered t st :
  t ∉ _triggers st -> removeTrigger t st = (inr tt, st).
Proof.
  intros Hnot. unfold removeTrigger. rewrite bind_eq. unfold gets.
  by rewrite (indexOf_None _ _ Hnot).
Qed.

Lemma removeTrigger_unregistered_witness :
  removeTrigger TriggerOn
    (engine [TriggerData] [Handler TriggerOn 1; Handler TriggerData 2])
  = (inr tt, engine [TriggerData] [Handler TriggerOn 1; Handler TriggerData 2]).
Proof.
  apply removeTrigger_unregistered.
  intros [H|H%elem_of_nil]%elem_of_cons; [discriminate H|done].
Defined.

(** X8. [addTrigger t] followed by [removeTrigger t] removes the first
    occurrence of [t], not necessarily the one just added: the trigger
    list is the one before when [t] was not registered, and else the one
    before without its first [t] and with [t] at the end, so that [t]
    stays registered. In both cases only the handlers under [t] are
    left. *)
Theorem addTrigger_then_removeTrigger t st :
  (addTrigger t ;; removeTrigger t) st
  = (inr tt,
     assign_handlers (filter (fun handler => h_trigger handler = t))
       (set_triggers (fun ts =>
          match indexOf t ts with
          | Some index => delete index ts ++ [t]
          | None => ts
          end) st)).
Proof.
  rewrite bind_eq. unfold addTrigger, modify, removeTrigger.
  rewrite bind_eq. unfold gets. destruct st as [ts hs ds ls nf ch ph tr ps rt].
  unfold set_triggers, assign_handlers. simpl.
  destruct (indexOf t ts) as [i|] eqn:Hi.
  - rewrite (indexOf_app_present _ _ _ _ Hi), bind_eq. unfold modify. simpl.
    by rewrite (delete_app_lt _ _ _ (indexOf_lt _ _ _ Hi)).
  - assert (t ∉ ts) as Hnot.
    { intros Hin. destruct (indexOf_Some t ts Hin) as (i & Hi' & _).
      congruence. }
    rewrite (indexOf_app_fresh _ _ Hnot), bind_eq. unfold modify. simpl.
    assert (delete (length ts) (ts ++ [t]) = ts) as ->; [|done].
    clear. induction ts as [|y ts IH]; [done|]. simpl. by rewrite IH.
Qed.

Example addTrigger_then_removeTrigger_registered :
  _triggers ((addTrigger TriggerOn ;; removeTrigger TriggerOn)
               (engine [TriggerData; TriggerOn; TriggerCustom 1] [])).2
  = [TriggerData; TriggerCustom 1; TriggerOn].
Proof. reflexivity. Qed.

(** ** Handler registration, continued *)

Lemma handler_matches handler t fn :
  bool_decide (h_trigger handler = t) && bool_decide (h_fn handler = fn)
  = bool_decide (handler = Handler t fn).
Proof.
  destruct handler as [t' fn']. simpl.
  repeat case_bool_decide; simplify_eq; done.
Qed.

Lemma removeHandler_result_cons t fn handler rest :
  removeHandler_result t fn (handler :: rest)
  = if bool_decide (handler = Handler t fn)
    then match rest with
         | [] => []
         | next :: rest' => next :: removeHandler_result t fn rest'
         end
    else handler :: removeHandler_result t fn rest.
Proof. simpl. by rewrite handler_matches. Qed.

(** An induction that follows the loop of [removeHandler]. *)
Lemma handler_pair_ind (P : list handler -> Prop) :
  P [] ->
  (forall a, P [a]) ->
  (forall a b l, P l -> P (b :: l) -> P (a :: b :: l)) ->
  forall l, P l.
Proof.
  intros Hnil Hone Hstep l.
  assert (P l /\ forall a, P (a :: l)) as [H _]; [|exact H].
  induction l as [|b l [IH1 IH2]]; [by split|].
  split; [apply IH2|]. intros a. by apply Hstep.
Qed.

(** X9. [removeHandler] only removes registrations of the given pair: the
    registrations of other pairs are all kept, in their order, and what
    is left is a sublist of the list before. *)
Theorem removeHandler_keeps_others t fn st :
  filter (fun handler => handler <> Handler t fn)
    (_handlers (removeHandler t fn st).2)
  = filter (fun handler => handler <> Handler t fn) (_handlers st)
  /\ _handlers (removeHandler t fn st).2 `sublist_of` _handlers st.
Proof.
  rewrite removeHandler_eq. simpl.
  induction (_handlers st) as [|a|a b l [IH1 IH1'] [IH2 IH2']]
    using handler_pair_ind.
  - done.
  - rewrite removeHandler_result_cons. case_bool_decide as Ha.
    + split; [|apply sublist_nil_l].
      by rewrite filter_cons_False by (by intros ?).
    + done.
  - rewrite removeHandler_result_cons. case_bool_decide as Ha.
    + split.
      * rewrite (filter_cons_False _ a) by (by intros ?).
        rewrite !(filter_cons _ b), IH1. done.
      * apply sublist_cons. by apply sublist_skip.
    + split.
      * by rewrite !(filter_cons _ a), IH2.
      * by apply sublist_skip.
Qed.

Lemma removeHandler_result_isolated t fn hs :
  (forall before after,
     hs <> before ++ Handler t fn :: Handler t fn :: after) ->
  removeHandler_result t fn hs
  = filter (fun handler => handler <> Handler t fn) hs.
Proof.
  induction hs as [|a|a b l IH1 IH2] using handler_pair_ind; intros Hiso.
  - done.
  - rewrite removeHandler_result_cons, filter_cons.
    case_bool_decide as Ha.
    + by rewrite decide_False by (by intros ?).
    + by rewrite decide_True.
  - rewrite removeHandler_result_cons, filter_cons.
    case_bool_decide as Ha.
    + rewrite decide_False by (by intros ?).
      assert (b <> Handler t fn) as Hb.
      { intros ->. subst a. by apply (Hiso [] l). }
      rewrite filter_cons_True by done. f_equal. apply IH1.
      intros before after ->. by apply (Hiso (a :: b :: before) after).
    + rewrite decide_True by done. f_equal. apply IH2.
      intros before after Heq. apply (Hiso (a :: before) after).
      by rewrite Heq.
Qed.

(** X10. When no two registrations of the pair are next to each other in
    the handler list, [removeHandler] removes every registration of the
    pair. *)
Theorem removeHandler_removes_isolated t fn st :
  (forall before after,
     _handlers st <> before ++ Handler t fn :: Handler t fn :: after) ->
  _handlers (removeHandler t fn st).2
  = filter (fun handler => handler <> Handler t fn) (_handlers st)
  /\ Handler t fn ∉ _handlers (removeHandler t fn st).2.
Proof.
  intros Hiso. rewrite removeHandler_eq. simpl.
  rewrite (removeHandler_result_isolated _ _ _ Hiso).
  split; [done|]. intros [Hne _]%list_elem_of_filter. done.
Qed.

Lemma removeHandler_removes_isolated_witness :
  _handlers (removeHandler TriggerOn 1
               (engine [] [Handler TriggerOn 1; Handler TriggerData 2;
                           Handler TriggerOn 1])).2
  = [Handler TriggerData 2].
Proof.
  refine (eq_trans (proj1 (removeHandler_removes_isolated TriggerOn 1
            (engine [] [Handler TriggerOn 1; Handler TriggerData 2;
                        Handler TriggerOn 1]) _)) _).
  - intros [|a [|b [|c [|d before]]]] after Heq; simplify_eq.
  - reflexivity.
Defined.

Lemma filter_not_elem_of (H : handler) (hs : list handler) :
  H ∉ hs -> filter (fun handler => handler <> H) hs = hs.
Proof.
  induction hs as [|a hs IH]; [done|]. intros Hnot.
  rewrite filter_cons_True.
  - f_equal. apply IH. intros Hin. apply Hnot. by right.
  - intros ->. apply Hnot. by left.
Qed.

Lemma set_handlers_id st : set_handlers (fun hs => hs) st = st.
Proof. by destruct st. Qed.

(** X11. Registering a pair that is not registered and removing it again
    gives back the state before: [removeHandler] undoes [addHandler]. *)
Theorem addHandler_then_removeHandler t fn st :
  Handler t fn ∉ _handlers st ->
  (addHandler t fn ;; removeHandler t fn) st = (inr tt, st).
Proof.
  intros Hnot. rewrite bind_eq. unfold addHandler, modify.
  rewrite removeHandler_eq.
  destruct st as [ts hs ds ls nf ch ph tr ps rt]. unfold set_handlers. simpl in *.
  rewrite removeHandler_result_isolated.
  - rewrite filter_app, (filter_not_elem_of _ _ Hnot), filter_cons_False,
      filter_nil, app_nil_r; [done|]. by intros ?.
  - intros before after Heq. apply Hnot.
    assert (length before < length hs) as Hlt.
    { apply (f_equal length) in Heq. rewrite !length_app in Heq.
      simpl in Heq. lia. }
    apply (f_equal (fun l => l !! length before)) in Heq.
    rewrite lookup_app_l in Heq by done.
    rewrite list_lookup_middle in Heq by done.
    by apply list_elem_of_lookup_2 in Heq.
Qed.

Lemma addHandler_then_removeHandler_witness :
  (addHandler TriggerOn 1 ;; removeHandler TriggerOn 1)
    (engine [TriggerOn] [Handler TriggerData 1; Handler TriggerOn 2])
  = (inr tt, engine [TriggerOn] [Handler TriggerData 1; Handler TriggerOn 2]).
Proof.
  apply addHandler_then_removeHandler.
  intros Hin. repeat (apply elem_of_cons in Hin as [Hin|Hin]; [discriminate Hin|]).
  by apply elem_of_nil in Hin.
Defined.

(** ** A pass over the page *)

Lemma set_processed_app l1 l2 st :
  set_processed (fun ps => ps ++ l2) (set_processed (fun ps => ps ++ l1) st)
  = set_processed (fun ps => ps ++ (l1 ++ l2)) st.
Proof. destruct st. unfold set_processed. simpl. by rewrite app_assoc. Qed.

Lemma set_processed_nil st : set_processed (fun ps => ps ++ []) st = st.
Proof. destruct st. unfold set_processed. simpl. by rewrite app_nil_r. Qed.

Lemma forEach_inert h sps st :
  Forall (inert h) sps ->
  forEach sps (_processStyleProvider h) st
  = (inr tt, set_processed (fun ps => ps ++ sps) st).
Proof.
  intros Hall. revert st.
  induction Hall as [|sp sps (content & Hc & Harg) _ IH]; intros st.
  - by rewrite set_processed_nil.
  - rewrite forEach_cons, bind_eq.
    rewrite (_processStyleProvider_inert _ _ _ _ Hc Harg), IH.
    by rewrite set_processed_app.
Qed.

Lemma forEach_process_node_inert h ns st :
  Forall (fun n => is_Some (providers_of_node h n)) ns ->
  Forall (inert h) (providers_of h ns) ->
  forEach ns (process_node h) st
  = (inr tt, set_processed (fun ps => ps ++ providers_of h ns) st).
Proof.
  intros Hsome. revert st.
  induction Hsome as [|n ns [sps Hn] _ IH]; intros st Hall.
  - by rewrite set_processed_nil.
  - unfold providers_of in Hall. rewrite bind_cons, Hn in Hall. simpl in Hall.
    apply Forall_app in Hall as [Hn_all Hrest].
    rewrite forEach_cons, bind_eq, process_node_eq, Hn.
    rewrite (forEach_inert _ _ _ Hn_all), (IH _ Hrest).
    rewrite set_processed_app. unfold providers_of at 2.
    by rewrite bind_cons, Hn.
Qed.

(** X12. A pass over a page on which no provider carries an expression:
    when every marked [link] and [style] element has a sheet and every
    provider has a declaration block whose content gives no argument
    string, [process] returns normally and changes nothing on the page or
    in the engine; it only visits the providers, element by element. *)
Theorem process_without_expressions h st :
  let marked := querySelectorAll h (datasets st) QUERY_SELECTOR in
  (forall n, n ∈ marked -> is_Some (providers_of_node h n)) ->
  (forall sp, sp ∈ providers_of h marked -> inert h sp) ->
  process h st
  = (inr tt, set_processed (fun ps => ps ++ providers_of h marked) st).
Proof.
  intros marked Hsome Hinert. unfold process. rewrite bind_eq. unfold gets.
  apply forEach_process_node_inert; by apply Forall_forall.
Qed.

Lemma process_without_expressions_witness :
  let rule := CssObject true (js "p") (Some (js "none")) None in
  let sheet := CssObject false [] None (Some [rule]) in
  let h :=
    page [div "hello"; ElementOf (js "style") [] (Some sheet)]
      (fun _ => []) in
  process h (engine [TriggerOn; TriggerData] [])
  = (inr tt,
     set_processed (fun ps => ps ++ [Element 0; Rule rule])
       (engine [TriggerOn; TriggerData] [])).
Proof.
  intros rule sheet h.
  pose proof
    (process_without_expressions h (engine [TriggerOn; TriggerData] []))
    as Hpass.
  cbv zeta in Hpass.
  assert (querySelectorAll h (datasets (engine [TriggerOn; TriggerData] []))
            QUERY_SELECTOR = [0; 1]) as Hmarked by (vm_compute; reflexivity).
  rewrite Hmarked in Hpass.
  assert (providers_of h [0; 1] = [Element 0; Rule rule]) as Hproviders
    by (vm_compute; reflexivity).
  rewrite Hproviders in Hpass.
  apply Hpass.
  - intros n Hn. apply elem_of_cons in Hn as [->|Hn].
    { exists [Element 0]. vm_compute; reflexivity. }
    apply elem_of_cons in Hn as [->|Hn].
    { exists [Rule rule]. vm_compute; reflexivity. }
    by apply elem_of_nil in Hn.
  - intros sp Hsp. apply elem_of_cons in Hsp as [->|Hsp].
    { exists (js "hello"). split; vm_compute; reflexivity. }
    apply elem_of_cons in Hsp as [->|Hsp].
    { exists (js "none"). split; vm_compute; reflexivity. }
    by apply elem_of_nil in Hsp.
Defined.

(** X13. A marked [link] or [style] element without a sheet ends the pass
    with a TypeError: the elements before it have been processed, the
    elements after it are not visited, and the error is not wrapped. *)
Theorem process_throws_without_sheet h st before n after st1 :
  querySelectorAll h (datasets st) QUERY_SELECTOR = before ++ n :: after ->
  localName h n = js "link" \/ localName h n = js "style" ->
  sheet h n = None ->
  forEach before (process_node h) st = (inr tt, st1) ->
  process h st = (inl TypeError, st1).
Proof.
  intros Hmarked Hname Hsheet Hbefore. unfold process.
  rewrite bind_eq. unfold gets. rewrite Hmarked.
  apply (forEach_stops _ _ _ _ _ _ _ _ Hbefore).
  unfold process_node. rewrite bool_decide_eq_true_2, Hsheet; [done|].
  destruct Hname as [-> | ->]; [by left|by right; left].
Qed.

Lemma process_throws_without_sheet_witness :
  let h :=
    page [div "stylish({\'data\':{\'seen\':\'1\'}})";
          ElementOf (js "link") [] None;
          div "stylish({\'data\':{\'seen\':\'2\'}})"]
      (fun _ => []) in
  let r := process h (engine [TriggerData] []) in
  r.1 = inl TypeError
  /\ processed r.2 = [Element 0]
  /\ datasets r.2 !! 2 = None.
Proof.
  intros h r. subst r.
  rewrite (process_throws_without_sheet h (engine [TriggerData] []) [0] 1 [2]
             (forEach [0] (process_node h) (engine [TriggerData] [])).2).
  - repeat split; vm_compute; reflexivity.
  - vm_compute; reflexivity.
  - left. vm_compute; reflexivity.
  - vm_compute; reflexivity.
  - vm_compute; reflexivity.
Defined.

(** X14. The walker hands every rule to the processor, also a rule that
    has no declaration block, such as a grouping rule: at such a rule the
    walk ends with a TypeError, after the rules before it, its own nested
    rules included, have been processed. *)
Theorem walk_throws_at_rule_without_style h o st before path r after st1 :
  nested_rules o = before ++ (path, r) :: after ->
  style r = None ->
  forEach (Rule <$> before.*2) (_processStyleProvider h) st = (inr tt, st1) ->
  _processStyleObject h o st
  = (inl TypeError, set_processed (fun ps => ps ++ [Rule r]) st1).
Proof.
  intros Hnested Hstyle Hbefore.
  rewrite _processStyleObject_eq, Hnested, !fmap_app, !fmap_cons.
  apply (forEach_stops _ _ _ _ _ _ _ _ Hbefore).
  unfold _processStyleProvider. rewrite bind_eq. unfold modify.
  rewrite bind_eq, style_content_of_eq. simpl. by rewrite Hstyle.
Qed.

Lemma walk_throws_at_rule_without_style_witness :
  let inner := CssObject true (js "p") (Some (js "none")) None in
  let media := CssObject false [] None (Some [inner]) in
  let last := CssObject true (js "p") (Some (js "none")) None in
  let sheet := CssObject false [] None (Some [media; last]) in
  let h := page [ElementOf (js "style") [] (Some sheet)] (fun _ => []) in
  process h (engine [TriggerOn] [])
  = (inl TypeError,
     set_processed (fun ps => ps ++ [Rule inner; Rule media])
       (engine [TriggerOn] [])).
Proof.
  intros inner media last sheet h.
  unfold process. rewrite bind_eq. unfold gets.
  change (querySelectorAll h (datasets (engine [TriggerOn] [])) QUERY_SELECTOR)
    with [0].
  rewrite forEach_cons, bind_eq.
  change (process_node h 0) with (_processStyleObject h sheet).
  rewrite (walk_throws_at_rule_without_style h sheet (engine [TriggerOn] [])
             [([0; 0], inner)] [0] media [([1], last)]
             (set_processed (fun ps => ps ++ [Rule inner])
                (engine [TriggerOn] []))).
  - reflexivity.
  - reflexivity.
  - reflexivity.
  - by vm_compute.
Defined.

(** ** Dispatch to the registered triggers *)

(** X15. A provider with a well-formed expression: the triggers of the
    engine are called in registration order, each with the decoded
    argument, the provider and the affected nodes, which are the elements
    that match the selector for a style rule and the provider itself for
    an element and for any other rule; each trigger runs in the state
    that the one before has left, and a trigger that throws ends the
    dispatch with an [Error] around what it threw. The triggers are taken
    to leave the array of triggers as it is. *)
Theorem processStyleProvider_calls_triggers h sp st content args :
  content_of h sp = Some content ->
  _extractArgumentString content <> [] ->
  JSON_parse h (_extractArgumentString content) = Some args ->
  (forall t,
     t ∈ _triggers st ->
     keeps_triggers (call_trigger h t (nodes_of h (datasets st) sp) args sp)) ->
  _processStyleProvider h sp st
  = dispatch h (_triggers st) (nodes_of h (datasets st) sp) args sp
      (set_processed (fun ps => ps ++ [sp]) st).
Proof.
  intros Hc Harg Hparse Hkeep.
  unfold _processStyleProvider. rewrite bind_eq. unfold modify.
  rewrite bind_eq, style_content_of_eq, Hc.
  destruct (_extractArgumentString content) as [|c arg] eqn:Heq; [done|].
  cbn [length Nat.ltb Nat.leb]. rewrite bind_eq, Hparse. unfold ret at 1.
  rewrite bind_eq.
  assert (affected_nodes h sp (set_processed (fun ps => ps ++ [sp]) st)
          = (inr (nodes_of h (datasets st) sp),
             set_processed (fun ps => ps ++ [sp]) st)) as ->.
  { destruct sp as [n|r]; [done|]. simpl. by destruct (isCSSStyleRule r). }
  by rewrite _processTrigger_eq.
Qed.

Lemma processStyleProvider_calls_triggers_witness :
  let rule :=
    CssObject true (js "p")
      (Some (js "stylish({\'color\':\'red\'})")) None in
  let h :=
    with_functions
      (page [div "none"; div "none"]
         (fun selector =>
            if bool_decide (selector = js "p") then [0; 1] else []))
      (fun _ _ _ => ret tt)
      (fun id _ _ _ =>
         if id =? 1 then addHandler (TriggerCustom 1) 5
         else if id =? 2 then throw (Thrown 7)
         else ret tt) in
  let args := JObj [(js "color", JStr (js "red"))] in
  let r :=
    _processStyleProvider h (Rule rule)
      (engine [TriggerCustom 1; TriggerCustom 2; TriggerCustom 3] []) in
  r.1 = inl (Error InProcessTrigger (Some (js "p")) (Thrown 7))
  /\ _handlers r.2 = [Handler (TriggerCustom 1) 5]
  /\ trace r.2
     = [CallTrigger (TriggerCustom 1) [Element 0; Element 1] args (Rule rule);
        CallTrigger (TriggerCustom 2) [Element 0; Element 1] args
          (Rule rule)].
Proof.
  intros rule h args r. subst r.
  rewrite (processStyleProvider_calls_triggers h (Rule rule)
             (engine [TriggerCustom 1; TriggerCustom 2; TriggerCustom 3] [])
             (js "stylish({\'color\':\'red\'})") args).
  - repeat split; vm_compute; reflexivity.
  - reflexivity.
  - vm_compute. discriminate.
  - vm_compute. reflexivity.
  - intros t Ht sta stb Hrun.
    apply elem_of_cons in Ht as [->|Ht];
      [vm_compute in Hrun; by injection Hrun as <-|].
    apply elem_of_cons in Ht as [->|Ht];
      [vm_compute in Hrun; discriminate Hrun|].
    apply elem_of_cons in Ht as [->|Ht];
      [vm_compute in Hrun; by injection Hrun as <-|].
    by apply elem_of_nil in Ht.
Defined.

(** ** What the built-in triggers leave alone *)

Lemma bind_preserves {A B} (R : relation state) `{!Transitive R}
    (m : M A) (k : A -> M B) st :
  R st (m st).2 ->
  (forall a st', R st' (k a st').2) ->
  R st ((m ≫= k) st).2.
Proof.
  intros Hm Hk. rewrite bind_eq.
  destruct (m st) as [[e|a] st'] eqn:Heq; simpl in *; [done|].
  etrans; [exact Hm|apply Hk].
Qed.

Lemma forEach_preserves {A} (R : relation state)
    `{!Reflexive R, !Transitive R} (l : list A) (f : A -> M unit) :
  (forall x st, x ∈ l -> R st (f x st).2) ->
  forall st, R st (forEach l f st).2.
Proof.
  induction l as [|x l IH]; intros Hf st; [done|].
  rewrite forEach_cons. apply bind_preserves; [done| |].
  - apply Hf. by left.
  - intros _ st'. apply IH. intros y st2 Hy. apply Hf. by right.
Qed.

Lemma member_preserves (R : relation state) `{!Reflexive R} value key st :
  R st (member value key st).2.
Proof. by destruct value. Qed.

#[local] Instance only_adds_listeners_refl : Reflexive only_adds_listeners.
Proof. by intros st. Qed.

#[local] Instance only_adds_listeners_trans : Transitive only_adds_listeners.
Proof.
  intros a b c (H1 & H2 & H3 & H4 & H5) (H1' & H2' & H3' & H4' & H5').
  split; [congruence|]. split; [congruence|]. split; [congruence|].
  split; [congruence|]. intros n. etrans; [apply H5|apply H5'].
Qed.

Lemma addEventListener_only_adds node event fn capture st :
  only_adds_listeners st (addEventListener node event fn capture st).2.
Proof.
  destruct node as [n|r]; [|done]. simpl.
  do 4 (split; [done|]).
  intros m. destruct st as [ts hs ds ls nf ch ph tr ps rt]. simpl.
  unfold add_listener. destruct (existsb _ _); [done|].
  destruct (decide (m = n)) as [->|Hne].
  - rewrite lookup_insert_eq. simpl. by apply prefix_app_r.
  - by rewrite lookup_insert_ne.
Qed.

(** X16. Whatever its arguments and whether it throws or not, the [on]
    trigger never removes or reorders a listener, writes no data
    attribute, calls no handler and leaves the registrations of the
    engine alone: every listener list afterwards starts with the list
    before. *)
Theorem triggerOn_only_adds_listeners nodes args sp st :
  only_adds_listeners st (triggerOn nodes args sp st).2.
Proof.
  unfold triggerOn.
  apply bind_preserves; [apply _|by apply member_preserves|].
  intros on st1. destruct (negb (0 <? length nodes)); [done|].
  destruct (negb (typeof_object on)); [done|].
  apply bind_preserves; [apply _|by apply member_preserves|].
  intros events st2. destruct (isArray events) as [evs|]; [|done].
  apply bind_preserves; [apply _|done|].
  intros fn st3.
  apply forEach_preserves; [apply _..|]. intros event st4 _.
  apply forEach_preserves; [apply _..|]. intros node st5 _.
  apply addEventListener_only_adds.
Qed.

#[local] Instance only_writes_data_refl nodes keys :
  Reflexive (only_writes_data nodes keys).
Proof. by intros st. Qed.

#[local] Instance only_writes_data_trans nodes keys :
  Transitive (only_writes_data nodes keys).
Proof.
  intros a b c (H1 & H2 & H3 & H4 & H5) (H1' & H2' & H3' & H4' & H5').
  split; [congruence|]. split; [congruence|]. split; [congruence|].
  split; [by etrans|]. intros n name Hout.
  by rewrite (H5' _ _ Hout), (H5 _ _ Hout).
Qed.

Lemma write_dataset_other n name value ds m k :
  m <> n \/ k <> name ->
  write_dataset n name value ds !! m ≫= (.!! k) = ds !! m ≫= (.!! k).
Proof.
  intros Hother. unfold write_dataset.
  destruct (decide (m = n)) as [->|Hm].
  - rewrite lookup_insert_eq. simpl. destruct Hother as [?|Hk]; [done|].
    rewrite lookup_insert_ne by done. by destruct (ds !! n).
  - by rewrite lookup_insert_ne.
Qed.

Lemma dataset_set_only_writes h nodes keys node name value st :
  node ∈ nodes -> name ∈ keys ->
  only_writes_data nodes keys st (dataset_set h node name value st).2.
Proof.
  intros Hnode Hname. destruct node as [n|r]; [|done]. simpl.
  destruct (hyphen_before_lower name); [done|].
  destruct (negb (valid_attribute_name h (attribute_of name))); [done|].
  do 4 (split; [done|]). intros m k Hout.
  unfold data_attribute. destruct st as [ts hs ds ls nf ch ph tr ps rt]. simpl.
  apply write_dataset_other.
  destruct (decide (m = n)) as [->|Hm]; [|by left].
  destruct (decide (k = name)) as [->|Hk]; [|by right].
  by destruct Hout.
Qed.

Lemma forEach_from_preserves {A} (R : relation state)
    `{!Reflexive R, !Transitive R} (array : state -> list A)
    (f : A -> M unit) :
  (forall x st, R st (f x st).2) ->
  forall count index st, R st (forEach_from array f index count st).2.
Proof.
  intros Hf. induction count as [|count IH]; intros index st; [done|].
  cbn [forEach_from]. apply bind_preserves; [done..|].
  intros l st1. apply bind_preserves; [done| |].
  - destruct (l !! index); [apply Hf|done].
  - intros _ st2. apply IH.
Qed.

Lemma processHandler_only_writes h nodes keys ns p t st :
  (forall fn st1, only_writes_data nodes keys st1 (handler_fn h fn ns p st1).2) ->
  only_writes_data nodes keys st (_processHandler h ns p t st).2.
Proof.
  intros Hfn. unfold _processHandler, forEach_array.
  apply bind_preserves; [apply _|done|]. intros array st1.
  apply bind_preserves; [apply _|done|]. intros l st2.
  apply forEach_from_preserves; [apply _..|]. intros hd st3.
  destruct (bool_decide (t = h_trigger hd)); [|done].
  unfold call_handler. apply bind_preserves; [apply _| |by intros _ ?].
  simpl. do 3 (split; [done|]). split; [|done].
  destruct st3. simpl. by apply prefix_app_r.
Qed.

(** X17. Whatever its arguments and whether it throws or not, the [data]
    trigger leaves the listeners and the registrations of the engine
    alone, only adds calls at the end of the call record, and writes no
    data attribute other than the own keys of [data] on the affected
    nodes, when the callbacks that it invokes do no more themselves. *)
Theorem triggerData_only_writes_data h nodes args sp st :
  (forall fn p st1,
     only_writes_data nodes
       (own_keys (default JNull (own_prop args (js "data"))))
       st1 (handler_fn h fn nodes p st1).2) ->
  only_writes_data nodes
    (own_keys (default JNull (own_prop args (js "data"))))
    st (triggerData h nodes args sp st).2.
Proof.
  intros Hfn. unfold triggerData. rewrite bind_eq.
  assert (args = JNull \/ args <> JNull) as [->|Hargs]
    by (destruct args; (by left) || (by right)); [done|].
  rewrite (member_not_null _ _ _ Hargs).
  destruct (negb (0 <? length nodes)); [done|].
  destruct (negb (typeof_object _)); [done|].
  apply forEach_preserves; [apply _..|]. intros name st1 Hname.
  apply bind_preserves; [apply _| |].
  - unfold hasOwnProperty. by destruct (own_prop _ (js "hasOwnProperty")).
  - intros [] st2; [|done].
    apply bind_preserves; [apply _| |].
    + apply forEach_preserves; [apply _..|]. intros node st3 Hnode.
      by apply dataset_set_only_writes.
    + intros _ st3. by apply processHandler_only_writes.
Qed.

Lemma triggerData_only_writes_data_witness :
  let h :=
    with_functions (page [] (fun _ => []))
      (fun fn _ _ => if fn =? 7 then throw (Thrown 1) else ret tt)
      (fun _ _ _ _ => ret tt) in
  let args := JObj [(js "data", JObj [(js "state", JStr (js "open"))])] in
  let st := engine [TriggerData] [Handler TriggerData 7] in
  only_writes_data [Element 0; Element 1] [js "state"] st
    (triggerData h [Element 0; Element 1] args (Element 0) st).2.
Proof.
  intros h args st.
  apply (triggerData_only_writes_data h [Element 0; Element 1] args
           (Element 0) st).
  intros fn p st1. cbn [handler_fn h with_functions].
  destruct (fn =? 7); reflexivity.
Defined.

(** ** [removeHandler] in the draft of version 0.1.0 *)

Lemma set_handlers_const hs st :
  _handlers st = hs -> set_handlers (fun _ => hs) st = st.
Proof. intros <-. by destruct st. Qed.

Lemma set_handlers_const_twice hs f st :
  set_handlers (fun _ => hs) (set_handlers f st)
  = set_handlers (fun _ => hs) st.
Proof. by destruct st. Qed.

Lemma delete_length_app {A} (pre : list A) a rest :
  delete (length pre) (pre ++ a :: rest) = pre ++ rest.
Proof. induction pre as [|x pre IH]; [done|]. simpl. by rewrite IH. Qed.

Lemma draft_removeHandler_from t fn rest :
  forall pre removed fuel index len st,
    _handlers st = pre ++ rest ->
    length rest < fuel ->
    index = Z.of_nat (length pre) ->
    len = Z.of_nat (length pre + length rest + removed) ->
    Draft010.removeHandler_from fuel index len t fn st
    = if (0 <? removed) || bool_decide (Handler t fn ∈ rest)
      then (inl TypeError,
            set_handlers (fun _ =>
              pre ++ filter (fun handler => handler <> Handler t fn) rest) st)
      else (inr tt, st).
Proof.
  induction rest as [|a rest IH];
    intros pre removed [|fuel] index len st Hhs Hfuel -> ->;
    simpl in Hfuel; try lia; cbn [Draft010.removeHandler_from].
  - rewrite bool_decide_eq_false_2 by apply not_elem_of_nil.
    rewrite orb_false_r, app_nil_r in *. simpl.
    destruct removed as [|removed].
    + rewrite (proj2 (Z.ltb_ge _ _)) by lia. done.
    + rewrite (proj2 (Z.ltb_lt _ _)) by lia.
      rewrite bind_eq. unfold gets, Draft010.at_index.
      rewrite (proj2 (Z.ltb_ge _ _)) by lia.
      rewrite Nat2Z.id, Hhs, lookup_ge_None_2 by done.
      cbn [Nat.ltb Nat.leb]. by rewrite set_handlers_const.
  - rewrite (proj2 (Z.ltb_lt _ _)) by (simpl; lia).
    rewrite bind_eq. unfold gets, Draft010.at_index.
    rewrite (proj2 (Z.ltb_ge _ _)) by lia.
    rewrite Nat2Z.id, Hhs, list_lookup_middle by done.
    rewrite handler_matches.
    destruct (decide (a = Handler t fn)) as [->|Ha];
      [rewrite (bool_decide_eq_true_2 (_ = _)) by done
      |rewrite (bool_decide_eq_false_2 (_ = _)) by done].
    + rewrite bind_eq. unfold modify.
      rewrite (IH pre (S removed)); try lia.
      * rewrite (bool_decide_eq_true_2 (_ ∈ _ :: _)) by (by left).
        rewrite orb_true_r. cbn [Nat.ltb Nat.leb orb].
        rewrite filter_cons_False by (by intros ?).
        by rewrite set_handlers_const_twice.
      * destruct st. simpl in *. subst. apply delete_length_app.
      * simpl. lia.
    + rewrite (IH (pre ++ [a]) removed); try lia.
      * rewrite filter_cons_True by done.
        rewrite <- (assoc_L (++)). simpl.
        destruct (0 <? removed); [done|]. simpl.
        destruct (decide (Handler t fn ∈ rest)) as [Hin|Hnot].
        -- rewrite !bool_decide_eq_true_2; [done| |done]. by right.
        -- rewrite !bool_decide_eq_false_2; [done| |done].
           intros [?|?]%elem_of_cons; [by subst|done].
      * by rewrite <- (assoc_L (++)).
      * rewrite length_app. simpl. lia.
      * rewrite length_app. simpl. lia.
Qed.

(** X18. [removeHandler] of the draft of version 0.1.0 steps back after a
    removal, so that it removes every registration of the pair, adjacent
    ones included; but it compares the index with the length read before
    the loop, so that after any removal it reads past the end of the list
    and throws a TypeError. It returns normally exactly when the pair is
    not registered. *)
Theorem draft_removeHandler_throws_after_removal t fn st :
  Draft010.removeHandler t fn st
  = if bool_decide (Handler t fn ∈ _handlers st)
    then (inl TypeError,
          set_handlers (filter (fun handler => handler <> Handler t fn)) st)
    else (inr tt, st).
Proof.
  unfold Draft010.removeHandler. rewrite bind_eq. unfold gets.
  rewrite (draft_removeHandler_from t fn (_handlers st) [] 0); try done.
  - lia.
  - simpl. f_equal. lia.
Qed.

Example draft_removeHandler_adjacent :
  Draft010.removeHandler TriggerOn 1
    (engine [] [Handler TriggerOn 1; Handler TriggerOn 1; Handler TriggerOn 2])
  = (inl TypeError, engine [] [Handler TriggerOn 2]).
Proof. reflexivity. Qed.

(** ** Repeated runs of the [on] trigger *)

Lemma triggerOn_installs ns args on events sp st :
  ns <> [] ->
  own_prop args (js "on") = Some on ->
  own_prop on (js "events") = Some (JArr events) ->
  triggerOn (Element <$> ns) args sp st
  = (inr tt,
     set_listeners
       (install
          (on_registrations events ns
             (ListenerFn (next_fn st) (mode_of (own_prop on (js "mode")))
                (Element <$> ns) TriggerOn)
             (own_prop on (js "capture"))))
       (set_next_fn (S (next_fn st)) st)).
Proof.
  intros Hns Hon Hevents.
  destruct (own_prop_Some_object _ _ _ Hevents) as [Hobj _].
  unfold triggerOn. rewrite bind_eq, (member_Some _ _ _ st Hon).
  assert ((0 <? length (Element <$> ns)) = true) as ->.
  { rewrite length_fmap. destruct ns; [done|].
    by apply Nat.ltb_lt; simpl; lia. }
  cbn [negb]. rewrite Hobj. cbn [negb from_option id].
  rewrite bind_eq, (member_Some _ _ _ st Hevents). cbn [isArray].
  rewrite bind_eq. unfold new_listener_fn. rewrite bind_eq.
  unfold gets. rewrite bind_eq. unfold modify, ret.
  apply forEach_on_registrations.
Qed.

Lemma add_listener_prefix n l ls m :
  default [] (ls !! m) `prefix_of` default [] (add_listener n l ls !! m).
Proof.
  unfold add_listener. destruct (existsb _ _); [done|].
  destruct (decide (m = n)) as [->|Hne].
  - rewrite lookup_insert_eq. simpl. by apply prefix_app_r.
  - by rewrite lookup_insert_ne.
Qed.

Lemma install_prefix adds ls m :
  default [] (ls !! m) `prefix_of` default [] (install adds ls !! m).
Proof.
  revert ls. induction adds as [|[n l] adds IH]; intros ls; [done|].
  simpl. etrans; [apply add_listener_prefix|apply IH].
Qed.

(** X19. On an engine whose listener lists hold no closure of the
    future, every run of the [on] trigger on elements, with a non-empty
    array of events, makes the listener list of every affected element
    strictly longer: the closure of the run is new, so that no entry of an
    earlier run is reused or replaced. The engine is afterwards again in
    such a state, so that this holds for every later run. *)
Theorem triggerOn_adds_on_every_run ns args on events sp st :
  fresh st ->
  ns <> [] ->
  own_prop args (js "on") = Some on ->
  own_prop on (js "events") = Some (JArr events) ->
  events <> [] ->
  fresh (triggerOn (Element <$> ns) args sp st).2
  /\ forall n,
       n ∈ ns ->
       length (default [] (listeners st !! n))
       < length (default []
                   (listeners (triggerOn (Element <$> ns) args sp st).2 !! n)).
Proof.
  intros Hfresh Hns Hon Hevents Hnonempty.
  rewrite (triggerOn_installs _ _ _ _ _ _ Hns Hon Hevents).
  set (fn := ListenerFn (next_fn st) _ _ _).
  set (adds := on_registrations events ns fn _).
  unfold fresh. cbn [snd].
  change (listeners (set_listeners (install adds) (set_next_fn _ st)))
    with (install adds (listeners st)).
  change (next_fn (set_listeners (install adds) (set_next_fn _ st)))
    with (S (next_fn st)).
  split.
  - intros n l [Hold|Hnew%elem_of_on_registrations]%elem_of_install.
    + specialize (Hfresh n l Hold). lia.
    + destruct Hnew as (_ & event & _ & ->). cbn [l_fn fn_id fn]. lia.
  - intros n Hn. destruct events as [|event events]; [done|].
    destruct (install_has adds (listeners st) n
                (Listener event fn (own_prop on (js "capture"))))
      as (l & Hl & Hsame).
    { apply elem_of_on_registrations. split; [done|].
      exists event. split; [by left|done]. }
    destruct (install_prefix adds (listeners st) n) as [k Hk].
    rewrite Hk in Hl |- *. rewrite length_app.
    destruct k as [|x k]; [|simpl; lia].
    rewrite app_nil_r in Hl. specialize (Hfresh n l Hl).
    unfold same_listener in Hsame.
    apply andb_prop in Hsame as [Hsame _].
    apply andb_prop in Hsame as [_ Hid].
    apply bool_decide_eq_true in Hid. cbn [l_fn fn_id fn] in Hid. lia.
Qed.

Lemma triggerOn_adds_on_every_run_witness :
  let on := JObj [(js "events", JArr [JStr (js "click")])] in
  let args := JObj [(js "on", on)] in
  let st := engine [TriggerOn] [] in
  let st' := (triggerOn (Element <$> [0; 1]) args (Element 0) st).2 in
  fresh st'
  /\ forall n,
       n ∈ [0; 1] ->
       length (default [] (listeners st !! n))
       < length (default [] (listeners st' !! n)).
Proof.
  intros on args st st'.
  apply (triggerOn_adds_on_every_run [0; 1] args on [JStr (js "click")]
           (Element 0) st).
  - intros n l Hl. unfold st, engine in Hl. cbn [listeners] in Hl.
    rewrite lookup_empty in Hl. by apply elem_of_nil in Hl.
  - done.
  - reflexivity.
  - reflexivity.
  - done.
Defined.

(** ** The [data] trigger on a plain object *)

(** X20. A run of the [data] trigger on a non-empty list of elements,
    with a [data] object that has no own key [hasOwnProperty] and whose
    own keys are names that the [dataset] setter of the host takes (no
    hyphen before a lower-case letter, a valid attribute name), and with
    callbacks under the trigger that return and leave the handlers, the
    data attributes and the record of calls alone: it does not throw;
    afterwards every own key of [data] is a data attribute of every
    affected element, with the string that the host makes of its value in
    [data]; and the callbacks registered under the trigger have been
    invoked once per own key, in registration order, each time with all
    the nodes and the whole object. *)
Theorem triggerData_writes_and_dispatches h ns args data sp st :
  ns <> [] ->
  own_prop args (js "data") = Some data ->
  own_prop data (js "hasOwnProperty") = None ->
  (forall name, name ∈ own_keys data -> dataset_name h name = true) ->
  (forall fn,
     fn ∈ registered TriggerData (_handlers st) ->
     plain_callback
       (handler_fn h fn (Element <$> ns) (PayloadData data))) ->
  exists st',
    triggerData h (Element <$> ns) args sp st = (inr tt, st')
    /\ (forall n name,
          n ∈ ns -> name ∈ own_keys data ->
          data_attribute st' n name
          = Some (DOMString_of h (own_prop data name)))
    /\ trace st'
       = trace st
         ++ mjoin ((fun _ =>
                      handler_calls (_handlers st) (Element <$> ns)
                        (PayloadData data) TriggerData) <$> own_keys data).
Proof.
  intros Hns Hdata Hown Hnames Hplain.
  destruct (triggerData_rounds h ns args data sp st)
    as (st' & Hrun & _ & _ & Hds & Htrace); [done..|].
  exists st'. split; [done|]. split; [|done].
  intros n name Hn Hname. unfold data_attribute. rewrite Hds.
  by apply datasets_data_rounds.
Qed.

Lemma triggerData_writes_and_dispatches_witness :
  let h :=
    with_functions (page [] (fun _ => []))
      (fun fn _ _ => if fn =? 7 then addTrigger (TriggerCustom 1) else ret tt)
      (fun _ _ _ _ => ret tt) in
  let data :=
    JObj [(js "state", JStr (js "open")); (js "fooBar", JNum (js "2.50"))] in
  let args := JObj [(js "data", data)] in
  let calls :=
    [CallHandler 7 [Element 0; Element 1] (PayloadData data);
     CallHandler 7 [Element 0; Element 1] (PayloadData data)] in
  exists st',
    triggerData h (Element <$> [0; 1]) args (Element 0)
      (engine [TriggerData] [Handler TriggerData 7]) = (inr tt, st')
    /\ data_attribute st' 1 (js "fooBar") = Some (js "2.5")
    /\ trace st' = calls.
Proof.
  intros h data args calls.
  destruct (triggerData_writes_and_dispatches h [0; 1] args data (Element 0)
              (engine [TriggerData] [Handler TriggerData 7]))
    as (st' & Hrun & Hdata & Htrace).
  - done.
  - reflexivity.
  - reflexivity.
  - intros name Hname. vm_compute in Hname.
    apply elem_of_cons in Hname as [->|Hname]; [vm_compute; reflexivity|].
    apply elem_of_cons in Hname as [->|Hname]; [vm_compute; reflexivity|].
    by apply elem_of_nil in Hname.
  - intros fn Hfn st1. vm_compute in Hfn.
    apply elem_of_cons in Hfn as [->|Hfn]; [|by apply elem_of_nil in Hfn].
    by eexists.
  - exists st'. split; [exact Hrun|]. split.
    + rewrite (Hdata 1 (js "fooBar")); [vm_compute; reflexivity| |].
      * apply elem_of_cons. right. apply elem_of_cons. by left.
      * vm_compute. apply elem_of_cons. right. apply elem_of_cons. by left.
    + rewrite Htrace. vm_compute. reflexivity.
Defined.

(** The setter of the host refuses a name with a hyphen before a
    lower-case letter: the trigger throws on that key, and the pass
    ends. *)
Example data_name_with_hyphen :
  let h :=
    page [div "stylish({\'data\':{\'foo-bar\':\'1\'}})"] (fun _ => []) in
  let r := process h (engine [TriggerData] [Handler TriggerData 7]) in
  r.1
  = inl (Error InProcessTrigger (Some (js "div"))
           (DOMException DomSyntaxError))
  /\ datasets r.2 = ∅
  /\ trace r.2
     = [CallTrigger TriggerData [Element 0]
          (JObj [(js "data", JObj [(js "foo-bar", JStr (js "1"))])])
          (Element 0)].
Proof. cbv zeta. repeat split; vm_compute; reflexivity. Qed.

(** ** The [on] trigger of the IIFE draft *)

Lemma replace_listener_step prev fn event n st :
  (removeEventListener (Element n) event prev ;;
   addEventListener (Element n) event fn None) st
  = (inr tt,
     set_listeners (fun ls => replace_listener prev fn ls (event, n)) st).
Proof. by destruct st. Qed.

Lemma forEach_replace_listener prev fn event ns ts hs ds nf ch ph tr ps rt :
  forall ls,
    forEach (Element <$> ns)
      (fun node =>
         removeEventListener node event prev ;;
         addEventListener node event fn None)
      (State ts hs ds ls nf ch ph tr ps rt)
    = (inr tt,
       State ts hs ds
         (foldl (replace_listener prev fn) ls ((fun n => (event, n)) <$> ns))
         nf ch ph tr ps rt).
Proof.
  induction ns as [|n ns IH]; intros ls; [done|].
  rewrite fmap_cons, forEach_cons, bind_eq, replace_listener_step.
  unfold set_listeners.
  cbn [_triggers _handlers datasets listeners next_fn _currHandler
       _prevHandler trace processed].
  by rewrite IH.
Qed.

Lemma forEach_replace_listeners prev fn events ns ts hs ds nf ch ph tr ps rt :
  forall ls,
    forEach events (fun event =>
      forEach (Element <$> ns)
        (fun node =>
           removeEventListener node event prev ;;
           addEventListener node event fn None))
      (State ts hs ds ls nf ch ph tr ps rt)
    = (inr tt,
       State ts hs ds
         (foldl (replace_listener prev fn) ls
            (event ← events; (fun n => (event, n)) <$> ns))
         nf ch ph tr ps rt).
Proof.
  induction events as [|event events IH]; intros ls; [done|].
  rewrite forEach_cons, bind_eq, forEach_replace_listener, IH.
  by rewrite bind_cons, foldl_app.
Qed.

Lemma triggerOn_tracked_replaces ns args on events sp st prev :
  ns <> [] ->
  own_prop args (js "on") = Some on ->
  own_prop on (js "events") = Some (JArr events) ->
  _currHandler st = Some prev ->
  let fn :=
    ListenerFn (next_fn st) (mode_of (own_prop on (js "mode")))
      (Element <$> ns) TriggerOnTracked in
  triggerOn_tracked (Element <$> ns) args sp st
  = (inr tt,
     State (_triggers st) (_handlers st) (datasets st)
       (foldl (replace_listener prev fn) (listeners st)
          (event ← events; (fun n => (event, n)) <$> ns))
       (S (next_fn st)) (Some fn) (Some prev) (trace st) (processed st)
       (retired st)).
Proof.
  intros Hns Hon Hevents Hcurr fn.
  destruct (own_prop_Some_object _ _ _ Hevents) as [Hobj _].
  unfold triggerOn_tracked.
  assert ((length (Element <$> ns) =? 0) = false) as ->.
  { rewrite length_fmap. destruct ns; [done|]. by apply Nat.eqb_neq. }
  rewrite bind_eq, (member_Some _ _ _ st Hon).
  rewrite Hobj. cbn [negb from_option id].
  rewrite bind_eq, (member_Some _ _ _ st Hevents). cbn [isArray].
  rewrite bind_eq. unfold gets at 1. rewrite Hcurr.
  rewrite bind_eq. unfold new_listener_fn. rewrite bind_eq.
  unfold gets. rewrite bind_eq. unfold modify at 1, ret.
  rewrite bind_eq. unfold modify.
  destruct st as [ts hs ds ls nf ch ph tr ps rt].
  apply forEach_replace_listeners.
Qed.

Lemma elem_of_remove_listener n x ls m l :
  l ∈ default [] (remove_listener n x ls !! m)
  <-> l ∈ default [] (ls !! m) /\ (m = n -> same_listener x l = false).
Proof.
  unfold remove_listener. destruct (ls !! n) as [old|] eqn:Hold.
  - destruct (decide (m = n)) as [->|Hne].
    + rewrite lookup_insert_eq, Hold. simpl.
      rewrite list_elem_of_In, filter_In, <- list_elem_of_In.
      rewrite negb_true_iff.
      split; intros [Hl Hsame]; (split; [done|auto]).
    + rewrite lookup_insert_ne by done.
      split; [intros Hl; split; [done|by intros ?]|by intros [? _]].
  - split; [|by intros [? _]]. intros Hl. split; [done|].
    intros ->. rewrite Hold in Hl. by apply elem_of_nil in Hl.
Qed.

Lemma elem_of_replace_listener prev fn ls p m l :
  l ∈ default [] (replace_listener prev fn ls p !! m)
  -> (l ∈ default [] (ls !! m)
      /\ (m = p.2 -> same_listener (Listener p.1 prev None) l = false))
     \/ (m = p.2 /\ l = Listener p.1 fn None).
Proof.
  unfold replace_listener.
  intros [Hl|(-> & -> & _)]%elem_of_add_listener; [|by right].
  left. by apply elem_of_remove_listener.
Qed.

Lemma replace_listener_keeps prev fn ls p m l :
  l ∈ default [] (ls !! m) ->
  same_listener (Listener p.1 prev None) l = false ->
  l ∈ default [] (replace_listener prev fn ls p !! m).
Proof.
  intros Hl Hsame. unfold replace_listener.
  apply elem_of_add_listener. left. by apply elem_of_remove_listener.
Qed.

Lemma replace_listener_other prev fn ls p m :
  m <> p.2 -> replace_listener prev fn ls p !! m = ls !! m.
Proof.
  intros Hne. unfold replace_listener, add_listener.
  assert (remove_listener p.2 (Listener p.1 prev None) ls !! m = ls !! m)
    as Hremove.
  { unfold remove_listener. destruct (ls !! p.2); [|done].
    by rewrite lookup_insert_ne. }
  destruct (existsb _ _); [done|]. by rewrite lookup_insert_ne.
Qed.

Lemma other_closure prev fn event event' l :
  fn_id prev <> fn_id fn ->
  same_listener (Listener event fn None) l = true ->
  same_listener (Listener event' prev None) l = false.
Proof.
  intros Hne Hsame. unfold same_listener in *. simpl in *.
  apply andb_prop in Hsame as [Hsame _].
  apply andb_prop in Hsame as [_ Hid]. apply bool_decide_eq_true in Hid.
  rewrite (bool_decide_eq_false_2 (fn_id prev = _)) by congruence.
  by rewrite andb_false_r.
Qed.

(** X21. A run of the [on] trigger of the IIFE draft after an earlier
    run, on elements and with an array of events: it does not throw and
    remembers the closure of the earlier run as the previous one;
    afterwards no affected element listens with the previous closure to
    an event of the run, and every affected element listens with the new
    closure to every event of the run. The listener lists of the other
    elements are left as they are, the entries of the previous closure
    included. *)
Theorem tracked_replaces_previous ns args on events sp st prev :
  ns <> [] ->
  own_prop args (js "on") = Some on ->
  own_prop on (js "events") = Some (JArr events) ->
  _currHandler st = Some prev ->
  fn_id prev < next_fn st ->
  let fn :=
    ListenerFn (next_fn st) (mode_of (own_prop on (js "mode")))
      (Element <$> ns) TriggerOnTracked in
  let r := triggerOn_tracked (Element <$> ns) args sp st in
  r.1 = inr tt
  /\ _prevHandler r.2 = Some prev
  /\ _currHandler r.2 = Some fn
  /\ (forall n event l,
        n ∈ ns -> event ∈ events ->
        l ∈ default [] (listeners r.2 !! n) ->
        same_listener (Listener event prev None) l = false)
  /\ (forall n event,
        n ∈ ns -> event ∈ events ->
        exists l, l ∈ default [] (listeners r.2 !! n)
                  /\ same_listener (Listener event fn None) l = true)
  /\ (forall m, m ∉ ns -> listeners r.2 !! m = listeners st !! m).
Proof.
  intros Hns Hon Hevents Hcurr Hprev fn r. subst r.
  rewrite (triggerOn_tracked_replaces _ _ _ _ _ _ _ Hns Hon Hevents Hcurr).
  fold fn. cbn [fst snd _prevHandler _currHandler listeners].
  assert (fn_id prev <> fn_id fn) as Hne by (simpl; lia).
  set (pairs := event ← events; (fun n => (event, n)) <$> ns).
  assert (forall n event, n ∈ ns -> event ∈ events -> (event, n) ∈ pairs)
    as Hpairs.
  { intros n event Hn Hevent. apply list_elem_of_bind. exists event.
    split; [|done]. apply list_elem_of_fmap. by exists n. }
  assert (forall p, p ∈ pairs -> p.2 ∈ ns) as Hnodes.
  { intros p (event & (n & -> & Hn)%list_elem_of_fmap & _)%list_elem_of_bind.
    done. }
  clearbody pairs.
  do 3 (split; [done|]). split; [|split].
  - intros n event l Hn Hevent. specialize (Hpairs n event Hn Hevent).
    clear Hnodes. revert l.
    induction pairs as [|p pairs IH] using rev_ind;
      [by apply elem_of_nil in Hpairs|].
    intros l. rewrite foldl_app. simpl.
    intros [[Hl Hsame]|[_ ->]]%elem_of_replace_listener.
    + apply elem_of_app in Hpairs as [Hin|Hp%list_elem_of_singleton].
      * by apply IH.
      * subst p. by apply Hsame.
    + apply (other_closure _ fn p.1); [done|apply same_listener_refl].
  - intros n event Hn Hevent. specialize (Hpairs n event Hn Hevent).
    clear Hnodes.
    induction pairs as [|p pairs IH] using rev_ind;
      [by apply elem_of_nil in Hpairs|].
    rewrite foldl_app. simpl.
    apply elem_of_app in Hpairs as [Hin|Hp%list_elem_of_singleton].
    + destruct (IH Hin) as (l & Hl & Hsame). exists l. split; [|done].
      apply replace_listener_keeps; [done|].
      by apply (other_closure _ fn event).
    + subst p. apply add_listener_has.
  - intros m Hm. clear Hpairs.
    induction pairs as [|p pairs IH] using rev_ind; [done|].
    rewrite foldl_app. simpl. rewrite replace_listener_other.
    + apply IH. intros q Hq. apply Hnodes. apply elem_of_app. by left.
    + intros ->. apply Hm, Hnodes. apply elem_of_app. right. by left.
Qed.

Lemma tracked_replaces_previous_witness :
  let on := JObj [(js "events", JArr [JStr (js "click")])] in
  let args := JObj [(js "on", on)] in
  let prev :=
    ListenerFn 0 (js "local") [Element 0; Element 1] TriggerOnTracked in
  let st :=
    (triggerOn_tracked [Element 0; Element 1] args (Element 0)
       (engine [TriggerOnTracked] [])).2 in
  let r := triggerOn_tracked (Element <$> [0]) args (Element 0) st in
  r.1 = inr tt
  /\ _prevHandler r.2 = Some prev
  /\ listeners r.2 !! 1 = listeners st !! 1.
Proof.
  intros on args prev st r.
  destruct (tracked_replaces_previous [0] args on [JStr (js "click")]
              (Element 0) st prev)
    as (Hrun & Hprev & _ & _ & _ & Hother).
  - done.
  - reflexivity.
  - reflexivity.
  - vm_compute. reflexivity.
  - vm_compute. lia.
  - split; [exact Hrun|]. split; [exact Hprev|]. apply Hother.
    intros Hin. apply elem_of_cons in Hin as [Hin|Hin]; [discriminate Hin|].
    by apply elem_of_nil in Hin.
Defined.
